(** * DBoW2 with BRISK descriptors: the descriptor functions, the fast
    vocabulary loader and the training tools

    A shallow embedding of

    - [FBRISK.cpp]: [FBRISK::meanValue], [FBRISK::distance],
      [FBRISK::toString], [FBRISK::fromString], [FBRISK::toMat32F];
    - the fast vocabulary loader: [FastVocabularyLoader::load];
    - [trainBRISK.cpp]: [changeStructure] and [changeStructureBRISK];
    - the vocabulary tree that the tools create, save and load, which is
      not among these sources and is modelled from the spec.

    Conventions of the embedding.

    - An [unsigned char] is a [Z] in [0, 256); a descriptor
      ([std::vector<unsigned char>]) is a [list Z].
    - [v[i]] on a [std::vector] is not bounds checked: an access out of range
      is undefined behaviour.  Every function that indexes a vector returns
      an [option], and [None] stands for undefined behaviour.
    - Fixed-width arithmetic is written out where the code computes with it
      ([uint64_t] counters, the [uint8_t] casts, the [unsigned int] node
      ids). *)

From Stdlib Require Import ZArith Lia Ascii String.
From stdpp Require Import base tactics option list numbers.

Local Open Scope Z_scope.

(** ** Vectors and loops *)

(** [for(x : l) s = body(s, x)] where the body may be undefined. *)
Fixpoint foldM {A S : Type} (body : S → A → option S) (s : S) (l : list A)
  : option S :=
  match l with
  | [] => Some s
  | x :: l' => s' ← body s x; foldM body s' l'
  end.

(** [v[i] = x] on a [std::vector]: undefined out of range. *)
Definition vset {A : Type} (v : list A) (i : nat) (x : A) : option (list A) :=
  if decide (i < length v)%nat then Some (<[i := x]> v) else None.

Definition is_byte (x : Z) : Prop := 0 ≤ x < 256.

Definition uint8_t (x : Z) : Z := x `mod` 2 ^ 8.
Definition uint64_t (x : Z) : Z := x `mod` 2 ^ 64.

Definition uint32_t (x : Z) : Z := x `mod` 2 ^ 32.

Definition INT_MAX : Z := 2147483647.
Definition INT_MIN : Z := -2147483648.

(** The result of an [int] operation: signed overflow is undefined. *)
Definition int (x : Z) : option Z :=
  if decide (INT_MIN ≤ x ≤ INT_MAX) then Some x else None.

(** [x & (0x01 << b)]. *)
Definition bit_and (x : Z) (b : nat) : Z := Z.land x (Z.shiftl 1 (Z.of_nat b)).

(** ** [cv::Mat] *)

(** A two-dimensional matrix of one channel: [data] is the buffer, row [i]
    starts at element [i * step] of it ([mat.ptr(i)]).  The elements are
    the bytes of a [CV_8U] matrix or the values of a [CV_32F] one; the
    [float]s the code stores are small integers, which a [float] holds
    exactly, and the model keeps them as integers. *)
Module cv.

Record Mat := mkMat {
  rows : nat;
  cols : nat;
  step : nat;
  data : list Z
}.

Definition isContinuous (m : Mat) : Prop := step m = cols m.

(** The buffer of a matrix holds its [rows] rows of [step] elements. *)
Definition allocated (m : Mat) : Prop :=
  length (data m) = (rows m * step m)%nat.

(** [mat.release()]: the empty matrix. *)
Definition release : Mat := mkMat 0 0 0 [].

(** [mat.create(rows, cols, type)]: a fresh continuous buffer.  Its content
    is not initialised; the model fills it with 0. *)
Definition create (r c : nat) : Mat := mkMat r c c (replicate (r * c) 0).

(** [mat.ptr(i)[j] = x] *)
Definition write (m : Mat) (i j : nat) (x : Z) : option Mat :=
  d ← vset (data m) (i * step m + j) x;
  Some (mkMat (rows m) (cols m) (step m) d).

(** [mat.at(i, j)] *)
Definition at_ (m : Mat) (i j : nat) : option Z := data m !! (i * step m + j)%nat.

End cv.

Module FBRISK.
Section WithLength.

(** The descriptor length in bytes, [FBRISK::L].  It is declared in
    [FBRISK.h]; the functions below are written for any value of it.  The
    training tool names the value for BRISK: 48 bytes. *)
Variable L : nat.

(** *** [FBRISK::meanValue] *)

(** [sum[i*8+b] += (desc[i]&(0x01<<b)) ? 1 : 0;] *)
Definition sum_step (desc : list Z) (sum : list Z) (ib : nat * nat)
  : option (list Z) :=
  let '(i, b) := ib in
  d ← desc !! i;
  c ← sum !! (i * 8 + b)%nat;
  vset sum (i * 8 + b)%nat
       (uint64_t (c + (if bit_and d b =? 0 then 0 else 1))).

(** [if(sum[i*8+size_t(b)]>s) mean[i] |= (0x01<<b);] *)
Definition mean_step (sum : list Z) (s : Z) (i : nat) (mean : list Z) (b : nat)
  : option (list Z) :=
  c ← sum !! (i * 8 + b)%nat;
  if s <? c then
    m ← mean !! i;
    vset mean i (uint8_t (Z.lor m (Z.shiftl 1 (Z.of_nat b))))
  else Some mean.

Definition meanValue (descriptors : list (list Z)) (mean : list Z)
  : option (list Z) :=
  let mean := resize 0 0 mean in
  let mean := resize L 0 mean in
  let s := uint64_t (Z.of_nat (length descriptors) `div` 2) in
  let sum := replicate (L * 8) 0 in
  (* sum *)
  sum ← foldM (λ sum desc,
           foldM (λ sum i,
             foldM (λ sum b, sum_step desc sum (i, b)) sum (seq 0 8))
           sum (seq 0 L))
         sum descriptors;
  (* average *)
  foldM (λ mean i, foldM (mean_step sum s i) mean (seq 0 8)) mean (seq 0 L).

(** *** [FBRISK::distance] *)

(** The number of one bits among the low [bits] bits of [x]. *)
Fixpoint popcount (bits : nat) (x : Z) : Z :=
  match bits with
  | O => 0
  | S bits' => x `mod` 2 + popcount bits' (x `div` 2)
  end.

(** Modelled from the spec: [brisk::Hamming::PopcntofXORed] belongs to the
    BRISK library, which is not part of these sources.  The spec gives the
    distance of binary descriptors as "Hamming via byte-wise XOR + popcount";
    the third argument of the call is the number of 128-bit words to compare.
    So: the number of one bits in the XOR of the first [16 * n] bytes of the
    two buffers.  Reading past the end of a buffer is undefined. *)
Definition PopcntofXORed (signature1 signature2 : list Z)
    (numberOf128BitWords : nat) : option Z :=
  foldM (λ result k,
           x ← signature1 !! k;
           y ← signature2 !! k;
           Some (result + popcount 8 (Z.lxor x y)))
        0 (seq 0 (16 * numberOf128BitWords)).

(** [a.front()] is undefined on an empty vector.  The [uint32_t] count is
    converted to [double] exactly; the model keeps the integer. *)
Definition distance (a b : list Z) : option Z :=
  _ ← head a;
  _ ← head b;
  PopcntofXORed a b (L `div` 16)%nat.

(** *** [FBRISK::toString] *)

Definition digit (d : Z) : ascii := ascii_of_N (48 + Z.to_N d).

(** [ss << n] for an [int]: the decimal digits of [n], most significant
    first.  An [int] has at most ten digits. *)
Fixpoint put_digits (fuel : nat) (n : Z) (acc : string) : string :=
  match fuel with
  | O => acc
  | S fuel' =>
      let acc' := String (digit (n `mod` 10)) acc in
      if n <? 10 then acc' else put_digits fuel' (n `div` 10) acc'
  end.

Definition put_int (n : Z) : string :=
  if n <? 0 then String "-" (put_digits 10 (- n) EmptyString)
  else put_digits 10 n EmptyString.

Definition toString (a : list Z) : option string :=
  foldM (λ ss i,
           x ← a !! i;
           Some (String.append ss (String.append (put_int x) " ")))
        EmptyString (seq 0 L).

(** *** [FBRISK::fromString] *)

(** A [std::stringstream] that is read: the characters left, and the state
    bits the extraction depends on. *)
Record istream := Istream {
  buf : string;
  eofbit : bool;
  failbit : bool
}.

Definition code (c : ascii) : Z := Z.of_N (N_of_ascii c).

(** [isspace] in the classic locale: space, and [\t \n \v \f \r]. *)
Definition is_space (c : ascii) : bool :=
  (code c =? 32) || ((9 <=? code c) && (code c <=? 13)).

Definition is_digit (c : ascii) : bool :=
  (48 <=? code c) && (code c <=? 57).

Fixpoint skipws (s : string) : string :=
  match s with
  | String c s' => if is_space c then skipws s' else s
  | EmptyString => s
  end.

(** The digits at the front of [s]: their value ([None] when there is
    none) and what follows them. *)
Fixpoint get_digits (s : string) (acc : option Z) : option Z * string :=
  match s with
  | String c s' =>
      if is_digit c
      then get_digits s' (Some (10 * default 0 acc + (code c - 48)))
      else (acc, s)
  | EmptyString => (acc, s)
  end.

(** [ss >> tmp] for an [int tmp], as the C++ library does it: the sentry
    fails on a stream that is not good, or that holds only white space, and
    then nothing is written; otherwise an optional sign and the digits are
    read, [tmp] is written, and a missing or out-of-range number sets
    [failbit].  The second component is the value written to [tmp], if
    any. *)
Definition extract_int (ss : istream) : istream * option Z :=
  if eofbit ss || failbit ss then (Istream (buf ss) (eofbit ss) true, None)
  else
    match skipws (buf ss) with
    | EmptyString => (Istream EmptyString true true, None)
    | String c s' as s =>
        let '(neg, s1) :=
          if Ascii.eqb c "-" then (true, s')
          else if Ascii.eqb c "+" then (false, s')
          else (false, s) in
        let '(v, s2) := get_digits s1 None in
        let eof := if s2 is EmptyString then true else false in
        match v with
        | None => (Istream s2 eof true, Some 0)
        | Some v =>
            let v := if neg : bool then - v else v in
            if INT_MAX <? v then (Istream s2 eof true, Some INT_MAX)
            else if v <? INT_MIN then (Istream s2 eof true, Some INT_MIN)
            else (Istream s2 eof false, Some v)
        end
    end.

(** [int tmp; ss >> tmp; a[i] = uint8_t(tmp);] where [tmp] is not
    initialised: when the extraction writes nothing, its value is
    indeterminate. *)
Definition fromString_step (st : list Z * istream) (i : nat)
  : option (list Z * istream) :=
  let '(a, ss) := st in
  let '(ss', tmp) := extract_int ss in
  tmp ← tmp;
  a' ← vset a i (uint8_t tmp);
  Some (a', ss').

Definition fromString (a : list Z) (s : string) : option (list Z) :=
  let a := resize L 0 a in
  st ← foldM fromString_step (a, Istream s false false) (seq 0 L);
  Some st.1.

(** *** [FBRISK::toMat32F] *)

(** [*(p+b) = (desc[size_t(j)]&(0x01<<b));] with [p = mat.ptr<float>(i) + j] *)
Definition toMat32F_step (desc : list Z) (i j : nat) (mat : cv.Mat) (b : nat)
  : option cv.Mat :=
  d ← desc !! j;
  cv.write mat i (j + b) (bit_and d b).

Definition toMat32F (descriptors : list (list Z)) (mat : cv.Mat)
  : option cv.Mat :=
  if descriptors is [] then Some cv.release
  else
    let N := length descriptors in
    let mat := cv.create N (L * 8) in
    foldM (λ mat i,
             desc ← descriptors !! i;
             (* for(int j = 0; j < L*8; j+=8, p+=8) *)
             foldM (λ mat j, foldM (toMat32F_step desc i j) mat (seq 0 8))
                   mat ((λ k, k * 8)%nat <$> seq 0 L))
          mat (seq 0 N).

End WithLength.
End FBRISK.

(** ** The training tools: [changeStructure] *)

Module trainBRISK.

(** [std::copy(mat.data + i, mat.data + i + L, out_j.begin())]: the source
    range has to lie in the buffer and the destination has to hold it. *)
Definition copy (src : list Z) (first last : Z) (dst : list Z)
  : option (list Z) :=
  if decide (0 ≤ first ≤ last ∧ last ≤ Z.of_nat (length src)
             ∧ last - first ≤ Z.of_nat (length dst))
  then
    let n := Z.to_nat (last - first) in
    Some (take n (drop (Z.to_nat first) src) ++ drop n dst)
  else None.

(** [size_t(L)] *)
Definition size_t (x : Z) : nat := Z.to_nat (x `mod` 2 ^ 64).

(** The loop of [changeStructure]
    [[
      for(int i = 0; i < mat.rows*mat.cols; i += L, ++j)
      {
        out[j].resize(size_t(L));
        std::copy(mat.data + i, mat.data + i + L, out[j].begin());
      }
    ]]
    Every round indexes [out[j]] with a larger [j], so the loop makes at
    most [length out] rounds before it ends or is undefined: [fuel] is one
    more than that. *)
Fixpoint changeStructure_loop (fuel : nat) (mat : cv.Mat) (L : Z)
    (i : Z) (j : nat) (out : list (list Z)) : option (list (list Z)) :=
  total ← int (Z.of_nat (cv.rows mat) * Z.of_nat (cv.cols mat));
  if i <? total then
    match fuel with
    | O => None
    | S fuel' =>
        out_j ← out !! j;
        let out_j := resize (size_t L) 0 out_j in
        out_j ← copy (cv.data mat) i (i + L) out_j;
        out ← vset out j out_j;
        (* i += L, ++j *)
        i ← int (i + L);
        changeStructure_loop fuel' mat L i (S j) out
    end
  else Some out.

Definition changeStructure (mat : cv.Mat) (out : list (list Z)) (L : Z)
  : option (list (list Z)) :=
  let out := resize (cv.rows mat) [] out in
  changeStructure_loop (S (cv.rows mat)) mat L 0 0%nat out.

(** [changeStructureBRISK], of the BRISK-only variant of the tool; [L] is
    [FBRISK::L]. *)
Definition changeStructureBRISK (L : nat) (plain : cv.Mat)
    (out : list (list Z)) : option (list (list Z)) :=
  let out := resize (cv.rows plain) [] out in
  foldM (λ out i,
           out_i ← out !! i;
           let out_i := resize L 0 out_i in
           (* desc_data = plain.ptr<unsigned char>(i) *)
           out_i ← foldM (λ out_i j,
                            x ← cv.data plain !! (i * cv.step plain + j)%nat;
                            vset out_i j x)
                         out_i (seq 0 L);
           vset out i out_i)
        out (seq 0 (cv.rows plain)).

(** [testVocCreation], with the vocabulary class, which is not among these
    sources, as parameters: [create] for the constructor and [voc.create],
    [transform] and [score] for the methods.  The result is the scores it
    prints, with the two image numbers of each line. *)
Section TestVocCreation.

Variables Vocabulary BowVector Score : Type.
Variable create : Z → Z → list (list (list Z)) → Vocabulary.
Variable transform : Vocabulary → list (list Z) → BowVector.
Variable score : Vocabulary → BowVector → BowVector → Score.

Definition NIMAGES : nat := 4.
Definition TESTIMAGES : nat := 5.

Definition testVocCreation (features : list (list (list Z)))
  : option (list (nat * nat * Score)) :=
  let k := 8 in
  let L := 3 in
  let voc := create k L features in
  foldM (λ lines i,
           features_i ← features !! i;
           let v1 := transform voc features_i in
           foldM (λ lines j,
                    features_j ← features !! j;
                    let v2 := transform voc features_j in
                    Some (lines ++ [(i, j, score voc v1 v2)]))
                 lines (seq 0 NIMAGES))
        [] (seq 0 TESTIMAGES).

End TestVocCreation.

End trainBRISK.

(** ** The fast vocabulary loader *)

Module FastVocabularyLoader.

(** What [load] throws: the [std::string] of its two [throw] statements,
    and the [std::bad_alloc] of an allocation that gets no memory. *)
Inductive exception : Type :=
  | std_string (msg : string)
  | std_bad_alloc.

(** What a call leaves behind: a value, an exception, or undefined
    behaviour. *)
Inductive outcome (A : Type) : Type :=
  | Ok (a : A)
  | Throw (e : exception)
  | Undefined.
Arguments Ok {A} a.
Arguments Throw {A} e.
Arguments Undefined {A}.

(** The memory that [load] asks for: room for [n] entries of [node_data]
    ([reserve], and [resize] past the capacity), the copies of the
    descriptor string that round [count] of the node loop makes, and room
    for [n] pairs of [word_data] ([reserve]).  A load asks each of them at
    most once: the sizes that [resize] asks for grow from call to call. *)
Inductive request : Type :=
  | NodeArray (n : nat)
  | DescriptorString (count : nat)
  | WordArray (n : nat).

(** The records of the file that are read: each dereference of a
    [cv::FileNodeIterator] over the nodes or the words, with the position
    of the iterator in its sequence. *)
Inductive event : Type :=
  | VisitNode (pos : nat)
  | VisitWord (pos : nat).

(** Computations that read the file: they extend the log of the visits and
    end in an outcome. *)
Definition M (A : Type) : Type := list event → list event * outcome A.

Definition ret {A} (a : A) : M A := λ log, (log, Ok a).

Definition bind {A B} (m : M A) (k : A → M B) : M B :=
  λ log,
    match m log with
    | (log', Ok a) => k a log'
    | (log', Throw e) => (log', Throw e)
    | (log', Undefined) => (log', Undefined)
    end.

Definition throw {A} (e : exception) : M A := λ log, (log, Throw e).

Definition undefined {A} : M A := λ log, (log, Undefined).

Definition visit (e : event) : M unit := λ log, (log ++ [e], Ok tt).

#[export] Instance M_bind : MBind M := λ A B k m, bind m k.

(** [for(it = fn.begin(); it != fn.end(); ++it, ++count)] *)
Fixpoint for_each {A St} (body : nat → A → St → M St)
    (it : list A) (count : nat) (s : St) : M St :=
  match it with
  | [] => ret s
  | x :: it' => s' ← body count x s; for_each body it' (S count) s'
  end.

Section Loader.

(** [WordValue] is a [double]; the loader only copies weights. *)
Variable WordValue : Type.
Variable zero : WordValue.

(** What the allocator answers to each request of the run. *)
Variable allocates : request → bool.

(** An allocation: [std::bad_alloc] when the allocator gives no memory. *)
Definition allocate (q : request) : M unit :=
  if allocates q then ret tt else throw std_bad_alloc.

(** The persisted vocabulary, as [cv::FileStorage] presents it: the fields
    are read with [(int)], [(WordValue)] and [(std::string)] casts.  The
    records are those of a file that [cv::FileStorage] parses and whose
    vocabulary, nodes and words are maps, as [save] writes them. *)
Record NodeRecord := mkNodeRecord {
  nodeId : Z;
  parentId : Z;
  weight : WordValue;
  descriptor : string
}.

Record WordRecord := mkWordRecord {
  wordId : Z;
  word_nodeId : Z
}.

Record VocabularyNode := mkVocabularyNode {
  k : Z;
  L : Z;
  scoringType : Z;
  weightingType : Z;
  nodes : list NodeRecord;
  words : list WordRecord
}.

(** A file that opens holds a top-level map, where [fs["vocabulary"]] is a
    node or is empty. *)
Record FileStorage := mkFileStorage {
  vocabulary : option VocabularyNode
}.

(** [struct NodeData]; [NodeId] and [WordId] are [unsigned int]. *)
Record NodeData := mkNodeData {
  id : Z;
  parent : Z;
  nd_weight : WordValue;
  descriptor_str : string
}.

(** What [load] has built when it returns. *)
Record Loaded := mkLoaded {
  node_data : list NodeData;
  word_data : list (Z * Z)
}.

(** [node_data.resize(n)]: new entries are value-initialised.  The vector
    has the capacity that [node_data.reserve(num_nodes + 1)] gave it, or
    more; it asks for memory when [n] is beyond that. *)
Definition vector_resize (num_nodes n : nat) (node_data : list NodeData)
  : M (list NodeData) :=
  _ ← (if decide (n ≤ S num_nodes)%nat then ret tt
       else allocate (NodeArray n));
  ret (resize n (mkNodeData 0 0 zero EmptyString) node_data).

(** The body of the loop over the nodes
    [[
      NodeId nid = (int)( *it)["nodeId"];
      NodeId pid = (int)( *it)["parentId"];
      WordValue weight = (WordValue)( *it)["weight"];
      std::string descriptor = (std::string)( *it)["descriptor"];
      if(nid >= node_data.size()) {
          node_data.resize(nid + 1);
      }
      node_data[nid] = {nid, pid, weight, descriptor};
    ]]
    where [nid + 1] is computed in [unsigned int].  The string is copied
    into [descriptor] and into the entry, which takes memory, before
    [node_data[nid]] is written; [num_nodes] is the number of node records
    of the file. *)
Definition load_node (num_nodes : nat) (count : nat) (it : NodeRecord)
    (node_data : list NodeData) : M (list NodeData) :=
  _ ← visit (VisitNode count);
  let nid := uint32_t (nodeId it) in
  let pid := uint32_t (parentId it) in
  _ ← allocate (DescriptorString count);
  node_data ←
    (if decide (Z.of_nat (length node_data) ≤ nid)
     then vector_resize num_nodes (Z.to_nat (uint32_t (nid + 1))) node_data
     else ret node_data);
  match vset node_data (Z.to_nat nid)
             (mkNodeData nid pid (weight it) (descriptor it)) with
  | Some node_data => ret node_data
  | None => undefined
  end.

(** The body of the loop over the words. *)
Definition load_word (count : nat) (it : WordRecord)
    (word_data : list (Z * Z)) : M (list (Z * Z)) :=
  _ ← visit (VisitWord count);
  let wid := uint32_t (wordId it) in
  let nid := uint32_t (word_nodeId it) in
  ret (word_data ++ [(wid, nid)]).

(** [load]; [disk] gives the files that [cv::FileStorage] can open.  The
    progress output and the timing are left out.  [word_data.reserve(0)]
    asks for no memory, and the [push_back]s stay within the capacity that
    the two [reserve] calls have given. *)
Definition load (disk : string → option FileStorage) (filename : string)
  : M Loaded :=
  match disk filename with
  | None => throw (std_string (String.append "Could not open file " filename))
  | Some fs =>
      match vocabulary fs with
      | None => throw (std_string "File does not contain 'vocabulary' node")
      | Some fvoc =>
          let num_nodes := length (nodes fvoc) in
          (* node_data.reserve(num_nodes + 1) *)
          _ ← allocate (NodeArray (S num_nodes));
          (* Root node *)
          let node_data := [mkNodeData 0 0 zero EmptyString] in
          node_data ← for_each (load_node num_nodes) (nodes fvoc) 0%nat
                               node_data;
          let num_words := length (words fvoc) in
          (* word_data.reserve(num_words) *)
          _ ← (if decide (num_words = 0)%nat then ret tt
               else allocate (WordArray num_words));
          word_data ← for_each load_word (words fvoc) 0%nat [];
          ret (mkLoaded node_data word_data)
      end
  end.

(** [main] of the fast loader: its exit code.  [argv] holds the program name
    and the arguments ([argc] is its length); the messages on [std::cout]
    and [std::cerr] are left out.  The two [catch] clauses, for
    [std::exception], which [std::bad_alloc] is, and for [std::string],
    turn an exception of [load] into exit code 4. *)
Definition main (disk : string → option FileStorage) (argv : list string)
  : M Z :=
  match argv with
  | _ :: vocab_file :: _ =>
      (* Quick pre-check *)
      match disk vocab_file with
      | None => ret 2
      | Some fs =>
          match vocabulary fs with
          | None => ret 3
          | Some fvoc =>
              λ log,
                match load disk vocab_file log with
                | (log', Ok _) => (log', Ok 0)
                | (log', Throw std_bad_alloc) => (log', Ok 4)
                | (log', Throw (std_string _)) => (log', Ok 4)
                | (log', Undefined) => (log', Undefined)
                end
          end
      end
  | _ => ret 1
  end.

End Loader.
End FastVocabularyLoader.

(** ** The vocabulary tree and its persistence *)

(** The vocabulary class ([TemplatedVocabulary]) is not among the sources:
    the tools only call its [create], [save], [transform] and its loading
    constructor.  This module models it from the spec. *)
Module TemplatedVocabulary.

(** Modelled from the spec: the Descriptor Trait of the vocabulary, which is
    not among the sources.  "Abstracts a descriptor type with [mean_of(set)],
    [distance(a,b)], and string round-trip"; "[to_string(D)] /
    [from_string(s)]: lossless round-trip for persistence".  [R] is the type
    of distances ([f64]), with its order; [unset] is the descriptor of a
    node that has none yet. *)
Class Descriptor (D R : Type) := {
  mean_of : list D → D;
  distance : D → D → R;
  less : R → R → bool;
  to_string : D → string;
  from_string : string → D;
  unset : D;
  from_to_string : ∀ d, from_string (to_string d) = d
}.

(** Modelled from the spec: the configuration of a vocabulary,
    "[weighting ∈ {TF_IDF, TF, IDF, BINARY}]" and "[scoring ∈ {L1, L2,
    CHI_SQUARE, KL, BHATTACHARYYA, DOT_PRODUCT}]". *)
Inductive WeightingType := TF_IDF | TF | IDF | BINARY.
Inductive ScoringType :=
  L1 | L2 | CHI_SQUARE | KL | BHATTACHARYYA | DOT_PRODUCT.

Section Vocabulary.
Context {D R : Type} `{!Descriptor D R}.

(** Leaf weights are [f64]s. *)
Variable W : Type.
Variable zero : W.

(** Modelled from the spec: "A tree node has: a unique [NodeId] (0 = root);
    a [parent]; [children] (ordered list of NodeIds, empty at leaves); a
    representative [descriptor]; a [weight] (valid only at leaves; 0 at
    inner nodes); and a [word_id] (valid only at leaves)". *)
Record Node := mkNode {
  id : nat;
  parent : nat;
  children : list nat;
  descriptor : D;
  weight : W;
  word_id : nat
}.

(** Modelled from the spec: a vocabulary has its configuration, its nodes
    "in a flat array indexed by [NodeId]", and its words, "a dense [WordId]"
    addressing each leaf: [words] maps a word id to the id of its node. *)
Record Vocabulary := mkVocabulary {
  k : nat;
  L : nat;
  weighting : WeightingType;
  scoring : ScoringType;
  nodes : list Node;
  words : list nat
}.

Definition new_node (i p : nat) (d : D) : Node := mkNode i p [] d zero 0.

Definition add_child_id (c : nat) (n : Node) : Node :=
  mkNode (id n) (parent n) (children n ++ [c]) (descriptor n) (weight n)
         (word_id n).

Definition set_descriptor (d : D) (n : Node) : Node :=
  mkNode (id n) (parent n) (children n) d (weight n) (word_id n).

Definition set_weight (w : W) (n : Node) : Node :=
  mkNode (id n) (parent n) (children n) (descriptor n) w (word_id n).

Definition set_word_id (w : nat) (n : Node) : Node :=
  mkNode (id n) (parent n) (children n) (descriptor n) (weight n) w.

(** Modelled from the spec: "create a child node whose descriptor is the
    final center": the child takes the next free id, at the end of the node
    array, and is appended to the children of its parent. *)
Definition add_child (p : nat) (d : D) (nodes : list Node) : list Node :=
  let c := length nodes in
  alter (add_child_id c) p nodes ++ [new_node c p d].

(** The k-means of the spec with its seed: from the descriptors of a node
    to its non-empty clusters, each with its final center.  The leaf weights
    ([ln(N / n_i)] or 1) by word id. *)
Variable kmeans : list D → list (D * list D).
Variable leaf_weight : nat → W.

(** Modelled from the spec: the recursion of [create], "At each recursion:
    if [depth == L], mark leaf, set descriptor = mean_of(descriptors),
    return.  If [|descriptors| ≤ k], create one leaf per descriptor.
    Otherwise run initialized k-means ...  For each non-empty cluster,
    create a child node whose descriptor is the final center; recurse with
    that cluster's descriptors and [depth+1]".  [levels] is [L - depth]. *)
Fixpoint cluster (k levels : nat) (node : nat) (descriptors : list D)
    (nodes : list Node) : list Node :=
  match levels with
  | O => alter (set_descriptor (mean_of descriptors)) node nodes
  | S levels' =>
      if decide (length descriptors ≤ k)%nat
      then foldl (λ nodes d, add_child node d nodes) nodes descriptors
      else foldl (λ nodes cl,
                    let child := length nodes in
                    cluster k levels' child cl.2 (add_child node cl.1 nodes))
                 nodes (kmeans descriptors)
  end.

(** The leaves below the root, by ascending id: the ids are given in the
    order of the recursion, so this is the order in which a traversal of
    the tree meets the leaves. *)
Definition is_leaf (nodes : list Node) (i : nat) : bool :=
  match nodes !! i with
  | Some n => bool_decide (children n = [])
  | None => false
  end.

Definition leaves (nodes : list Node) : list nat :=
  filter (is_leaf nodes) (seq 1 (length nodes - 1)).

Definition set_weights (ws : list nat) (nodes : list Node) : list Node :=
  foldl (λ nodes wi, alter (set_weight (leaf_weight wi.1)) wi.2 nodes)
        nodes (imap pair ws).

Definition set_word_ids (ws : list nat) (nodes : list Node) : list Node :=
  foldl (λ nodes wi, alter (set_word_id wi.1) wi.2 nodes)
        nodes (imap pair ws).

(** Modelled from the spec: [create(training_features)], "All descriptors
    are flattened into a single pool"; "Allocate root node.  Recursive
    cluster at (node = root, depth = 0, descriptors = all)"; "After recursion
    returns from the root, perform a ... deterministic traversal to: (a)
    assign dense [WordId]s to leaves in traversal order, and (b) compute
    leaf weights"; it "fails if [training_features] is empty or
    all-empty" ([None]). *)
Definition create (k L : nat) (weighting : WeightingType)
    (scoring : ScoringType) (training_features : list (list D))
  : option Vocabulary :=
  let pool := concat training_features in
  if pool is [] then None
  else
    let nodes := cluster k L 0 pool [new_node 0 0 unset] in
    let ws := leaves nodes in
    let nodes := set_weights ws nodes in
    let nodes := set_word_ids ws nodes in
    Some (mkVocabulary k L weighting scoring nodes ws).

(** Modelled from the spec: the persisted state, "Vocabulary record: [{k, L,
    scoring_id, weighting_id, nodes: [{node_id, parent_id, weight,
    descriptor_string}], words: [{word_id, node_id}]}]". *)
Record NodeRecord := mkNodeRecord {
  node_id : nat;
  parent_id : nat;
  r_weight : W;
  descriptor_string : string
}.

Record VocabularyRecord := mkVocabularyRecord {
  r_k : nat;
  r_L : nat;
  scoring_id : ScoringType;
  weighting_id : WeightingType;
  r_nodes : list NodeRecord;
  r_words : list (nat * nat)
}.

(** Modelled from the spec: [save], "vocabulary serializes its parameters,
    the node array (id, parent, weight, descriptor string), and the
    word-id↔node-id map", preserving "node order and ids exactly".  The root
    is the node that the loader makes itself: the records are those of the
    nodes below it. *)
Definition record_of (n : Node) : NodeRecord :=
  mkNodeRecord (id n) (parent n) (weight n) (to_string (descriptor n)).

Definition save (V : Vocabulary) : VocabularyRecord :=
  mkVocabularyRecord (k V) (L V) (scoring V) (weighting V)
    (record_of <$> drop 1 (nodes V))
    (imap pair (words V)).

(** A write to a node of the array; a node id out of range is malformed
    data ([SerializationError]). *)
Definition update (i : nat) (f : Node → Node) (nodes : list Node)
  : option (list Node) :=
  _ ← nodes !! i; Some (alter f i nodes).

Definition load_record (nodes : list Node) (r : NodeRecord)
  : option (list Node) :=
  nodes ← update (node_id r)
                 (λ n, mkNode (node_id r) (parent_id r) (children n)
                              (from_string (descriptor_string r))
                              (r_weight r) (word_id n))
                 nodes;
  update (parent_id r) (add_child_id (node_id r)) nodes.

Definition load_word (st : list Node * list nat) (wi : nat * nat)
  : option (list Node * list nat) :=
  nodes ← update wi.2 (set_word_id wi.1) st.1;
  words ← vset st.2 wi.1 wi.2;
  Some (nodes, words).

(** Modelled from the spec: [load], which has to rebuild the vocabulary so
    that "re-loading reproduces identical [transform] outputs": the node
    array with the root and a node for each record, at the index of its id;
    the children of a node, which are not persisted, in the order of the
    records; the words and the word ids of their nodes.  [None] is
    "[SerializationError]: malformed ... persisted data". *)
Definition load (r : VocabularyRecord) : option Vocabulary :=
  let nodes := (λ i, new_node 0 0 unset) <$> seq 0 (S (length (r_nodes r))) in
  nodes ← foldM load_record nodes (r_nodes r);
  let words := replicate (length (r_words r)) 0%nat in
  st ← foldM load_word (nodes, words) (r_words r);
  Some (mkVocabulary (r_k r) (r_L r) (weighting_id r) (scoring_id r)
                     st.1 st.2).

(** Modelled from the spec: the choice of a child in [transform_one], "choose
    the child whose [descriptor] minimizes [Descriptor.distance] to [desc]
    (ties: lowest child index)". *)
Definition nearer (nodes : list Node) (desc : D) (best : option (nat * R))
    (c : nat) : option (nat * R) :=
  match nodes !! c with
  | None => best
  | Some n =>
      let d := distance desc (descriptor n) in
      match best with
      | None => Some (c, d)
      | Some (b, bd) => if less d bd then Some (c, d) else best
      end
  end.

(** Modelled from the spec: [transform_one], "Starting at the root, at each
    node choose the child ...  Descend until a leaf.  Return the leaf's
    [WordId], its [weight]".  A path visits each node at most once: [fuel]
    is the number of nodes. *)
Fixpoint descend (fuel : nat) (nodes : list Node) (desc : D) (i : nat)
  : option (nat * W) :=
  n ← nodes !! i;
  if children n is [] then Some (word_id n, weight n)
  else
    match fuel with
    | O => None
    | S fuel' =>
        best ← foldl (nearer nodes desc) None (children n);
        descend fuel' nodes desc best.1
    end.

Definition transform_one (V : Vocabulary) (desc : D) : option (nat * W) :=
  descend (length (nodes V)) (nodes V) desc 0.

(** *** The shape of the node array of a tree *)

(** The nodes among the first [j] after the root whose parent is [i], by
    ascending id. *)
Definition kids (nodes : list Node) (i j : nat) : list nat :=
  filter (λ c, parent <$> nodes !! c = Some i) (seq 1 j).

(** The node array of a tree, before the word ids are assigned: the root
    is as it was allocated but for its children; a node is at the index of
    its id, after its parent, and its children are the nodes that name it as
    their parent, by ascending id. *)
Record tree (nodes : list Node) : Prop := mkTree {
  tree_root : ∃ cs, nodes !! 0%nat = Some (mkNode 0 0 cs unset zero 0);
  tree_id : ∀ i n, nodes !! i = Some n → id n = i;
  tree_parent : ∀ i n, nodes !! i = Some n → (0 < i)%nat → (parent n < i)%nat;
  tree_children :
    ∀ i n, nodes !! i = Some n → children n = kids nodes i (length nodes - 1);
  tree_word_id : ∀ i n, nodes !! i = Some n → word_id n = 0%nat
}.

(** The children of a node come after it in the array. *)
Definition children_after (nodes : list Node) : Prop :=
  ∀ i n c, nodes !! i = Some n → c ∈ children n →
           (i < c < length nodes)%nat.

(** The node array that [load] has built after [j] records of the array
    [nodes]. *)
Definition loaded_prefix (nodes : list Node) (j : nat) : list Node :=
  imap (λ i n,
          if decide (i ≤ j)%nat
          then mkNode (id n) (parent n) (kids nodes i j) (descriptor n)
                      (weight n) 0
          else mkNode 0 0 (kids nodes i j) unset zero 0)
       nodes.

End Vocabulary.
End TemplatedVocabulary.

(** ** The notions the properties are stated with *)

(** Bit [b] of byte [i] of a descriptor. *)
Definition bit_of (d : list Z) (i b : nat) : bool :=
  match d !! i with
  | Some x => Z.testbit x (Z.of_nat b)
  | None => false
  end.

(** The number of descriptors that have bit [b] of byte [i] set. *)
Definition votes (ds : list (list Z)) (i b : nat) : nat :=
  length (filter (λ d, bit_of d i b = true) ds).

(** The bits that the averaging loop sets in one byte. *)
Definition over (sum : list Z) (s : Z) (k : nat) : bool :=
  match sum !! k with
  | Some c => s <? c
  | None => false
  end.

Definition set_bits (sum : list Z) (s : Z) (i : nat) (bs : list nat) (m : Z)
  : Z :=
  foldl (λ m b,
           if over sum s (i * 8 + b)
           then uint8_t (Z.lor m (Z.shiftl 1 (Z.of_nat b))) else m)
        m bs.

(** The number of bits in which byte [i] of [a] and of [b] differ, and the
    Hamming distance of two descriptors of [L] bytes: the number of bit
    positions, over all the bytes, in which they differ. *)
Definition byte_diff (a b : list Z) (i : nat) : nat :=
  length (filter (λ bit, bit_of a i bit ≠ bit_of b i bit) (seq 0 8)).

Definition hamming (L : nat) (a b : list Z) : nat :=
  sum_list (byte_diff a b <$> seq 0 L).

(** The string form of a descriptor: its bytes in decimal, each followed by
    a space. *)
Definition decimal_bytes (a : list Z) : string :=
  foldr (λ x s, String.append (FBRISK.put_int x) (String " " s)) EmptyString a.

(** The eight values that [toMat32F] stores from the byte [x]: [x] masked
    with each bit in turn. *)
Definition byte_bits (x : Z) : list Z := bit_and x <$> seq 0 8.

(** The row that [toMat32F] makes of a descriptor: the masks of its
    elements 0, 8, 16, ... *)
Definition bits_row (L : nat) (desc : list Z) : list Z :=
  concat ((λ k, byte_bits (default 0 (desc !! (k * 8)%nat))) <$> seq 0 L).

(** The lines that [testVocCreation] prints: image [i] of the first
    [TESTIMAGES] against image [j] of the first [NIMAGES]. *)
Definition score_lines {Vocabulary BowVector Score : Type}
    (create : Z → Z → list (list (list Z)) → Vocabulary)
    (transform : Vocabulary → list (list Z) → BowVector)
    (score : Vocabulary → BowVector → BowVector → Score)
    (features : list (list (list Z))) : list (nat * nat * Score) :=
  let voc := create 8 3 features in
  i ← seq 0 trainBRISK.TESTIMAGES;
  j ← seq 0 trainBRISK.NIMAGES;
  [(i, j, score voc (transform voc (default [] (features !! i)))
                    (transform voc (default [] (features !! j))))].

(** The values of an [int]. *)
Definition is_int (x : Z) : Prop := INT_MIN ≤ x ≤ INT_MAX.

(** The [j]-th run of [L] consecutive elements of a buffer. *)
Definition chunk (buffer : list Z) (L j : nat) : list Z :=
  take L (drop (j * L) buffer).

(** The entry that the loader makes of a persisted node record, and the
    pair it makes of a persisted word record. *)
Definition entry_of {WordValue : Type}
    (r : FastVocabularyLoader.NodeRecord WordValue)
  : FastVocabularyLoader.NodeData WordValue :=
  FastVocabularyLoader.mkNodeData WordValue
    (uint32_t (FastVocabularyLoader.nodeId _ r))
    (uint32_t (FastVocabularyLoader.parentId _ r))
    (FastVocabularyLoader.weight _ r)
    (FastVocabularyLoader.descriptor _ r).

Definition pair_of (w : FastVocabularyLoader.WordRecord) : Z * Z :=
  (uint32_t (FastVocabularyLoader.wordId w),
   uint32_t (FastVocabularyLoader.word_nodeId w)).

(** The node array after one more record, when the index is in range. *)
Definition store {WordValue : Type} (zero : WordValue)
    (node_data : list (FastVocabularyLoader.NodeData WordValue))
    (r : FastVocabularyLoader.NodeRecord WordValue)
  : list (FastVocabularyLoader.NodeData WordValue) :=
  let n := Z.to_nat (FastVocabularyLoader.nodeId _ r) in
  <[n := entry_of r]>
    (if decide (length node_data ≤ n)%nat
     then resize (S n) (FastVocabularyLoader.mkNodeData _ 0 0 zero EmptyString)
                 node_data
     else node_data).

(** The bytes of two descriptors combined with [&]. *)
Definition and_bytes (a b : list Z) : list Z := zip_with Z.land a b.

(** The first [L] elements of row [i] of a matrix. *)
Definition row_prefix (m : cv.Mat) (L i : nat) : list Z :=
  take L (drop (i * cv.step m) (cv.data m)).

(** The entry that the loader fills the node array with, and the largest
    node id of a list of records. *)
Definition blank_entry {WordValue : Type} (zero : WordValue)
  : FastVocabularyLoader.NodeData WordValue :=
  FastVocabularyLoader.mkNodeData WordValue 0 0 zero EmptyString.

Definition max_node_id {WordValue : Type}
    (rs : list (FastVocabularyLoader.NodeRecord WordValue)) : nat :=
  max_list ((λ r, Z.to_nat (FastVocabularyLoader.nodeId _ r)) <$> rs).

(** ** Sample inputs *)

Definition three_descriptors : list (list Z) := [[1; 255]; [3; 0]; [2; 128]].

Definition two_nodes : list (FastVocabularyLoader.NodeRecord Z) :=
  [FastVocabularyLoader.mkNodeRecord Z 2 0 0 "7 ";
   FastVocabularyLoader.mkNodeRecord Z 1 0 5 "9 "].

Definition small_file : FastVocabularyLoader.FileStorage Z :=
  FastVocabularyLoader.mkFileStorage Z
    (Some (FastVocabularyLoader.mkVocabularyNode Z 2 1 0 0 two_nodes
             [FastVocabularyLoader.mkWordRecord 0 2;
              FastVocabularyLoader.mkWordRecord 1 1])).

Definition small_disk (filename : string)
  : option (FastVocabularyLoader.FileStorage Z) :=
  if String.eqb filename "voc.yml" then Some small_file
  else if String.eqb filename "empty.yml"
       then Some (FastVocabularyLoader.mkFileStorage Z None)
       else None.

(** Descriptors of two bits, with the Hamming distance, the majority vote
    and their two binary digits as string form; a k-means that splits on
    the first bit. *)
Definition bits2 : Type := bool * bool.

Definition majority (l : list bool) : bool :=
  (length l <? 2 * length (filter (λ b, b = true) l))%nat.

Definition bits2_string (d : bits2) : string :=
  String (if d.1 then "1" else "0")%char
         (String (if d.2 then "1" else "0")%char " ").

Definition bits2_of_string (s : string) : bits2 :=
  match s with
  | String c1 (String c2 _) => (Ascii.eqb c1 "1", Ascii.eqb c2 "1")
  | _ => (false, false)
  end.

Definition bits2_round_trip (d : bits2)
  : bits2_of_string (bits2_string d) = d :=
  match d with
  | (true, true) => eq_refl
  | (true, false) => eq_refl
  | (false, true) => eq_refl
  | (false, false) => eq_refl
  end.

#[export] Instance bits2_descriptor : TemplatedVocabulary.Descriptor bits2 nat := {|
  TemplatedVocabulary.mean_of l := (majority (fst <$> l), majority (snd <$> l));
  TemplatedVocabulary.distance a b :=
    ((if xorb a.1 b.1 then 1 else 0) + (if xorb a.2 b.2 then 1 else 0))%nat;
  TemplatedVocabulary.less := Nat.ltb;
  TemplatedVocabulary.to_string := bits2_string;
  TemplatedVocabulary.from_string := bits2_of_string;
  TemplatedVocabulary.unset := (false, false);
  TemplatedVocabulary.from_to_string := bits2_round_trip
|}.

Definition split_first_bit (l : list bits2) : list (bits2 * list bits2) :=
  filter (λ cl, cl.2 ≠ [])
    [((false, false), filter (λ d, d.1 = false) l);
     ((true, true), filter (λ d, d.1 = true) l)].

Definition two_images : list (list bits2) :=
  [[(false, false); (false, true); (true, false)];
   [(true, true); (false, true)]].

Definition two_images_vocabulary : TemplatedVocabulary.Vocabulary Z :=
  TemplatedVocabulary.mkVocabulary Z 2 2
    TemplatedVocabulary.TF_IDF TemplatedVocabulary.L1
    [TemplatedVocabulary.mkNode Z 0 0 [1; 3]%nat (false, false) 0 0;
     TemplatedVocabulary.mkNode Z 1 0 [2]%nat (false, false) 0 0;
     TemplatedVocabulary.mkNode Z 2 1 [] (false, true) 0 0;
     TemplatedVocabulary.mkNode Z 3 0 [4; 5]%nat (true, true) 0 0;
     TemplatedVocabulary.mkNode Z 4 3 [] (true, false) 1 1;
     TemplatedVocabulary.mkNode Z 5 3 [] (true, true) 2 2]
    [2; 4; 5]%nat.

(** An allocator that never refuses, and one with room for 64 entries of
    the node array. *)
Definition plenty (q : FastVocabularyLoader.request) : bool := true.

Definition room_for_64 (q : FastVocabularyLoader.request) : bool :=
  match q with
  | FastVocabularyLoader.NodeArray n => (n <=? 64)%nat
  | _ => true
  end.

(** A file with one node record, of id 1000. *)
Definition far_node : list (FastVocabularyLoader.NodeRecord Z) :=
  [FastVocabularyLoader.mkNodeRecord Z 1000 0 0 "7 "].

Definition ordered_nodes : list (FastVocabularyLoader.NodeRecord Z) :=
  [FastVocabularyLoader.mkNodeRecord Z 1 0 0 "7 ";
   FastVocabularyLoader.mkNodeRecord Z 2 0 5 "9 "].

Definition sparse_nodes : list (FastVocabularyLoader.NodeRecord Z) :=
  [FastVocabularyLoader.mkNodeRecord Z 4 0 0 "7 ";
   FastVocabularyLoader.mkNodeRecord Z 2 4 5 "9 "].

Definition disk_of (rs : list (FastVocabularyLoader.NodeRecord Z))
    (filename : string) : option (FastVocabularyLoader.FileStorage Z) :=
  Some (FastVocabularyLoader.mkFileStorage Z
          (Some (FastVocabularyLoader.mkVocabularyNode Z 2 1 0 0 rs []))).

(** A matrix of two rows of three columns in a buffer with rows of four
    elements, and a matrix of two rows of four columns. *)
Definition mat_2x3_step4 : cv.Mat := cv.mkMat 2 3 4 [1; 2; 3; 0; 4; 5; 6; 0].
Definition mat_2x4 : cv.Mat := cv.mkMat 2 4 4 [1; 2; 3; 4; 5; 6; 7; 8].

(** A descriptor of nine bytes. *)
Definition nine_bytes : list Z := [1; 2; 3; 4; 5; 6; 7; 8; 9].

(** Numbers that are no bytes. *)
Definition three_ints : list Z := [-1; 256; 300].

(** Two descriptors of 20 bytes that differ in the last byte only. *)
Definition twenty_a : list Z := replicate 20 1.
Definition twenty_b : list Z := replicate 19 1 ++ [254].

Definition brisk_c : list Z := Z.of_nat <$> seq 200 48.

Definition five_images : list (list (list Z)) :=
  [[[1]]; [[2]]; [[3]]; [[4]]; [[5]]].

Definition mat_2x3 : cv.Mat := cv.mkMat 2 3 3 [1; 2; 3; 4; 5; 6].

Definition brisk_a : list Z := Z.of_nat <$> seq 0 48.
Definition brisk_b : list Z := Z.of_nat <$> seq 100 48.

(** * Properties *)

(** ** The definitions at work *)

Example meanValue_3 :
  FBRISK.meanValue 2 three_descriptors [7; 7; 7] = Some [3; 128].
Proof. reflexivity. Qed.

Example meanValue_tie :
  FBRISK.meanValue 2 [[1; 255]; [3; 0]] [] = Some [1; 0].
Proof. reflexivity. Qed.

Example meanValue_short :
  FBRISK.meanValue 2 [[1; 255]; [3]] [] = None.
Proof. reflexivity. Qed.

Example toString_3 : FBRISK.toString 3 [0; 17; 255] = Some "0 17 255 "%string.
Proof. reflexivity. Qed.

Example fromString_3 :
  FBRISK.fromString 3 [9] "0 17 255 " = Some [0; 17; 255].
Proof. reflexivity. Qed.

Example fromString_wraps :
  FBRISK.fromString 3 [] " -1   256 +7" = Some [255; 0; 7].
Proof. reflexivity. Qed.

Example fromString_short : FBRISK.fromString 3 [] "1 2 " = None.
Proof. reflexivity. Qed.

Example distance_16 :
  FBRISK.distance 16 (255 :: replicate 15 0) (replicate 15 0 ++ [3]) = Some 10.
Proof. reflexivity. Qed.

Example toMat32F_empty : FBRISK.toMat32F 48 [] (cv.create 3 3) = Some cv.release.
Proof. reflexivity. Qed.

Example toMat32F_1 :
  FBRISK.toMat32F 1 [[5]; [130]] cv.release
  = Some (cv.mkMat 2 8 8 [1; 0; 4; 0; 0; 0; 0; 0; 0; 2; 0; 0; 0; 0; 0; 128]).
Proof. reflexivity. Qed.

Example toMat32F_2 : FBRISK.toMat32F 2 [[5; 130]] cv.release = None.
Proof. reflexivity. Qed.

(** On a buffer that is long enough, the second block of columns holds the
    bits of byte 8, not those of byte 1. *)
Example toMat32F_column_offset :
  FBRISK.toMat32F 2 [[1; 255; 0; 0; 0; 0; 0; 0; 6]] cv.release
  = Some (cv.mkMat 1 16 16 [1; 0; 0; 0; 0; 0; 0; 0; 0; 2; 4; 0; 0; 0; 0; 0]).
Proof. reflexivity. Qed.

Example changeStructure_2x3 :
  trainBRISK.changeStructure (cv.mkMat 2 3 3 [1; 2; 3; 4; 5; 6]) [[9]] 3
  = Some [[1; 2; 3]; [4; 5; 6]].
Proof. reflexivity. Qed.

Example changeStructure_wide :
  trainBRISK.changeStructure (cv.mkMat 2 4 4 [1; 2; 3; 4; 5; 6; 7; 8]) [] 3
  = None.
Proof. reflexivity. Qed.

Example changeStructureBRISK_2x3 :
  trainBRISK.changeStructureBRISK 3 (cv.mkMat 2 3 3 [1; 2; 3; 4; 5; 6]) [[9]]
  = Some [[1; 2; 3]; [4; 5; 6]].
Proof. reflexivity. Qed.

(** * Loops *)

Section FoldM.
Context {A S : Type}.
Implicit Types (body : S → A → option S) (s : S) (l : list A).

Lemma foldM_cons body s x l :
  foldM body s (x :: l) = body s x ≫= λ s', foldM body s' l.
Proof. done. Qed.

Lemma foldM_app body s l1 l2 :
  foldM body s (l1 ++ l2) = foldM body s l1 ≫= λ s', foldM body s' l2.
Proof.
  revert s. induction l1 as [|x l1 IH]; intros s; simpl; [done|].
  destruct (body s x) as [s'|]; simpl; [apply IH | done].
Qed.

Lemma foldM_ext body1 body2 s l :
  (∀ s x, x ∈ l → body1 s x = body2 s x) →
  foldM body1 s l = foldM body2 s l.
Proof.
  revert s. induction l as [|x l IH]; intros s Hext; simpl; [done|].
  rewrite Hext by left.
  destruct (body2 s x); simpl; [|done].
  apply IH. intros ???. apply Hext. by right.
Qed.

Lemma foldM_fmap {B} (g : B → A) body s (l : list B) :
  foldM body s (g <$> l) = foldM (λ s x, body s (g x)) s l.
Proof.
  revert s. induction l as [|x l IH]; intros s; simpl; [done|].
  destruct (body s (g x)); simpl; [apply IH | done].
Qed.

(** A loop that keeps an invariant ends, and the invariant holds then. *)
Lemma foldM_invariant (I : S → Prop) body s l :
  I s →
  (∀ s x, x ∈ l → I s → ∃ s', body s x = Some s' ∧ I s') →
  ∃ s', foldM body s l = Some s' ∧ I s'.
Proof.
  revert s. induction l as [|x l IH]; intros s Hs Hstep; simpl; [by eauto|].
  destruct (Hstep s x) as (s' & -> & Hs'); [by left | done |]. simpl.
  apply IH; [done|]. intros ????. apply Hstep; [by right | done].
Qed.

End FoldM.

(** Two nested counting loops, the inner one of 8 rounds, are one loop
    over the flat index. *)
Lemma foldM_nested_8 {St : Type} (body : St → nat * nat → option St) s n :
  foldM (λ s i, foldM (λ s b, body s (i, b)) s (seq 0 8)) s (seq 0 n)
  = foldM (λ s k, body s (k `div` 8, k `mod` 8)%nat) s (seq 0 (n * 8)).
Proof.
  revert s. induction n as [|n IH]; intros s; [done|].
  rewrite (seq_S n 0), foldM_app, IH. simpl Nat.add.
  replace (S n * 8)%nat with (n * 8 + 8)%nat by lia.
  rewrite seq_app, foldM_app.
  destruct (foldM _ s (seq 0 (n * 8))) as [s'|]; [|done].
  change (foldM (λ s b, body s (n, b)) s' (seq 0 8) ≫= Some
          = foldM (λ s k, body s (k `div` 8, k `mod` 8)%nat) s'
                  (seq (0 + n * 8) 8)).
  rewrite (Nat.add_comm 0 (n * 8)).
  rewrite <-fmap_add_seq, foldM_fmap.
  transitivity (foldM (λ s b, body s (n, b)) s' (seq 0 8)).
  { by destruct (foldM _ s' (seq 0 8)). }
  apply foldM_ext. intros t b Hb.
  apply elem_of_seq in Hb. do 2 f_equal.
  - rewrite Nat.add_comm, Nat.div_add by lia. by rewrite Nat.div_small by lia.
  - rewrite Nat.add_comm, Nat.Div0.mod_add. by rewrite Nat.mod_small by lia.
Qed.

(** A loop whose round [k] rewrites cell [k] alone. *)
Lemma foldM_pointwise {A : Type} (h : nat → A → A)
    (body : list A → nat → option (list A)) (ks : list nat) (s : list A) :
  (∀ k s c, k ∈ ks → s !! k = Some c → body s k = Some (<[k := h k c]> s)) →
  NoDup ks →
  (∀ k, k ∈ ks → (k < length s)%nat) →
  ∃ s', foldM body s ks = Some s' ∧ length s' = length s ∧
    (∀ k c, k ∈ ks → s !! k = Some c → s' !! k = Some (h k c)) ∧
    (∀ j, j ∉ ks → s' !! j = s !! j).
Proof.
  revert s. induction ks as [|k ks IH]; intros s Hbody Hnd Hlen; simpl.
  { exists s. split_and!; try done. intros k c Hk. by apply elem_of_nil in Hk. }
  apply list.NoDup_cons in Hnd as [Hk Hnd].
  destruct (lookup_lt_is_Some_2 s k) as [c Hc]; [apply Hlen; by left|].
  rewrite (Hbody k s c) by (done || by left). simpl.
  destruct (IH (<[k := h k c]> s)) as (s' & -> & Hl & Hin & Hout); [| done | |].
  { intros ?????. apply Hbody; [by right | done]. }
  { intros k' Hk'. rewrite length_insert. apply Hlen. by right. }
  exists s'. rewrite length_insert in Hl. split_and!; [done | done | |].
  - intros k' c' Hk' Hc'. apply elem_of_cons in Hk' as [->|Hk'].
    + rewrite Hout by done. rewrite list_lookup_insert_eq; [congruence|].
      by eapply lookup_lt_Some.
    + apply Hin; [done|]. rewrite list_lookup_insert_ne; [done|].
      intros ->. done.
  - intros j Hj. apply not_elem_of_cons in Hj as [Hjk Hj].
    rewrite Hout by done. by rewrite list_lookup_insert_ne.
Qed.

(** * Bits *)

Lemma bit_and_spec d b :
  bit_and d b = if Z.testbit d (Z.of_nat b) then 2 ^ Z.of_nat b else 0.
Proof.
  unfold bit_and. rewrite Z.shiftl_1_l. apply Z.bits_inj'. intros n Hn.
  rewrite Z.land_spec, Z.pow2_bits_eqb by lia.
  destruct (Z.eqb_spec (Z.of_nat b) n) as [<-|Hne].
  - destruct (Z.testbit d (Z.of_nat b)); simpl.
    + by rewrite Z.pow2_bits_eqb, Z.eqb_refl by lia.
    + by rewrite Z.bits_0.
  - rewrite andb_false_r. destruct (Z.testbit d (Z.of_nat b)).
    + rewrite Z.pow2_bits_eqb by lia. symmetry. by apply Z.eqb_neq.
    + by rewrite Z.bits_0.
Qed.

Lemma bit_and_nonzero d b :
  (if bit_and d b =? 0 then 0 else 1) = Z.b2z (Z.testbit d (Z.of_nat b)).
Proof.
  rewrite bit_and_spec. destruct (Z.testbit d (Z.of_nat b)); simpl; [|done].
  assert (0 < 2 ^ Z.of_nat b) by (apply Z.pow_pos_nonneg; lia).
  destruct (Z.eqb_spec (2 ^ Z.of_nat b) 0); [lia | done].
Qed.

Lemma testbit_set_bit m b b' :
  (b < 8)%nat → (b' < 8)%nat →
  Z.testbit (uint8_t (Z.lor m (Z.shiftl 1 (Z.of_nat b)))) (Z.of_nat b')
  = Z.testbit m (Z.of_nat b') || bool_decide (b = b').
Proof.
  intros Hb Hb'. unfold uint8_t.
  rewrite Z.mod_pow2_bits_low, Z.lor_spec, Z.shiftl_1_l by lia.
  rewrite Z.pow2_bits_eqb by lia. f_equal.
  case_bool_decide; [apply Z.eqb_eq | apply Z.eqb_neq]; lia.
Qed.

(** * [FBRISK::meanValue] *)

Section MeanValue.
Variable L : nat.

(** The pass over one descriptor adds its bits to the counters. *)
Lemma sum_pass (desc sum : list Z) :
  (L ≤ length desc)%nat → length sum = (L * 8)%nat →
  ∃ sum',
    foldM (λ sum i,
             foldM (λ sum b, FBRISK.sum_step desc sum (i, b)) sum (seq 0 8))
          sum (seq 0 L) = Some sum'
    ∧ length sum' = (L * 8)%nat
    ∧ ∀ k c, (k < L * 8)%nat → sum !! k = Some c →
        sum' !! k
        = Some (uint64_t (c + Z.b2z (bit_of desc (k `div` 8) (k `mod` 8)))).
Proof.
  intros Hdesc Hsum.
  rewrite (foldM_nested_8 (FBRISK.sum_step desc)).
  destruct (foldM_pointwise
              (λ k c, uint64_t (c + Z.b2z (bit_of desc (k `div` 8) (k `mod` 8))))
              (λ s k, FBRISK.sum_step desc s (k `div` 8, k `mod` 8)%nat)
              (seq 0 (L * 8)) sum)
    as (sum' & Hrun & Hlen & Hin & _).
  - intros k s c Hk Hc. apply elem_of_seq in Hk.
    assert (k `div` 8 < L)%nat as Hi by (apply Nat.Div0.div_lt_upper_bound; lia).
    destruct (lookup_lt_is_Some_2 desc (k `div` 8)) as [d Hd]; [lia|].
    assert (k `div` 8 * 8 + k `mod` 8 = k)%nat as Hk8
      by (pose proof (Nat.div_mod_eq k 8); lia).
    revert Hd Hk8. generalize (k `div` 8)%nat (k `mod` 8)%nat.
    intros i b Hd Hk8.
    unfold FBRISK.sum_step, bit_of. rewrite Hd, Hk8. simpl.
    rewrite Hc. simpl. unfold vset.
    rewrite decide_True by (by eapply lookup_lt_Some).
    by rewrite bit_and_nonzero.
  - apply NoDup_seq.
  - intros k Hk. apply elem_of_seq in Hk. lia.
  - exists sum'. split_and!; [done | congruence |].
    intros k c Hk Hc. apply Hin; [|done]. apply elem_of_seq. lia.
Qed.

Lemma votes_cons d ds i b :
  votes (d :: ds) i b = ((if bit_of d i b then 1 else 0) + votes ds i b)%nat.
Proof.
  unfold votes. rewrite filter_cons.
  destruct (bit_of d i b); by case_decide.
Qed.

(** The passes over all the descriptors count the votes. *)
Lemma sum_all (ds : list (list Z)) (sum : list Z) (cnt : nat → nat) :
  Forall (λ d, (L ≤ length d)%nat) ds →
  length sum = (L * 8)%nat →
  (∀ k, (k < L * 8)%nat → sum !! k = Some (Z.of_nat (cnt k))) →
  (∀ k, (k < L * 8)%nat → Z.of_nat (cnt k + length ds) < 2 ^ 64) →
  ∃ sum',
    foldM (λ sum desc,
             foldM (λ sum i,
               foldM (λ sum b, FBRISK.sum_step desc sum (i, b)) sum (seq 0 8))
             sum (seq 0 L))
          sum ds = Some sum'
    ∧ length sum' = (L * 8)%nat
    ∧ ∀ k, (k < L * 8)%nat →
        sum' !! k
        = Some (Z.of_nat (cnt k + votes ds (k `div` 8) (k `mod` 8))).
Proof.
  intros Hds. revert sum cnt.
  induction Hds as [|d ds Hd Hds IH]; intros sum cnt Hlen Hcnt Hbound.
  { exists sum. split_and!; [done | done |]. intros k Hk.
    rewrite Hcnt by done. unfold votes. simpl. do 2 f_equal. lia. }
  rewrite foldM_cons.
  destruct (sum_pass d sum Hd Hlen) as (sum1 & -> & Hlen1 & Hsum1).
  cbn [mbind option_bind].
  destruct (IH sum1
              (λ k, (cnt k + if bit_of d (k `div` 8) (k `mod` 8) then 1 else 0)%nat))
    as (sum' & -> & Hlen' & Hsum'); [done | | |].
  - intros k Hk. rewrite (Hsum1 k _ Hk (Hcnt k Hk)). f_equal.
    unfold uint64_t. specialize (Hbound k Hk). simpl in Hbound.
    destruct (bit_of d (k `div` 8) (k `mod` 8)); simpl;
      rewrite Z.mod_small; lia.
  - intros k Hk. specialize (Hbound k Hk). simpl in Hbound.
    destruct (bit_of d (k `div` 8) (k `mod` 8)); lia.
  - exists sum'. split_and!; [done | done |]. intros k Hk.
    rewrite Hsum' by done. rewrite votes_cons. do 2 f_equal. lia.
Qed.

Lemma mean_step_spec (sum mean : list Z) s i b m :
  mean !! i = Some m →
  is_Some (sum !! (i * 8 + b)%nat) →
  FBRISK.mean_step sum s i mean b
  = Some (<[i := if over sum s (i * 8 + b)
                 then uint8_t (Z.lor m (Z.shiftl 1 (Z.of_nat b))) else m]> mean).
Proof.
  intros Hm [c Hc]. unfold FBRISK.mean_step, over. rewrite Hc. simpl.
  destruct (s <? c).
  - rewrite Hm. simpl. unfold vset.
    by rewrite decide_True by (by eapply lookup_lt_Some).
  - by rewrite list_insert_id.
Qed.

Lemma mean_byte (sum mean : list Z) s i bs m :
  mean !! i = Some m →
  (∀ b, b ∈ bs → is_Some (sum !! (i * 8 + b)%nat)) →
  foldM (FBRISK.mean_step sum s i) mean bs
  = Some (<[i := set_bits sum s i bs m]> mean).
Proof.
  revert mean m. induction bs as [|b bs IH]; intros mean m Hm Hsum.
  { simpl. by rewrite list_insert_id. }
  rewrite foldM_cons, (mean_step_spec _ _ _ _ _ m) by (done || apply Hsum; by left).
  cbn [mbind option_bind].
  erewrite IH; [by rewrite list_insert_insert_eq | |].
  - apply list_lookup_insert_eq. by eapply lookup_lt_Some.
  - intros ??. apply Hsum. by right.
Qed.

Lemma set_bits_testbit sum s i bs m b' :
  (b' < 8)%nat → (∀ b, b ∈ bs → (b < 8)%nat) →
  Z.testbit (set_bits sum s i bs m) (Z.of_nat b')
  = Z.testbit m (Z.of_nat b')
    || (bool_decide (b' ∈ bs) && over sum s (i * 8 + b')).
Proof.
  intros Hb'. revert m. induction bs as [|b bs IH]; intros m Hbs; simpl.
  { by rewrite orb_false_r. }
  rewrite IH by (intros ??; apply Hbs; by right).
  assert (b < 8)%nat by (apply Hbs; by left).
  destruct (decide (b = b')) as [->|Hne].
  - rewrite (bool_decide_eq_true_2 (b' ∈ b' :: bs)) by left.
    destruct (over sum s (i * 8 + b')) eqn:Hov.
    + rewrite testbit_set_bit by done.
      rewrite bool_decide_eq_true_2 by done.
      by rewrite orb_true_r, andb_true_r, orb_true_r.
    + by rewrite andb_false_r.
  - assert (bool_decide (b' ∈ b :: bs) = bool_decide (b' ∈ bs)) as ->.
    { apply bool_decide_ext. rewrite elem_of_cons.
      split; [intros [?|?]; [congruence | done] | by right]. }
    destruct (over sum s (i * 8 + b)); [|done].
    rewrite testbit_set_bit by done.
    by rewrite (bool_decide_eq_false_2 (b = b')), orb_false_r by done.
Qed.

Lemma set_bits_byte sum s i bs m : is_byte m → is_byte (set_bits sum s i bs m).
Proof.
  revert m. induction bs as [|b bs IH]; intros m Hm; simpl; [done|].
  apply IH. destruct (over sum s (i * 8 + b)); [|done].
  unfold is_byte, uint8_t. apply Z.mod_pos_bound. lia.
Qed.

(** The run of [meanValue]: both loops end, the counters are the votes
    modulo [2 ^ 64], and byte [i] of the result collects the bits whose
    counter is over [s]. *)
Lemma meanValue_runs (ds : list (list Z)) (mean0 : list Z) :
  Forall (λ d, (L ≤ length d)%nat) ds →
  ∃ sum mean,
    foldM (λ sum desc,
             foldM (λ sum i,
               foldM (λ sum b, FBRISK.sum_step desc sum (i, b)) sum (seq 0 8))
             sum (seq 0 L))
          (replicate (L * 8) 0) ds = Some sum
    ∧ length sum = (L * 8)%nat
    ∧ FBRISK.meanValue L ds mean0 = Some mean
    ∧ length mean = L
    ∧ ∀ i, (i < L)%nat →
        mean !! i
        = Some (set_bits sum (uint64_t (Z.of_nat (length ds) `div` 2)) i
                         (seq 0 8) 0).
Proof.
  intros Hds. unfold FBRISK.meanValue.
  destruct (foldM_invariant (λ sum, length sum = (L * 8)%nat)
              (λ sum desc,
                 foldM (λ sum i,
                   foldM (λ sum b, FBRISK.sum_step desc sum (i, b)) sum (seq 0 8))
                 sum (seq 0 L))
              (replicate (L * 8) 0) ds) as (sum & Hsum & Hlen).
  { apply length_replicate. }
  { intros sum d Hd Hlen. rewrite list.Forall_forall in Hds.
    destruct (sum_pass d sum (Hds d Hd) Hlen) as (sum' & ? & ? & _). eauto. }
  exists sum. rewrite Hsum. cbn [mbind option_bind].
  rewrite resize_0, resize_nil.
  set (s := uint64_t (Z.of_nat (length ds) `div` 2)).
  destruct (foldM_pointwise (λ i c, set_bits sum s i (seq 0 8) c)
              (λ mean i, foldM (FBRISK.mean_step sum s i) mean (seq 0 8))
              (seq 0 L) (replicate L 0)) as (mean & Hmean & Hl & Hin & _).
  - intros i m c Hi Hc. apply mean_byte; [done|].
    intros b Hb. apply elem_of_seq in Hi, Hb.
    apply lookup_lt_is_Some_2. lia.
  - apply NoDup_seq.
  - intros i Hi. apply elem_of_seq in Hi. rewrite length_replicate. lia.
  - exists mean. rewrite length_replicate in Hl. split_and!; try done.
    intros i Hi. apply Hin; [apply elem_of_seq; lia|].
    by apply lookup_replicate_2.
Qed.

End MeanValue.

(** C1. For descriptors of [L] bytes, [FBRISK::meanValue] sets bit [b] of
    byte [i] of the mean exactly when strictly more than half of the
    descriptors have that bit set: twice the number of votes exceeds the
    number of descriptors, so that a tie leaves the bit 0.  (The number of
    descriptors is that of a [std::vector], below [2 ^ 64].) *)
Theorem meanValue_majority (L : nat) (descriptors : list (list Z))
    (mean0 : list Z) :
  Forall (λ d, length d = L) descriptors →
  Z.of_nat (length descriptors) < 2 ^ 64 →
  ∃ mean,
    FBRISK.meanValue L descriptors mean0 = Some mean
    ∧ length mean = L
    ∧ ∀ i b, (i < L)%nat → (b < 8)%nat →
        ∃ m, mean !! i = Some m ∧ is_byte m
          ∧ (Z.testbit m (Z.of_nat b) = true
             ↔ (length descriptors < 2 * votes descriptors i b)%nat).
Proof.
  intros Hds Hn.
  assert (Forall (λ d, (L ≤ length d)%nat) descriptors) as Hds'.
  { eapply list.Forall_impl; [exact Hds|]. intros d Hd. simpl in Hd. lia. }
  destruct (meanValue_runs L descriptors mean0 Hds')
    as (sum & mean & Hsum & Hlen & Hrun & Hl & Hmean).
  destruct (sum_all L descriptors (replicate (L * 8) 0) (λ _, 0%nat) Hds')
    as (sum' & Hsum' & _ & Hvotes).
  { apply length_replicate. }
  { intros k Hk. by apply lookup_replicate_2. }
  { intros k Hk. simpl. lia. }
  rewrite Hsum in Hsum'. injection Hsum' as <-.
  exists mean. split_and!; [done | done |].
  intros i b Hi Hb. eexists. split_and!; [by apply Hmean | |].
  { apply set_bits_byte. unfold is_byte. lia. }
  rewrite set_bits_testbit
    by (done || intros b' Hb'; apply elem_of_seq in Hb'; lia).
  rewrite Z.bits_0, orb_false_l.
  rewrite bool_decide_eq_true_2 by (apply elem_of_seq; lia).
  rewrite andb_true_l. unfold over. rewrite Hvotes by lia.
  replace ((i * 8 + b) `div` 8)%nat with i
    by (rewrite Nat.add_comm, Nat.div_add, Nat.div_small by lia; done).
  replace ((i * 8 + b) `mod` 8)%nat with b
    by (rewrite Nat.add_comm, Nat.Div0.mod_add, Nat.mod_small by lia; done).
  simpl Nat.add. unfold uint64_t.
  rewrite Z.mod_small by (split; [apply Z.div_pos; lia |
    apply Z.div_lt_upper_bound; lia]).
  rewrite Z.ltb_lt.
  pose proof (Z.div_mod (Z.of_nat (length descriptors)) 2).
  pose proof (Z.mod_pos_bound (Z.of_nat (length descriptors)) 2).
  lia.
Qed.

Lemma meanValue_majority_witness :
  Forall (λ d, length d = 2%nat) three_descriptors
  ∧ Z.of_nat (length three_descriptors) < 2 ^ 64
  ∧ ∃ mean,
      FBRISK.meanValue 2 three_descriptors [7] = Some mean
      ∧ length mean = 2%nat
      ∧ ∀ i b, (i < 2)%nat → (b < 8)%nat →
          ∃ m, mean !! i = Some m ∧ is_byte m
            ∧ (Z.testbit m (Z.of_nat b) = true
               ↔ (length three_descriptors
                  < 2 * votes three_descriptors i b)%nat).
Proof.
  assert (Forall (λ d, length d = 2%nat) three_descriptors) as Hds
    by (repeat constructor).
  assert (Z.of_nat (length three_descriptors) < 2 ^ 64) as Hn
    by (simpl; lia).
  split; [exact Hds|]. split; [exact Hn|].
  exact (meanValue_majority 2 three_descriptors [7] Hds Hn).
Defined.

Lemma set_bits_none sum s i bs m :
  (∀ b, b ∈ bs → over sum s (i * 8 + b) = false) →
  set_bits sum s i bs m = m.
Proof.
  induction bs as [|b bs IH]; intros Hbs; simpl; [done|].
  rewrite Hbs by left. apply IH. intros ??. apply Hbs. by right.
Qed.

(** C8. [FBRISK::meanValue] ends without failure on every list of
    descriptors, the empty one included, and its output has exactly [L]
    bytes; for the empty list it is the all-zero descriptor. *)
Theorem meanValue_total (L : nat) (descriptors : list (list Z))
    (mean0 : list Z) :
  Forall (λ d, length d = L) descriptors →
  (∃ mean,
     FBRISK.meanValue L descriptors mean0 = Some mean ∧ length mean = L)
  ∧ FBRISK.meanValue L [] mean0 = Some (replicate L 0).
Proof.
  intros Hds. split.
  - destruct (meanValue_runs L descriptors mean0)
      as (sum & mean & _ & _ & Hrun & Hl & _); [|by eauto].
    eapply list.Forall_impl; [exact Hds|]. intros d Hd. simpl in Hd. lia.
  - destruct (meanValue_runs L [] mean0)
      as (sum & mean & Hsum & _ & -> & Hl & Hmean); [by constructor|].
    f_equal. injection Hsum as <-.
    apply list_eq. intros i.
    destruct (decide (i < L)%nat) as [Hi|Hi].
    + rewrite Hmean, lookup_replicate_2 by done. f_equal.
      apply set_bits_none. intros b Hb. unfold over.
      apply elem_of_seq in Hb.
      by rewrite lookup_replicate_2 by lia.
    + rewrite !lookup_ge_None_2; [done | |]; rewrite ?length_replicate; lia.
Qed.

Lemma meanValue_total_witness :
  Forall (λ d, length d = 2%nat) [[1; 255]; [3; 0]]
  ∧ (∃ mean,
       FBRISK.meanValue 2 [[1; 255]; [3; 0]] [7; 7; 7] = Some mean
       ∧ length mean = 2%nat)
  ∧ FBRISK.meanValue 2 [] [7; 7; 7] = Some (replicate 2 0).
Proof.
  assert (Forall (λ d, length d = 2%nat) [[1; 255]; [3; 0]]) as Hds
    by (repeat constructor).
  split; [exact Hds|].
  exact (meanValue_total 2 [[1; 255]; [3; 0]] [7; 7; 7] Hds).
Defined.

(** * [FBRISK::distance] *)

Lemma popcount_shiftr (n : nat) (x : Z) (j : nat) :
  FBRISK.popcount n (Z.shiftr x (Z.of_nat j))
  = Z.of_nat (length (filter (λ b, Z.testbit x (Z.of_nat b) = true) (seq j n))).
Proof.
  revert j. induction n as [|n IH]; intros j; [done|].
  cbn [FBRISK.popcount seq]. rewrite filter_cons.
  rewrite <-Z.bit0_mod, Z.shiftr_spec, Z.add_0_l by lia.
  assert (Z.shiftr x (Z.of_nat j) `div` 2 = Z.shiftr x (Z.of_nat (S j))) as ->.
  { rewrite !Z.shiftr_div_pow2 by lia.
    replace (Z.of_nat (S j)) with (Z.of_nat j + 1) by lia.
    rewrite Z.pow_add_r, Z.pow_1_r by lia.
    assert (0 < 2 ^ Z.of_nat j) by (apply Z.pow_pos_nonneg; lia).
    rewrite Z.div_div by lia. done. }
  rewrite IH.
  destruct (Z.testbit x (Z.of_nat j)); case_decide; try done;
    cbn [length Z.b2z]; lia.
Qed.

Lemma popcount_lxor (a b : list Z) (i : nat) x y :
  a !! i = Some x → b !! i = Some y →
  FBRISK.popcount 8 (Z.lxor x y) = Z.of_nat (byte_diff a b i).
Proof.
  intros Hx Hy.
  pose proof (popcount_shiftr 8 (Z.lxor x y) 0) as Hpop.
  cbn [Z.of_nat] in Hpop. rewrite Z.shiftr_0_r in Hpop. rewrite Hpop.
  unfold byte_diff. do 2 f_equal. apply list_filter_iff. intros bit.
  unfold bit_of. rewrite Hx, Hy, Z.lxor_spec.
  destruct (Z.testbit x (Z.of_nat bit)), (Z.testbit y (Z.of_nat bit));
    simpl; split; congruence.
Qed.

Lemma byte_diff_sym a b i : byte_diff a b i = byte_diff b a i.
Proof.
  unfold byte_diff. f_equal. apply list_filter_iff. intros bit.
  split; congruence.
Qed.

Lemma byte_diff_refl a i : byte_diff a a i = 0%nat.
Proof.
  unfold byte_diff.
  induction (seq 0 8) as [|bit bs IH]; [done|].
  rewrite filter_cons. by case_decide.
Qed.

Lemma hamming_sym n a b : hamming n a b = hamming n b a.
Proof.
  unfold hamming. f_equal. apply list_fmap_ext. intros _ i _.
  apply byte_diff_sym.
Qed.

Lemma hamming_refl n a : hamming n a a = 0%nat.
Proof.
  unfold hamming. induction (seq 0 n) as [|i l IH]; [done|].
  rewrite fmap_cons. cbn [sum_list sum_list_with id].
  by rewrite byte_diff_refl, IH.
Qed.

(** The helper adds up the differing bits of the bytes it visits. *)
Lemma PopcntofXORed_spec (a b : list Z) (n : nat) :
  (16 * n ≤ length a)%nat → (16 * n ≤ length b)%nat →
  FBRISK.PopcntofXORed a b n = Some (Z.of_nat (hamming (16 * n) a b)).
Proof.
  intros Ha Hb. unfold FBRISK.PopcntofXORed, hamming.
  change (Z.of_nat (sum_list (byte_diff a b <$> seq 0 (16 * n))))
    with (0 + Z.of_nat (sum_list (byte_diff a b <$> seq 0 (16 * n)))).
  assert (∀ k, k ∈ seq 0 (16 * n) → (k < 16 * n)%nat) as Hks.
  { intros k Hk. apply elem_of_seq in Hk. lia. }
  revert Hks. generalize 0. generalize (seq 0 (16 * n)).
  intros ks. induction ks as [|k ks IH]; intros acc Hks.
  { simpl. f_equal. lia. }
  rewrite foldM_cons.
  assert (k < 16 * n)%nat as Hk by (apply Hks; by left).
  destruct (lookup_lt_is_Some_2 a k) as [x Hx]; [lia|].
  destruct (lookup_lt_is_Some_2 b k) as [y Hy]; [lia|].
  rewrite Hx, Hy. cbn [mbind option_bind].
  rewrite IH by (intros ??; apply Hks; by right).
  rewrite (popcount_lxor a b k x y Hx Hy). f_equal.
  rewrite fmap_cons. cbn [sum_list sum_list_with id]. lia.
Qed.

(** C2. [FBRISK::distance] is the Hamming distance over all the [L] bytes.
    The call compares [L / 16] words of 128 bits, which are all the bytes
    when [L] is a multiple of 16, as the 48 bytes of BRISK are. *)
Theorem distance_hamming (L : nat) (a b : list Z) :
  (0 < L)%nat → (L `mod` 16 = 0)%nat →
  length a = L → length b = L →
  FBRISK.distance L a b = Some (Z.of_nat (hamming L a b)).
Proof.
  intros HL H16 Ha Hb. unfold FBRISK.distance.
  destruct a as [|x a]; [simpl in Ha; lia|].
  destruct b as [|y b]; [simpl in Hb; lia|].
  cbn [head mbind option_bind].
  assert (16 * (L `div` 16) = L)%nat as HL16
    by (pose proof (Nat.div_mod_eq L 16); lia).
  rewrite PopcntofXORed_spec by lia. by rewrite HL16.
Qed.

Lemma distance_hamming_witness :
  (0 < 48)%nat ∧ (48 `mod` 16 = 0)%nat
  ∧ length brisk_a = 48%nat ∧ length brisk_b = 48%nat
  ∧ FBRISK.distance 48 brisk_a brisk_b
    = Some (Z.of_nat (hamming 48 brisk_a brisk_b)).
Proof.
  assert (0 < 48)%nat as HL by lia.
  assert (48 `mod` 16 = 0)%nat as H16 by reflexivity.
  assert (length brisk_a = 48%nat) as Ha by reflexivity.
  assert (length brisk_b = 48%nat) as Hb by reflexivity.
  split_and!; [exact HL | exact H16 | exact Ha | exact Hb |].
  exact (distance_hamming 48 brisk_a brisk_b HL H16 Ha Hb).
Defined.

Example distance_brisk : FBRISK.distance 48 brisk_a brisk_b = Some 176.
Proof. vm_compute. reflexivity. Qed.

Example hamming_brisk : hamming 48 brisk_a brisk_b = 176%nat.
Proof. vm_compute. reflexivity. Qed.

(** C3. [FBRISK::distance] is non-negative and symmetric, and the distance
    of a descriptor to itself is 0. *)
Theorem distance_metric (L : nat) (a b : list Z) :
  (0 < L)%nat → length a = L → length b = L →
  ∃ d,
    FBRISK.distance L a b = Some d
    ∧ 0 ≤ d
    ∧ FBRISK.distance L b a = Some d
    ∧ FBRISK.distance L a a = Some 0.
Proof.
  intros HL Ha Hb.
  assert (16 * (L `div` 16) ≤ L)%nat as HL16
    by (pose proof (Nat.div_mod_eq L 16); lia).
  exists (Z.of_nat (hamming (16 * (L `div` 16)) a b)).
  unfold FBRISK.distance.
  destruct a as [|x a]; [simpl in Ha; lia|].
  destruct b as [|y b]; [simpl in Hb; lia|].
  cbn [head mbind option_bind].
  rewrite !PopcntofXORed_spec by lia.
  split_and!; [done | lia | |].
  - by rewrite hamming_sym.
  - by rewrite hamming_refl.
Qed.

Lemma distance_metric_witness :
  (0 < 48)%nat ∧ length brisk_a = 48%nat ∧ length brisk_b = 48%nat
  ∧ ∃ d,
      FBRISK.distance 48 brisk_a brisk_b = Some d
      ∧ 0 ≤ d
      ∧ FBRISK.distance 48 brisk_b brisk_a = Some d
      ∧ FBRISK.distance 48 brisk_a brisk_a = Some 0.
Proof.
  assert (0 < 48)%nat as HL by lia.
  assert (length brisk_a = 48%nat) as Ha by reflexivity.
  assert (length brisk_b = 48%nat) as Hb by reflexivity.
  split_and!; [exact HL | exact Ha | exact Hb |].
  exact (distance_metric 48 brisk_a brisk_b HL Ha Hb).
Defined.

(** * [FBRISK::toString] and [FBRISK::fromString] *)

Lemma append_assoc (s1 s2 s3 : string) :
  String.append (String.append s1 s2) s3
  = String.append s1 (String.append s2 s3).
Proof. induction s1 as [|c s1 IH]; simpl; [done | by rewrite IH]. Qed.

Lemma append_nil_r (s : string) : String.append s EmptyString = s.
Proof. induction s as [|c s IH]; simpl; [done | by rewrite IH]. Qed.

Lemma code_digit d : 0 ≤ d < 10 → FBRISK.code (FBRISK.digit d) = 48 + d.
Proof.
  intros Hd. unfold FBRISK.code, FBRISK.digit.
  rewrite N_ascii_embedding by lia. lia.
Qed.

Lemma is_digit_digit d : 0 ≤ d < 10 → FBRISK.is_digit (FBRISK.digit d) = true.
Proof.
  intros Hd. unfold FBRISK.is_digit. rewrite code_digit by done.
  apply andb_true_intro. split; apply Z.leb_le; lia.
Qed.

Lemma is_digit_not_space c :
  FBRISK.is_digit c = true → FBRISK.is_space c = false.
Proof.
  unfold FBRISK.is_digit, FBRISK.is_space. intros H.
  apply andb_prop in H as [H1 H2]. apply Z.leb_le in H1, H2.
  apply orb_false_intro; [apply Z.eqb_neq; lia|].
  apply andb_false_intro2. apply Z.leb_gt. lia.
Qed.

Lemma is_digit_not_sign c :
  FBRISK.is_digit c = true →
  Ascii.eqb c "-" = false ∧ Ascii.eqb c "+" = false.
Proof.
  unfold FBRISK.is_digit. intros H.
  apply andb_prop in H as [H1 H2]. apply Z.leb_le in H1, H2.
  split; apply Ascii.eqb_neq; intros ->; vm_compute in H1; by apply H1.
Qed.

(** [put_digits] writes in front of what is already there. *)
Lemma put_digits_append fuel n acc t :
  String.append (FBRISK.put_digits fuel n acc) t
  = FBRISK.put_digits fuel n (String.append acc t).
Proof.
  revert n acc. induction fuel as [|fuel IH]; intros n acc; simpl; [done|].
  destruct (n <? 10); [done|]. by rewrite IH.
Qed.

Lemma put_digits_head fuel n acc :
  ∃ c s, FBRISK.put_digits (S fuel) n acc = String c s
         ∧ FBRISK.is_digit c = true.
Proof.
  revert n acc. induction fuel as [|fuel IH]; intros n acc.
  - exists (FBRISK.digit (n `mod` 10)), acc. split.
    + simpl. by destruct (n <? 10).
    + apply is_digit_digit. apply Z.mod_pos_bound. lia.
  - change (FBRISK.put_digits (S (S fuel)) n acc)
      with (let acc' := String (FBRISK.digit (n `mod` 10)) acc in
            if n <? 10 then acc'
            else FBRISK.put_digits (S fuel) (n `div` 10) acc').
    cbv zeta. destruct (n <? 10).
    + eexists _, _. split; [done|].
      apply is_digit_digit. apply Z.mod_pos_bound. lia.
    + apply IH.
Qed.

(** Reading back the digits of [n]: the value read so far is shifted by a
    power of ten and [n] is added. *)
Lemma get_digits_put_digits fuel n acc :
  0 ≤ n < 10 ^ Z.of_nat (S fuel) →
  ∃ p, ∀ v,
    FBRISK.get_digits (FBRISK.put_digits (S fuel) n acc) v
    = FBRISK.get_digits acc (Some (p * default 0 v + n)).
Proof.
  revert n acc. induction fuel as [|fuel IH]; intros n acc Hn.
  - exists 10. intros v. change (10 ^ Z.of_nat 1) with 10 in Hn.
    cbn [FBRISK.put_digits]. cbv zeta.
    assert (FBRISK.digit (n `mod` 10) = FBRISK.digit n) as ->
      by (by rewrite Z.mod_small by lia).
    destruct (n <? 10); cbn [FBRISK.get_digits];
      rewrite is_digit_digit, code_digit by lia; do 3 f_equal; lia.
  - change (FBRISK.put_digits (S (S fuel)) n acc)
      with (let acc' := String (FBRISK.digit (n `mod` 10)) acc in
            if n <? 10 then acc'
            else FBRISK.put_digits (S fuel) (n `div` 10) acc').
    cbv zeta.
    assert (0 ≤ n `mod` 10 < 10) as Hmod by (apply Z.mod_pos_bound; lia).
    destruct (Z.ltb_spec n 10) as [Hlt|Hge].
    + exists 10. intros v. cbn [FBRISK.get_digits].
      rewrite is_digit_digit, code_digit by done.
      rewrite Z.mod_small by lia. do 3 f_equal. lia.
    + destruct (IH (n `div` 10) (String (FBRISK.digit (n `mod` 10)) acc))
        as [p Hp].
      { split; [apply Z.div_pos; lia|].
        apply Z.div_lt_upper_bound; [lia|].
        replace (Z.of_nat (S (S fuel))) with (Z.of_nat (S fuel) + 1) in Hn
          by lia.
        rewrite Z.pow_add_r, Z.pow_1_r in Hn by lia. lia. }
      exists (10 * p). intros v. rewrite Hp. cbn [FBRISK.get_digits].
      rewrite is_digit_digit, code_digit by done. cbn [default].
      unfold id. do 2 f_equal. pose proof (Z.div_mod n 10). lia.
Qed.

(** Extracting an [int] from a stream that starts with the decimal form of
    [x] and a space. *)
Lemma extract_int_put_int x rest :
  0 ≤ x ≤ INT_MAX →
  FBRISK.extract_int
    (FBRISK.Istream (String.append (FBRISK.put_int x) (String " " rest))
                    false false)
  = (FBRISK.Istream (String " " rest) false false, Some x).
Proof.
  intros Hx. unfold FBRISK.put_int.
  destruct (Z.ltb_spec x 0) as [?|_]; [lia|].
  rewrite put_digits_append. cbn [String.append].
  destruct (put_digits_head 9 x (String " " rest)) as (c & s & Hcs & Hc).
  destruct (get_digits_put_digits 9 x (String " " rest)) as [p Hp].
  { unfold INT_MAX in Hx. change (10 ^ Z.of_nat 10) with 10000000000. lia. }
  specialize (Hp None). cbn [default] in Hp.
  rewrite Z.mul_0_r, Z.add_0_l in Hp.
  unfold FBRISK.extract_int. cbn [FBRISK.buf FBRISK.eofbit FBRISK.failbit orb].
  revert Hp. rewrite Hcs. intros Hp.
  cbn [FBRISK.skipws]. rewrite (is_digit_not_space c Hc).
  destruct (is_digit_not_sign c Hc) as [-> ->].
  rewrite Hp. cbn [FBRISK.get_digits].
  change (FBRISK.is_digit " ") with false. cbv iota beta.
  destruct (Z.ltb_spec INT_MAX x) as [?|_]; [lia|].
  destruct (Z.ltb_spec x INT_MIN) as [?|_]; [unfold INT_MIN in *; lia|].
  done.
Qed.

Lemma extract_int_space s :
  FBRISK.extract_int (FBRISK.Istream (String " " s) false false)
  = FBRISK.extract_int (FBRISK.Istream s false false).
Proof. done. Qed.

Section Strings.
Variable L : nat.

(** [toString] writes the bytes in order. *)
Lemma toString_run (a : list Z) (n j : nat) (ss : string) :
  (j + n ≤ length a)%nat →
  foldM (λ ss i,
           x ← a !! i;
           Some (String.append ss (String.append (FBRISK.put_int x) " ")))
        ss (seq j n)
  = Some (String.append ss (decimal_bytes (take n (drop j a)))).
Proof.
  revert j ss. induction n as [|n IH]; intros j ss Hj.
  { simpl. by rewrite append_nil_r. }
  cbn [seq]. rewrite foldM_cons.
  destruct (lookup_lt_is_Some_2 a j) as [x Hx]; [lia|].
  rewrite Hx. cbn [mbind option_bind].
  rewrite IH by lia. f_equal.
  rewrite (drop_S a x j Hx). cbn [take decimal_bytes foldr].
  by rewrite !append_assoc.
Qed.

Lemma toString_spec (a : list Z) :
  length a = L → FBRISK.toString L a = Some (decimal_bytes a).
Proof.
  intros Ha. unfold FBRISK.toString.
  rewrite toString_run by lia. cbn [String.append drop].
  by rewrite <-Ha, firstn_all.
Qed.

Lemma fromString_step_ok (arr : list Z) ss ss' v (j : nat) :
  FBRISK.extract_int ss = (ss', Some v) →
  (j < length arr)%nat →
  FBRISK.fromString_step (arr, ss) j = Some (<[j := uint8_t v]> arr, ss').
Proof.
  intros Hext Hj. unfold FBRISK.fromString_step. rewrite Hext.
  cbn [mbind option_bind]. unfold vset. by rewrite decide_True by done.
Qed.

(** [fromString] reads them back, one element a round. *)
Lemma fromString_run (xs : list Z) (j : nat) (arr : list Z) (buf : string) :
  buf = decimal_bytes xs ∨ buf = String " " (decimal_bytes xs) →
  Forall is_byte xs →
  (j + length xs ≤ length arr)%nat →
  ∃ ss,
    foldM FBRISK.fromString_step (arr, FBRISK.Istream buf false false)
          (seq j (length xs))
    = Some (take j arr ++ xs ++ drop (j + length xs) arr, ss).
Proof.
  revert j arr buf.
  induction xs as [|x xs IH]; intros j arr buf Hbuf Hxs Hj.
  { eexists. simpl. rewrite Nat.add_0_r. by rewrite take_drop. }
  apply list.Forall_cons in Hxs as [Hx Hxs].
  cbn [length seq]. rewrite foldM_cons.
  assert (FBRISK.extract_int (FBRISK.Istream buf false false)
          = (FBRISK.Istream (String " " (decimal_bytes xs)) false false,
             Some x)) as Hext.
  { destruct Hbuf as [->| ->]; [|rewrite extract_int_space];
      apply extract_int_put_int; unfold is_byte, INT_MAX in *; lia. }
  rewrite (fromString_step_ok _ _ _ _ _ Hext) by (simpl in Hj; lia).
  cbn [mbind option_bind].
  assert (uint8_t x = x) as ->
    by (unfold uint8_t, is_byte in *; apply Z.mod_small; lia).
  destruct (IH (S j) (<[j := x]> arr) (String " " (decimal_bytes xs)))
    as [ss ->]; [by right | done | rewrite length_insert; simpl in Hj; lia |].
  exists ss. do 2 f_equal.
  assert (j < length arr)%nat as Hlt by (simpl in Hj; lia).
  destruct (lookup_lt_is_Some_2 _ _ Hlt) as [y Hy].
  rewrite (take_S_r _ _ x) by (by apply list_lookup_insert_eq).
  rewrite take_insert_ge, drop_insert_lt by lia.
  rewrite <-app_assoc. cbn [app length].
  by replace (S j + length xs)%nat with (j + S (length xs))%nat by lia.
Qed.

End Strings.

(** C4. The string form of a descriptor of [L] bytes is its bytes in
    decimal, each followed by a space, and [FBRISK::fromString] reads the
    descriptor back from it. *)
Theorem fromString_toString (L : nat) (a a0 : list Z) :
  length a = L → Forall is_byte a →
  ∃ s,
    FBRISK.toString L a = Some s
    ∧ s = decimal_bytes a
    ∧ FBRISK.fromString L a0 s = Some a.
Proof.
  intros Ha Hbytes. exists (decimal_bytes a).
  split_and!; [by apply toString_spec | done |].
  unfold FBRISK.fromString.
  destruct (fromString_run a 0 (resize L 0 a0) (decimal_bytes a))
    as [ss Hrun]; [by left | done | rewrite length_resize; lia |].
  rewrite <-Ha at 2. rewrite Hrun. cbn [mbind option_bind fst take app].
  rewrite drop_ge by (rewrite length_resize; simpl; lia).
  by rewrite app_nil_r.
Qed.

Lemma fromString_toString_witness :
  length brisk_b = 48%nat ∧ Forall is_byte brisk_b
  ∧ ∃ s,
      FBRISK.toString 48 brisk_b = Some s
      ∧ s = decimal_bytes brisk_b
      ∧ FBRISK.fromString 48 [1; 2; 3] s = Some brisk_b.
Proof.
  assert (length brisk_b = 48%nat) as Ha by reflexivity.
  assert (Forall is_byte brisk_b) as Hb.
  { apply Forall_forall. intros x Hx.
    repeat (destruct Hx as [<-|Hx]; [unfold is_byte; lia|]).
    destruct Hx. }
  split_and!; [exact Ha | exact Hb |].
  exact (fromString_toString 48 brisk_b [1; 2; 3] Ha Hb).
Defined.

(** * [FBRISK::toMat32F] *)

Lemma foldM_fails {A St : Type} (body : St → A → option St) s l x :
  x ∈ l → (∀ s, body s x = None) → foldM body s l = None.
Proof.
  intros Hx Hbody. revert s.
  induction l as [|y l IH]; intros s; [by apply elem_of_nil in Hx|].
  rewrite foldM_cons. apply elem_of_cons in Hx as [<-|Hx].
  - by rewrite Hbody.
  - destruct (body s y); [by apply IH | done].
Qed.

(** The column loop indexes the descriptor with the column offset [j], that
    is with [0, 8, 16, ...], not with the byte index [j / 8]: from two bytes
    on, it reads past the end of a descriptor of [L] bytes. *)
Lemma toMat32F_out_of_range (L : nat) (descriptors : list (list Z))
    (mat : cv.Mat) :
  (2 ≤ L)%nat → descriptors ≠ [] →
  Forall (λ d, length d = L) descriptors →
  FBRISK.toMat32F L descriptors mat = None.
Proof.
  intros HL Hne Hds. unfold FBRISK.toMat32F.
  destruct descriptors as [|d ds]; [done|].
  apply list.Forall_cons in Hds as [Hd _].
  apply (foldM_fails _ _ _ 0%nat).
  { apply elem_of_seq. simpl. lia. }
  intros m. cbn [lookup list_lookup mbind option_bind].
  apply (foldM_fails _ _ _ ((L - 1) * 8)%nat).
  { apply list_elem_of_fmap. exists (L - 1)%nat. split; [done|].
    apply elem_of_seq. lia. }
  intros m'. apply (foldM_fails _ _ _ 0%nat); [by left|].
  intros m''. unfold FBRISK.toMat32F_step.
  by rewrite (lookup_ge_None_2 d) by lia.
Qed.

(** C9, at a BRISK descriptor: [FBRISK::toMat32F] does not produce the
    matrix of the bits of the descriptor; it reads past its end. *)
Theorem toMat32F_brisk_undefined :
  FBRISK.toMat32F 48 [brisk_a] cv.release = None.
Proof. apply toMat32F_out_of_range; [lia | done | by repeat constructor]. Qed.

(** * [changeStructure] *)

Section ChangeStructure.
Variable mat : cv.Mat.
Variable L : nat.
Hypothesis HL : (0 < L)%nat.
Hypothesis Hcols : cv.cols mat = L.
Hypothesis Hcont : cv.isContinuous mat.
Hypothesis Halloc : cv.allocated mat.
Hypothesis Hint : Z.of_nat (cv.rows mat * cv.cols mat) ≤ INT_MAX.

Lemma data_length : length (cv.data mat) = (cv.rows mat * L)%nat.
Proof. unfold cv.allocated, cv.isContinuous in *. congruence. Qed.

Lemma chunk_length j :
  (j < cv.rows mat)%nat → length (chunk (cv.data mat) L j) = L.
Proof.
  intros Hj. unfold chunk. rewrite length_take, length_drop, data_length. nia.
Qed.

Lemma chunk_lookup j b :
  (b < L)%nat → chunk (cv.data mat) L j !! b = cv.data mat !! (j * L + b)%nat.
Proof.
  intros Hb. unfold chunk. by rewrite lookup_take_lt, lookup_drop by done.
Qed.

(** The loop of [changeStructure], from round [j] on. *)
Lemma total_int :
  int (Z.of_nat (cv.rows mat) * Z.of_nat (cv.cols mat))
  = Some (Z.of_nat (cv.rows mat * L)).
Proof.
  unfold int. rewrite decide_True by (unfold INT_MIN, INT_MAX in *; nia).
  f_equal. nia.
Qed.

Lemma changeStructure_loop_spec (n j fuel : nat) (out : list (list Z)) :
  (j + n = cv.rows mat)%nat → (n < fuel)%nat → length out = cv.rows mat →
  trainBRISK.changeStructure_loop fuel mat (Z.of_nat L)
    (Z.of_nat (j * L)) j out
  = Some (take j out ++ (chunk (cv.data mat) L <$> seq j n)).
Proof.
  revert j fuel out. induction n as [|n IH]; intros j fuel out Hj Hfuel Hout.
  - destruct fuel as [|fuel]; [lia|].
    cbn [trainBRISK.changeStructure_loop]. rewrite total_int.
    cbn [mbind option_bind].
    destruct (Z.ltb_spec (Z.of_nat (j * L)) (Z.of_nat (cv.rows mat * L)));
      [nia|].
    cbn [seq fmap list_fmap]. rewrite app_nil_r, take_ge by lia. done.
  - destruct fuel as [|fuel]; [lia|].
    cbn [trainBRISK.changeStructure_loop]. rewrite total_int.
    cbn [mbind option_bind].
    destruct (Z.ltb_spec (Z.of_nat (j * L)) (Z.of_nat (cv.rows mat * L)));
      [|nia].
    destruct (lookup_lt_is_Some_2 out j) as [out_j Hout_j]; [lia|].
    rewrite Hout_j. cbn [mbind option_bind].
    assert (trainBRISK.size_t (Z.of_nat L) = L) as ->.
    { unfold trainBRISK.size_t. rewrite Z.mod_small; [lia|].
      unfold INT_MAX in Hint. nia. }
    unfold trainBRISK.copy. rewrite length_resize.
    rewrite decide_True by (rewrite data_length; nia).
    cbn [mbind option_bind].
    replace (Z.to_nat (Z.of_nat (j * L) + Z.of_nat L - Z.of_nat (j * L)))
      with L by lia.
    rewrite Nat2Z.id.
    rewrite (drop_ge (resize L 0 out_j)) by (rewrite length_resize; lia).
    rewrite app_nil_r. fold (chunk (cv.data mat) L j).
    unfold vset. rewrite decide_True by lia. cbn [mbind option_bind].
    unfold int.
    rewrite decide_True by (unfold INT_MIN, INT_MAX in *; nia).
    cbn [mbind option_bind].
    replace (Z.of_nat (j * L) + Z.of_nat L) with (Z.of_nat (S j * L)) by lia.
    rewrite IH by (rewrite ?length_insert; lia).
    f_equal. cbn [seq fmap list_fmap].
    rewrite (take_S_r _ _ (chunk (cv.data mat) L j))
      by (apply list_lookup_insert_eq; lia).
    rewrite take_insert_ge by lia. by rewrite <-app_assoc.
Qed.

Lemma changeStructure_spec (out0 : list (list Z)) :
  trainBRISK.changeStructure mat out0 (Z.of_nat L)
  = Some (chunk (cv.data mat) L <$> seq 0 (cv.rows mat)).
Proof.
  unfold trainBRISK.changeStructure.
  change 0 with (Z.of_nat (0 * L)).
  rewrite (changeStructure_loop_spec (cv.rows mat))
    by (rewrite ?length_resize; lia).
  done.
Qed.

(** The copy of one row by [changeStructureBRISK]. *)
Lemma changeStructureBRISK_row (i : nat) (out_i : list Z) :
  (i < cv.rows mat)%nat → length out_i = L →
  foldM (λ out_i j,
           x ← cv.data mat !! (i * cv.step mat + j)%nat;
           vset out_i j x)
        out_i (seq 0 L)
  = Some (chunk (cv.data mat) L i).
Proof.
  intros Hi Hlen.
  assert (cv.step mat = L) as -> by (unfold cv.isContinuous in *; congruence).
  destruct (foldM_pointwise
              (λ j _, default 0 (cv.data mat !! (i * L + j)%nat))
              (λ out_i j, x ← cv.data mat !! (i * L + j)%nat; vset out_i j x)
              (seq 0 L) out_i) as (row & -> & Hl & Hin & _).
  - intros j s c Hj Hc. apply elem_of_seq in Hj.
    destruct (lookup_lt_is_Some_2 (cv.data mat) (i * L + j)) as [x Hx].
    { rewrite data_length. nia. }
    rewrite Hx. cbn [mbind option_bind default]. unfold vset.
    by rewrite decide_True by (by eapply lookup_lt_Some).
  - apply NoDup_seq.
  - intros j Hj. apply elem_of_seq in Hj. lia.
  - f_equal. apply list_eq. intros j.
    destruct (decide (j < L)%nat) as [Hj|Hj].
    + destruct (lookup_lt_is_Some_2 out_i j) as [c Hc]; [lia|].
      rewrite (Hin j c) by (done || apply elem_of_seq; lia).
      rewrite chunk_lookup by done.
      destruct (lookup_lt_is_Some_2 (cv.data mat) (i * L + j)) as [x Hx].
      { rewrite data_length. nia. }
      by rewrite Hx.
    + rewrite !lookup_ge_None_2; [done | rewrite chunk_length; lia | lia].
Qed.

Lemma changeStructureBRISK_spec (out0 : list (list Z)) :
  trainBRISK.changeStructureBRISK L mat out0
  = Some (chunk (cv.data mat) L <$> seq 0 (cv.rows mat)).
Proof.
  unfold trainBRISK.changeStructureBRISK.
  destruct (foldM_pointwise
              (λ i _, chunk (cv.data mat) L i)
              (λ out i,
                 out_i ← out !! i;
                 out_i ← foldM (λ out_i j,
                            x ← cv.data mat !! (i * cv.step mat + j)%nat;
                            vset out_i j x)
                         (resize L 0 out_i) (seq 0 L);
                 vset out i out_i)
              (seq 0 (cv.rows mat)) (resize (cv.rows mat) [] out0))
    as (out & -> & Hl & Hin & _).
  - intros i s c Hi Hc. apply elem_of_seq in Hi. rewrite Hc.
    cbn [mbind option_bind].
    rewrite changeStructureBRISK_row by (rewrite ?length_resize; lia).
    cbn [mbind option_bind]. unfold vset.
    by rewrite decide_True by (by eapply lookup_lt_Some).
  - apply NoDup_seq.
  - intros i Hi. apply elem_of_seq in Hi. rewrite length_resize. lia.
  - f_equal. rewrite length_resize in Hl. apply list_eq. intros i.
    destruct (decide (i < cv.rows mat)%nat) as [Hi|Hi].
    + destruct (lookup_lt_is_Some_2 (resize (cv.rows mat) [] out0) i)
        as [c Hc]; [rewrite length_resize; lia|].
      rewrite (Hin i c) by (done || apply elem_of_seq; lia).
      rewrite list_lookup_fmap, lookup_seq_lt by done. done.
    + rewrite !lookup_ge_None_2;
        [done | rewrite length_fmap, length_seq; lia | lia].
Qed.

End ChangeStructure.

(** C10. On a continuous byte matrix of [N] rows and [L] columns, both
    [changeStructure] and [changeStructureBRISK] produce [N] descriptors of
    [L] bytes, where byte [b] of descriptor [j] is the element of row [j]
    and column [b], which is element [j * L + b] of the buffer.  ([L] is a
    descriptor length, so positive, and the number of elements is an
    [int], as the loop counter of [changeStructure] is.) *)
Theorem changeStructure_descriptors (mat : cv.Mat) (L : nat)
    (out0 : list (list Z)) :
  (0 < L)%nat → cv.cols mat = L →
  cv.isContinuous mat → cv.allocated mat →
  Z.of_nat (cv.rows mat * cv.cols mat) ≤ INT_MAX →
  ∃ out,
    trainBRISK.changeStructure mat out0 (Z.of_nat L) = Some out
    ∧ trainBRISK.changeStructureBRISK L mat out0 = Some out
    ∧ length out = cv.rows mat
    ∧ ∀ j, (j < cv.rows mat)%nat →
        ∃ d, out !! j = Some d ∧ length d = L
          ∧ d = chunk (cv.data mat) L j
          ∧ ∀ b, (b < L)%nat →
              is_Some (d !! b) ∧ d !! b = cv.at_ mat j b.
Proof.
  intros HL Hcols Hcont Halloc Hint.
  exists (chunk (cv.data mat) L <$> seq 0 (cv.rows mat)).
  split_and!.
  - by apply changeStructure_spec.
  - by apply changeStructureBRISK_spec.
  - by rewrite length_fmap, length_seq.
  - intros j Hj. exists (chunk (cv.data mat) L j).
    rewrite list_lookup_fmap, lookup_seq_lt by done.
    split_and!; [done | by apply chunk_length | done |].
    intros b Hb. split.
    + apply lookup_lt_is_Some_2. rewrite chunk_length by done. done.
    + rewrite chunk_lookup by done. unfold cv.at_.
      unfold cv.isContinuous in Hcont. by rewrite Hcont, Hcols.
Qed.

Lemma changeStructure_descriptors_witness :
  (0 < 3)%nat ∧ cv.cols mat_2x3 = 3%nat
  ∧ cv.isContinuous mat_2x3 ∧ cv.allocated mat_2x3
  ∧ Z.of_nat (cv.rows mat_2x3 * cv.cols mat_2x3) ≤ INT_MAX
  ∧ ∃ out,
      trainBRISK.changeStructure mat_2x3 [[9]] (Z.of_nat 3) = Some out
      ∧ trainBRISK.changeStructureBRISK 3 mat_2x3 [[9]] = Some out
      ∧ length out = cv.rows mat_2x3
      ∧ ∀ j, (j < cv.rows mat_2x3)%nat →
          ∃ d, out !! j = Some d ∧ length d = 3%nat
            ∧ d = chunk (cv.data mat_2x3) 3 j
            ∧ ∀ b, (b < 3)%nat →
                is_Some (d !! b) ∧ d !! b = cv.at_ mat_2x3 j b.
Proof.
  assert (0 < 3)%nat as HL by lia.
  assert (cv.cols mat_2x3 = 3%nat) as Hcols by reflexivity.
  assert (cv.isContinuous mat_2x3) as Hcont by reflexivity.
  assert (cv.allocated mat_2x3) as Halloc by reflexivity.
  assert (Z.of_nat (cv.rows mat_2x3 * cv.cols mat_2x3) ≤ INT_MAX) as Hint
    by (vm_compute; discriminate).
  split_and!; [exact HL | exact Hcols | exact Hcont | exact Halloc | exact Hint |].
  exact (changeStructure_descriptors mat_2x3 3 [[9]] HL Hcols Hcont Halloc Hint).
Defined.

(** * The fast vocabulary loader *)

Example load_small :
  FastVocabularyLoader.load Z 0 plenty small_disk "voc.yml" []
  = ([FastVocabularyLoader.VisitNode 0; FastVocabularyLoader.VisitNode 1;
      FastVocabularyLoader.VisitWord 0; FastVocabularyLoader.VisitWord 1],
     FastVocabularyLoader.Ok
       (FastVocabularyLoader.mkLoaded Z
          [FastVocabularyLoader.mkNodeData Z 0 0 0 "";
           FastVocabularyLoader.mkNodeData Z 1 0 5 "9 ";
           FastVocabularyLoader.mkNodeData Z 2 0 0 "7 "]
          [(0, 2); (1, 1)])).
Proof. reflexivity. Qed.

Example load_missing :
  FastVocabularyLoader.load Z 0 plenty small_disk "none.yml" []
  = ([], FastVocabularyLoader.Throw
           (FastVocabularyLoader.std_string "Could not open file none.yml")).
Proof. reflexivity. Qed.

Example load_no_vocabulary :
  FastVocabularyLoader.load Z 0 plenty small_disk "empty.yml" []
  = ([], FastVocabularyLoader.Throw
           (FastVocabularyLoader.std_string
              "File does not contain 'vocabulary' node")).
Proof. reflexivity. Qed.

Example load_node_wraps :
  FastVocabularyLoader.load_node Z 0 plenty 1 0
    (FastVocabularyLoader.mkNodeRecord Z (-1) 0 0 "")
    [FastVocabularyLoader.mkNodeData Z 0 0 0 ""] []
  = ([FastVocabularyLoader.VisitNode 0], FastVocabularyLoader.Undefined).
Proof. reflexivity. Qed.

Example load_far_node :
  FastVocabularyLoader.load Z 0 room_for_64 (disk_of far_node) "voc.yml" []
  = ([FastVocabularyLoader.VisitNode 0],
     FastVocabularyLoader.Throw FastVocabularyLoader.std_bad_alloc).
Proof. reflexivity. Qed.

Example main_far_node :
  FastVocabularyLoader.main Z 0 room_for_64 (disk_of far_node)
    ["fast_load"%string; "voc.yml"%string] []
  = ([FastVocabularyLoader.VisitNode 0], FastVocabularyLoader.Ok 4).
Proof. reflexivity. Qed.

Section LoaderFacts.
Import FastVocabularyLoader.
Variable WordValue : Type.
Variable zero : WordValue.
Variable allocates : request → bool.

Local Abbreviation NodeRecord := (NodeRecord WordValue).
Local Abbreviation NodeData := (NodeData WordValue).

Lemma bind_ok {A B} (m : M A) (k : A → M B) log log' a :
  m log = (log', Ok a) → (m ≫= k) log = k a log'.
Proof. intros H. unfold mbind, M_bind, bind. by rewrite H. Qed.


Lemma allocate_ok (q : request) log :
  allocates q = true → allocate allocates q log = (log, Ok ()).
Proof. intros Hq. unfold allocate. by rewrite Hq. Qed.

(** A round of the node loop visits the record once and stores it. *)
Lemma load_node_ok (num_nodes count : nat) (r : NodeRecord)
    (nd : list NodeData) log :
  0 ≤ nodeId _ r ≤ INT_MAX →
  (∀ q, allocates q = true) →
  load_node WordValue zero allocates num_nodes count r nd log
  = (log ++ [VisitNode count], Ok (store zero nd r)).
Proof.
  intros Hid Hmem. unfold load_node, store.
  rewrite (bind_ok _ _ log (log ++ [VisitNode count]) ()) by done.
  rewrite (bind_ok _ _ _ _ _ (allocate_ok _ _ (Hmem _))).
  assert (uint32_t (nodeId _ r) = nodeId _ r) as Hnid
    by (unfold uint32_t, INT_MAX in *; apply Z.mod_small; lia).
  assert (uint32_t (nodeId _ r + 1) = nodeId _ r + 1) as Hnid1
    by (unfold uint32_t, INT_MAX in *; apply Z.mod_small; lia).
  rewrite Hnid, Hnid1.
  replace (Z.to_nat (nodeId _ r + 1)) with (S (Z.to_nat (nodeId _ r))) by lia.
  unfold entry_of. rewrite Hnid.
  destruct (decide (Z.of_nat (length nd) ≤ nodeId _ r)) as [Hle|Hgt].
  - rewrite decide_True by lia.
    erewrite bind_ok; last first.
    { unfold vector_resize. erewrite bind_ok; [reflexivity|].
      case_decide; [done | apply allocate_ok, Hmem]. }
    unfold vset.
    rewrite decide_True by (rewrite length_resize; lia). done.
  - rewrite decide_False by lia.
    erewrite bind_ok by reflexivity. unfold vset.
    rewrite decide_True by lia. done.
Qed.

Lemma for_each_nodes (num_nodes : nat) (rs : list NodeRecord) (count : nat)
    (nd : list NodeData) log :
  Forall (λ r, 0 ≤ nodeId _ r ≤ INT_MAX) rs →
  (∀ q, allocates q = true) →
  for_each (load_node WordValue zero allocates num_nodes) rs count nd log
  = (log ++ (VisitNode <$> seq count (length rs)),
     Ok (foldl (store zero) nd rs)).
Proof.
  intros Hrs Hmem. revert count nd log.
  induction Hrs as [|r rs Hr Hrs IH]; intros count nd log.
  { simpl. unfold ret. by rewrite app_nil_r. }
  cbn [for_each].
  rewrite (bind_ok _ _ _ _ _ (load_node_ok num_nodes count r nd log Hr Hmem)).
  rewrite IH. cbn [length seq fmap list_fmap foldl].
  by rewrite <-app_assoc.
Qed.

Lemma for_each_words (ws : list WordRecord) (count : nat)
    (wd : list (Z * Z)) log :
  for_each load_word ws count wd log
  = (log ++ (VisitWord <$> seq count (length ws)),
     Ok (wd ++ (pair_of <$> ws))).
Proof.
  revert count wd log. induction ws as [|w ws IH]; intros count wd log.
  { simpl. unfold ret. by rewrite !app_nil_r. }
  cbn [for_each].
  rewrite (bind_ok _ _ log (log ++ [VisitWord count]) (wd ++ [pair_of w]))
    by done.
  rewrite IH. cbn [length seq fmap list_fmap].
  by rewrite <-!app_assoc.
Qed.




Lemma store_lookup (nd : list NodeData) (r : NodeRecord) :
  store zero nd r !! Z.to_nat (nodeId _ r) = Some (entry_of r).
Proof.
  unfold store. apply list_lookup_insert_eq.
  case_decide; [rewrite length_resize|]; lia.
Qed.

Lemma store_lookup_ne (nd : list NodeData) (r : NodeRecord) (n : nat) x :
  n ≠ Z.to_nat (nodeId _ r) → nd !! n = Some x →
  store zero nd r !! n = Some x.
Proof.
  intros Hne Hx. unfold store.
  rewrite list_lookup_insert_ne by done.
  case_decide; [|done].
  apply lookup_lt_Some in Hx as Hn.
  by rewrite lookup_resize by lia.
Qed.

Lemma foldl_store_keeps (rs : list NodeRecord) (nd : list NodeData) n x :
  (∀ r, r ∈ rs → Z.to_nat (nodeId _ r) ≠ n) → nd !! n = Some x →
  foldl (store zero) nd rs !! n = Some x.
Proof.
  revert nd. induction rs as [|r rs IH]; intros nd Hrs Hx; [done|].
  cbn [foldl]. apply IH.
  - intros ??. apply Hrs. by right.
  - apply store_lookup_ne; [|done]. intros ->. by eapply Hrs; [left|].
Qed.

(** What [load] gives on a file that opens and holds a vocabulary, when no
    allocation is refused. *)
Lemma load_runs (disk : string → option (FileStorage WordValue))
    (filename : string) fs fvoc :
  disk filename = Some fs → vocabulary _ fs = Some fvoc →
  Forall (λ r, 0 ≤ nodeId _ r ≤ INT_MAX) (nodes _ fvoc) →
  (∀ q, allocates q = true) →
  load WordValue zero allocates disk filename []
  = ((VisitNode <$> seq 0 (length (nodes _ fvoc)))
     ++ (VisitWord <$> seq 0 (length (words _ fvoc))),
     Ok (mkLoaded _ (foldl (store zero) [blank_entry zero] (nodes _ fvoc))
                  (pair_of <$> words _ fvoc))).
Proof.
  intros Hfs Hvoc Hids Hmem. unfold load. rewrite Hfs, Hvoc.
  rewrite (bind_ok _ _ _ _ _ (allocate_ok _ _ (Hmem _))).
  erewrite bind_ok by (by apply for_each_nodes).
  erewrite bind_ok; last first.
  { case_decide; [reflexivity | apply allocate_ok, Hmem]. }
  erewrite bind_ok by apply for_each_words.
  unfold ret. rewrite app_nil_l. reflexivity.
Qed.


End LoaderFacts.

(** C5. [FastVocabularyLoader::load] makes a single pass over the node list
    and a single pass over the word list: the log of the visits is every
    node position once, in order, and then every word position once, in
    order.  The round that visits a record stores its id, parent, weight and
    descriptor string at index [nid] of the node array, and the record is
    there when [load] returns unless a later record has the same id.  (The
    ids are those of nodes: non-negative [int]s; the run is one where the
    allocator refuses nothing, whatever the sizes are.) *)
Theorem load_single_pass (WordValue : Type) (zero : WordValue)
    (allocates : FastVocabularyLoader.request → bool)
    (disk : string → option (FastVocabularyLoader.FileStorage WordValue))
    (filename : string) fs fvoc :
  disk filename = Some fs →
  FastVocabularyLoader.vocabulary _ fs = Some fvoc →
  Forall (λ r, 0 ≤ FastVocabularyLoader.nodeId _ r ≤ INT_MAX)
         (FastVocabularyLoader.nodes _ fvoc) →
  (∀ q, allocates q = true) →
  ∃ ld,
    FastVocabularyLoader.load WordValue zero allocates disk filename []
    = ((FastVocabularyLoader.VisitNode
          <$> seq 0 (length (FastVocabularyLoader.nodes _ fvoc)))
       ++ (FastVocabularyLoader.VisitWord
             <$> seq 0 (length (FastVocabularyLoader.words _ fvoc))),
       FastVocabularyLoader.Ok ld)
    ∧ FastVocabularyLoader.word_data _ ld
      = pair_of <$> FastVocabularyLoader.words _ fvoc
    ∧ ∀ pre r post,
        FastVocabularyLoader.nodes _ fvoc = pre ++ r :: post →
        (∀ nd log, ∃ nd',
           FastVocabularyLoader.load_node WordValue zero allocates
             (length (FastVocabularyLoader.nodes _ fvoc)) (length pre) r nd log
           = (log ++ [FastVocabularyLoader.VisitNode (length pre)],
              FastVocabularyLoader.Ok nd')
           ∧ nd' !! Z.to_nat (FastVocabularyLoader.id _ (entry_of r))
             = Some (entry_of r))
        ∧ ((∀ r', r' ∈ post →
              FastVocabularyLoader.nodeId _ r' ≠ FastVocabularyLoader.nodeId _ r) →
           FastVocabularyLoader.node_data _ ld
             !! Z.to_nat (FastVocabularyLoader.id _ (entry_of r))
           = Some (entry_of r)).
Proof.
  intros Hfs Hvoc Hids Hmem.
  assert (∀ r, r ∈ FastVocabularyLoader.nodes _ fvoc →
            0 ≤ FastVocabularyLoader.nodeId _ r ≤ INT_MAX
            ∧ FastVocabularyLoader.id _ (entry_of r)
              = FastVocabularyLoader.nodeId _ r) as Hid.
  { intros r Hr. rewrite list.Forall_forall in Hids.
    specialize (Hids r Hr). split; [done|].
    unfold entry_of, uint32_t, INT_MAX in *. cbn. apply Z.mod_small. lia. }
  eexists. split_and!.
  - exact (load_runs WordValue zero allocates disk filename fs fvoc
             Hfs Hvoc Hids Hmem).
  - done.
  - intros pre r post Hsplit.
    destruct (Hid r) as [Hr Hidr].
    { rewrite Hsplit. apply elem_of_app. right. by left. }
    rewrite Hidr. split.
    + intros nd log. eexists. split; [by apply load_node_ok|].
      apply store_lookup.
    + intros Hlater. cbn [FastVocabularyLoader.node_data].
      rewrite Hsplit, foldl_app. cbn [foldl].
      apply foldl_store_keeps; [|apply store_lookup].
      intros r' Hr' Heq. apply (Hlater r' Hr').
      destruct (Hid r') as [Hr'id _].
      { rewrite Hsplit. apply elem_of_app. right. by right. }
      lia.
Qed.

Lemma load_single_pass_witness :
  small_disk "voc.yml" = Some small_file
  ∧ FastVocabularyLoader.vocabulary _ small_file
    = Some (FastVocabularyLoader.mkVocabularyNode Z 2 1 0 0 two_nodes
              [FastVocabularyLoader.mkWordRecord 0 2;
               FastVocabularyLoader.mkWordRecord 1 1])
  ∧ Forall (λ r, 0 ≤ FastVocabularyLoader.nodeId _ r ≤ INT_MAX) two_nodes
  ∧ (∀ q, plenty q = true)
  ∧ ∃ ld,
      FastVocabularyLoader.load Z 0 plenty small_disk "voc.yml" []
      = ((FastVocabularyLoader.VisitNode <$> seq 0 (length two_nodes))
         ++ (FastVocabularyLoader.VisitWord <$> seq 0 2),
         FastVocabularyLoader.Ok ld)
      ∧ FastVocabularyLoader.word_data _ ld = [(0, 2); (1, 1)]
      ∧ ∀ pre r post,
          two_nodes = pre ++ r :: post →
          (∀ nd log, ∃ nd',
             FastVocabularyLoader.load_node Z 0 plenty (length two_nodes)
               (length pre) r nd log
             = (log ++ [FastVocabularyLoader.VisitNode (length pre)],
                FastVocabularyLoader.Ok nd')
             ∧ nd' !! Z.to_nat (FastVocabularyLoader.id _ (entry_of r))
               = Some (entry_of r))
          ∧ ((∀ r', r' ∈ post →
                FastVocabularyLoader.nodeId _ r'
                ≠ FastVocabularyLoader.nodeId _ r) →
             FastVocabularyLoader.node_data _ ld
               !! Z.to_nat (FastVocabularyLoader.id _ (entry_of r))
             = Some (entry_of r)).
Proof.
  assert (small_disk "voc.yml" = Some small_file) as Hfs by reflexivity.
  assert (Forall (λ r, 0 ≤ FastVocabularyLoader.nodeId _ r ≤ INT_MAX)
                 two_nodes) as Hids.
  { repeat constructor; vm_compute; discriminate. }
  assert (∀ q, plenty q = true) as Hmem by reflexivity.
  split_and!; [exact Hfs | reflexivity | exact Hids | exact Hmem |].
  exact (load_single_pass Z 0 plenty small_disk "voc.yml" small_file _
           Hfs eq_refl Hids Hmem).
Defined.



(** * The vocabulary tree *)

Example create_two_images :
  TemplatedVocabulary.create Z 0 split_first_bit Z.of_nat 2 2
    TemplatedVocabulary.TF_IDF TemplatedVocabulary.L1 two_images
  = Some two_images_vocabulary.
Proof. vm_compute. reflexivity. Qed.

Example transform_one_two_images :
  (V ← TemplatedVocabulary.create Z 0 split_first_bit Z.of_nat 2 2
         TemplatedVocabulary.TF_IDF TemplatedVocabulary.L1 two_images;
   TemplatedVocabulary.transform_one Z V (true, true))
  = Some (2%nat, 2).
Proof. vm_compute. reflexivity. Qed.

Example load_save_two_images :
  (V ← TemplatedVocabulary.create Z 0 split_first_bit Z.of_nat 2 2
         TemplatedVocabulary.TF_IDF TemplatedVocabulary.L1 two_images;
   V' ← TemplatedVocabulary.load Z 0 (TemplatedVocabulary.save Z V);
   TemplatedVocabulary.transform_one Z V' (true, true))
  = Some (2%nat, 2).
Proof. vm_compute. reflexivity. Qed.

Lemma filter_ext_in {A : Type} (P Q : A → Prop)
    `{!∀ x, Decision (P x), !∀ x, Decision (Q x)} (l : list A) :
  (∀ x, x ∈ l → P x ↔ Q x) → filter P l = filter Q l.
Proof.
  induction l as [|x l IH]; intros Hext; [done|].
  rewrite !filter_cons.
  rewrite IH by (intros ??; apply Hext; by right).
  destruct (decide (P x)) as [HP|HP], (decide (Q x)) as [HQ|HQ]; try done.
  - destruct HQ. by apply (Hext x); [left|].
  - destruct HP. by apply (Hext x); [left|].
Qed.

Section VocabularyFacts.
Import TemplatedVocabulary.
Context {D R : Type} `{!Descriptor D R}.
Variable W : Type.
Variable zero : W.
Variable kmeans : list D → list (D * list D).
Variable leaf_weight : nat → W.

Local Abbreviation Node := (Node (D:=D) W).
Local Abbreviation tree := (tree W zero).
Local Abbreviation kids := (kids W).

Implicit Types (nodes : list Node) (n : Node).

Lemma kids_S nodes i j :
  kids nodes i (S j)
  = kids nodes i j
    ++ (if decide (parent W <$> nodes !! S j = Some i) then [S j] else []).
Proof.
  unfold TemplatedVocabulary.kids.
  rewrite (seq_S j 1), list.filter_app.
  rewrite (filter_cons _ (1 + j)%nat []), filter_nil. simpl Nat.add.
  by destruct (decide (parent W <$> nodes !! S j = Some i)).
Qed.

Lemma kids_ext nodes nodes' i j :
  (∀ c, (1 ≤ c ≤ j)%nat → parent W <$> nodes !! c = parent W <$> nodes' !! c) →
  kids nodes i j = kids nodes' i j.
Proof.
  intros Hext. unfold TemplatedVocabulary.kids. apply filter_ext_in.
  intros c Hc. apply elem_of_seq in Hc. rewrite Hext by lia. done.
Qed.

(** A node has no child before itself. *)
Lemma kids_above nodes i j :
  (∀ c n, nodes !! c = Some n → (0 < c)%nat → (parent W n < c)%nat) →
  (j ≤ i)%nat → kids nodes i j = [].
Proof.
  intros Hparent. induction j as [|j IH]; intros Hj; [done|].
  rewrite kids_S, IH by lia.
  destruct (decide _) as [Hp|Hp]; [|done].
  destruct (nodes !! S j) as [n|] eqn:Hn; [|done].
  injection Hp as Hp. specialize (Hparent (S j) n Hn). lia.
Qed.

Lemma lookup_add_child p d nodes i :
  add_child W zero p d nodes !! i
  = if decide (i = length nodes) then Some (new_node W zero i p d)
    else if decide (i = p) then add_child_id W (length nodes) <$> nodes !! i
    else nodes !! i.
Proof.
  unfold add_child.
  destruct (decide (i = length nodes)) as [->|Hne].
  - rewrite lookup_app_r by (by rewrite length_alter).
    by rewrite length_alter, Nat.sub_diag.
  - destruct (decide (i < length nodes)%nat) as [Hlt|Hge].
    + rewrite lookup_app_l by (by rewrite length_alter).
      destruct (decide (i = p)) as [->|Hp].
      * apply list_lookup_alter_eq.
      * by apply list_lookup_alter_ne.
    + rewrite !lookup_ge_None_2;
        [by repeat case_decide | lia |
         rewrite length_app, length_alter; simpl; lia].
Qed.

Lemma length_add_child p d nodes :
  length (add_child W zero p d nodes) = S (length nodes).
Proof. unfold add_child. rewrite length_app, length_alter. simpl. lia. Qed.

Lemma parent_add_child p d nodes i :
  parent W <$> add_child W zero p d nodes !! i
  = if decide (i = length nodes) then Some p else parent W <$> nodes !! i.
Proof.
  rewrite lookup_add_child. repeat case_decide; try done.
  by destruct (nodes !! i).
Qed.

(** The node array stays that of a tree when a child is added. *)
Lemma add_child_tree p d nodes :
  tree nodes → (p < length nodes)%nat → tree (add_child W zero p d nodes).
Proof.
  intros [Hroot Hid Hparent Hchildren Hword] Hp.
  assert (∀ i, kids (add_child W zero p d nodes) i (length nodes)
               = kids nodes i (length nodes - 1)
                 ++ (if decide (p = i) then [length nodes] else []))
    as Hkids.
  { intros i. assert (∃ c, length nodes = S c) as [c Hc]
      by (exists (length nodes - 1)%nat; lia).
    rewrite Hc, kids_S. simpl. rewrite Nat.sub_0_r. f_equal.
    - apply kids_ext. intros j Hj.
      rewrite parent_add_child. by rewrite decide_False by lia.
    - rewrite parent_add_child.
      rewrite (decide_True (P := S c = length nodes)) by done.
      repeat case_decide; congruence. }
  split.
  - destruct Hroot as [cs Hroot]. rewrite lookup_add_child.
    rewrite decide_False by lia.
    case_decide as Hp0; [subst p; rewrite Hroot; by eexists | by eexists].
  - intros i n. rewrite lookup_add_child.
    repeat case_decide; try (by intros [= <-]); [|by apply Hid].
    destruct (nodes !! i) as [m|] eqn:Hm; [|done].
    intros [= <-]. by apply (Hid i m).
  - intros i n. rewrite lookup_add_child.
    repeat case_decide; try (intros [= <-]; simpl; lia); [|by apply Hparent].
    destruct (nodes !! i) as [m|] eqn:Hm; [|done].
    intros [= <-]. by apply (Hparent i m).
  - intros i n. rewrite length_add_child. simpl. rewrite Nat.sub_0_r.
    rewrite Hkids, lookup_add_child.
    case_decide as Hi; [|case_decide as Hip].
    + intros [= <-]. simpl. subst i.
      rewrite decide_False by lia. rewrite app_nil_r.
      symmetry. apply kids_above; [done | lia].
    + destruct (nodes !! i) as [m|] eqn:Hm; [|done].
      intros [= <-]. simpl. rewrite decide_True by done.
      by rewrite (Hchildren i m).
    + intros Hn. rewrite decide_False by done. rewrite app_nil_r.
      by apply Hchildren.
  - intros i n. rewrite lookup_add_child.
    repeat case_decide; try (by intros [= <-]); [|by apply Hword].
    destruct (nodes !! i) as [m|] eqn:Hm; [|done].
    intros [= <-]. by apply (Hword i m).
Qed.

(** It stays that of a tree when the descriptor or the weight of a node
    below the root changes. *)
Lemma alter_tree (g : Node → Node) i nodes :
  tree nodes → (0 < i)%nat →
  (∀ n, id W (g n) = id W n ∧ parent W (g n) = parent W n
        ∧ children W (g n) = children W n ∧ word_id W (g n) = word_id W n) →
  tree (alter g i nodes).
Proof.
  intros [Hroot Hid Hparent Hchildren Hword] Hi Hg.
  assert (∀ j, parent W <$> alter g i nodes !! j = parent W <$> nodes !! j)
    as Hpar.
  { intros j. destruct (decide (i = j)) as [->|Hne].
    - rewrite list_lookup_alter_eq. destruct (nodes !! j) as [m|]; [|done].
      simpl. f_equal. apply Hg.
    - by rewrite list_lookup_alter_ne. }
  assert (∀ j n, alter g i nodes !! j = Some n →
            ∃ m, nodes !! j = Some m ∧ id W n = id W m
                 ∧ parent W n = parent W m ∧ children W n = children W m
                 ∧ word_id W n = word_id W m) as Hlook.
  { intros j n. destruct (decide (i = j)) as [->|Hne].
    - rewrite list_lookup_alter_eq. destruct (nodes !! j) as [m|]; [|done].
      intros [= <-]. exists m. split; [done|]. apply Hg.
    - rewrite list_lookup_alter_ne by done. intros Hn. by exists n. }
  split.
  - destruct Hroot as [cs Hroot]. exists cs.
    by rewrite list_lookup_alter_ne by lia.
  - intros j n Hn. destruct (Hlook j n Hn) as (m & Hm & -> & _).
    by apply (Hid j m).
  - intros j n Hn. destruct (Hlook j n Hn) as (m & Hm & _ & -> & _).
    by apply (Hparent j m).
  - intros j n Hn. destruct (Hlook j n Hn) as (m & Hm & _ & _ & -> & _).
    rewrite length_alter, (Hchildren j m Hm). by apply kids_ext.
  - intros j n Hn. destruct (Hlook j n Hn) as (m & Hm & _ & _ & _ & ->).
    by apply (Hword j m).
Qed.

(** The recursion of [create] builds the node array of a tree. *)
Lemma cluster_tree k levels node descriptors nodes :
  tree nodes → (node < length nodes)%nat →
  (levels = 0%nat → 0 < node)%nat →
  tree (cluster W zero kmeans k levels node descriptors nodes)
  ∧ (length nodes
     ≤ length (cluster W zero kmeans k levels node descriptors nodes))%nat.
Proof.
  revert node descriptors nodes.
  induction levels as [|levels IH]; intros node descriptors nodes Ht Hnode H0.
  { cbn [cluster]. rewrite length_alter. split; [|done].
    apply alter_tree; [done | by apply H0 | done]. }
  cbn [cluster]. case_decide as Hk.
  - clear Hk. revert nodes Ht Hnode.
    induction descriptors as [|d ds IHds]; intros nodes Ht Hnode; [done|].
    cbn [foldl].
    destruct (IHds (add_child W zero node d nodes)) as [Ht' Hlen'].
    + by apply add_child_tree.
    + rewrite length_add_child. lia.
    + split; [done|]. rewrite length_add_child in Hlen'. lia.
  - clear Hk. revert nodes Ht Hnode.
    induction (kmeans descriptors) as [|cl cls IHcls]; intros nodes Ht Hnode;
      [done|].
    cbn [foldl].
    destruct (IH (length nodes) cl.2 (add_child W zero node cl.1 nodes))
      as [Ht1 Hlen1].
    + by apply add_child_tree.
    + rewrite length_add_child. lia.
    + lia.
    + rewrite length_add_child in Hlen1.
      destruct (IHcls (cluster W zero kmeans k levels (length nodes) cl.2
                         (add_child W zero node cl.1 nodes)))
        as [Ht' Hlen']; [done | lia |].
      split; [done | lia].
Qed.

Lemma length_set_weights ws nodes :
  length (set_weights W leaf_weight ws nodes) = length nodes.
Proof.
  unfold set_weights. generalize (imap pair ws). intros l. revert nodes.
  induction l as [|wi l IH]; intros nodes; [done|].
  cbn [foldl]. by rewrite IH, length_alter.
Qed.

Lemma set_weights_tree ws nodes :
  tree nodes → Forall (λ j, 0 < j)%nat ws →
  tree (set_weights W leaf_weight ws nodes).
Proof.
  unfold set_weights. intros Ht Hws.
  assert (Forall (λ wi : nat * nat, 0 < wi.2)%nat (imap pair ws)) as Hl.
  { apply list.Forall_forall. intros [w j] Hwj.
    apply elem_of_lookup_imap in Hwj as (i & x & [= -> ->] & Hx).
    rewrite list.Forall_forall in Hws. apply Hws.
    by eapply list_elem_of_lookup_2. }
  clear Hws. revert nodes Ht.
  induction Hl as [|wi l Hwi Hl IH]; intros nodes Ht; [done|].
  cbn [foldl]. apply IH. by apply alter_tree.
Qed.

Lemma leaves_below_root nodes : Forall (λ j, 0 < j)%nat (leaves W nodes).
Proof.
  apply list.Forall_forall. intros j Hj. unfold leaves in Hj.
  apply list_elem_of_filter in Hj as [_ Hj]. apply elem_of_seq in Hj. lia.
Qed.

Lemma leaves_in_range nodes :
  Forall (λ j, j < length nodes)%nat (leaves W nodes).
Proof.
  apply list.Forall_forall. intros j Hj. unfold leaves in Hj.
  apply list_elem_of_filter in Hj as [_ Hj]. apply elem_of_seq in Hj. lia.
Qed.

Lemma update_in_range i (f : Node → Node) nodes :
  (i < length nodes)%nat → update W i f nodes = Some (alter f i nodes).
Proof.
  intros Hi. unfold update.
  by destruct (lookup_lt_is_Some_2 nodes i Hi) as [n ->].
Qed.

Lemma length_loaded_prefix nodes j :
  length (loaded_prefix W zero nodes j) = length nodes.
Proof. apply length_imap. Qed.

(** Before the first record, the array is as [load] allocates it. *)
Lemma loaded_prefix_0 nodes :
  tree nodes →
  loaded_prefix W zero nodes 0
  = (λ _, new_node W zero 0 0 unset) <$> seq 0 (length nodes).
Proof.
  intros [[cs Hroot] _ _ _ _]. apply list_eq. intros i.
  unfold loaded_prefix. rewrite list_lookup_imap, list_lookup_fmap.
  destruct (nodes !! i) as [n|] eqn:Hn.
  - rewrite lookup_seq_lt by (by eapply lookup_lt_Some). simpl.
    case_decide as Hi; [|done].
    assert (i = 0)%nat as -> by lia. rewrite Hroot in Hn. by injection Hn as <-.
  - rewrite lookup_seq_ge by (by apply lookup_ge_None). done.
Qed.

(** After the last record, it is the node array that was saved. *)
Lemma loaded_prefix_all nodes :
  tree nodes → loaded_prefix W zero nodes (length nodes - 1) = nodes.
Proof.
  intros [_ _ _ Hchildren Hword]. apply list_eq. intros i.
  unfold loaded_prefix. rewrite list_lookup_imap.
  destruct (nodes !! i) as [n|] eqn:Hn; [|done]. simpl.
  apply lookup_lt_Some in Hn as Hi. rewrite decide_True by lia.
  rewrite <-(Hchildren i n Hn), <-(Hword i n Hn). by destruct n.
Qed.

(** Reading the record of node [S j] takes the array from [j] records to
    [S j] records. *)
Lemma load_record_step nodes j c :
  tree nodes → nodes !! S j = Some c →
  load_record W (loaded_prefix W zero nodes j) (record_of W c)
  = Some (loaded_prefix W zero nodes (S j)).
Proof.
  intros [_ Hid Hparent _ _] Hc.
  apply lookup_lt_Some in Hc as Hj.
  pose proof (Hid _ _ Hc) as Hidc.
  pose proof (Hparent _ _ Hc) as Hp. specialize (Hp ltac:(lia)).
  unfold load_record. cbn [record_of node_id parent_id r_weight
                           descriptor_string].
  rewrite update_in_range by (rewrite length_loaded_prefix; lia).
  cbn [mbind option_bind].
  rewrite update_in_range
    by (rewrite length_alter, length_loaded_prefix; lia).
  f_equal. apply list_eq. intros i.
  rewrite !list_lookup_alter. unfold loaded_prefix.
  rewrite !list_lookup_imap, from_to_string, Hidc, Hc.
  assert (parent W <$> nodes !! S j = Some (parent W c)) as Hpc
    by (by rewrite Hc).
  destruct (decide (parent W c = i)) as [<-|Hpi].
  - rewrite decide_False by lia.
    destruct (nodes !! parent W c) as [m|] eqn:Hm; [|done].
    cbn [fmap option_fmap option_map].
    rewrite !decide_True by lia. unfold add_child_id.
    cbn [id parent children descriptor weight word_id].
    by rewrite kids_S, Hpc, decide_True by done.
  - destruct (decide (S j = i)) as [<-|Hji].
    + rewrite Hc. cbn [fmap option_fmap option_map].
      rewrite decide_False by lia. rewrite decide_True by lia.
      cbn [id parent children descriptor weight word_id].
      rewrite kids_S, Hpc. rewrite decide_False by (intros [=]; lia).
      by rewrite app_nil_r, Hidc.
    + destruct (nodes !! i) as [m|] eqn:Hm; [|done].
      cbn [fmap option_fmap option_map].
      rewrite kids_S, Hpc.
      rewrite (decide_False (P := Some (parent W c) = Some i))
        by (intros [=]; lia).
      rewrite app_nil_r. by repeat case_decide; try lia.
Qed.

Lemma load_records nodes m j :
  tree nodes → (j + m = length nodes - 1)%nat → (0 < length nodes)%nat →
  foldM (load_record W) (loaded_prefix W zero nodes j)
        (record_of W <$> take m (drop (S j) nodes))
  = Some (loaded_prefix W zero nodes (j + m)).
Proof.
  intros Ht. revert j. induction m as [|m IH]; intros j Hj Hlen.
  { simpl. by rewrite Nat.add_0_r. }
  destruct (lookup_lt_is_Some_2 nodes (S j)) as [c Hc]; [lia|].
  rewrite (drop_S _ _ _ Hc). cbn [take fmap list_fmap].
  rewrite foldM_cons, (load_record_step _ _ _ Ht Hc).
  cbn [mbind option_bind]. rewrite IH by lia. f_equal. f_equal. lia.
Qed.

Lemma load_word_step nodes (words : list nat) w x :
  (x < length nodes)%nat → (w < length words)%nat →
  load_word W (nodes, words) (w, x)
  = Some (alter (set_word_id W w) x nodes, <[w := x]> words).
Proof.
  intros Hx Hw. unfold load_word. cbn [fst snd].
  rewrite update_in_range by done. cbn [mbind option_bind].
  unfold vset. by rewrite decide_True by done.
Qed.

(** The loop over the word records. *)
Lemma load_words (rest pre : list nat) nodes :
  Forall (λ j, j < length nodes)%nat rest →
  foldM (load_word W) (nodes, pre ++ replicate (length rest) 0%nat)
        (imap (λ i x, (length pre + i, x)%nat) rest)
  = Some (foldl (λ nodes wi, alter (set_word_id W wi.1) wi.2 nodes) nodes
                (imap (λ i x, (length pre + i, x)%nat) rest),
          pre ++ rest).
Proof.
  intros Hrest. revert pre nodes Hrest.
  induction rest as [|x rest IH]; intros pre nodes Hrest.
  { simpl. by rewrite app_nil_r. }
  apply list.Forall_cons in Hrest as [Hx Hrest].
  rewrite imap_cons, foldM_cons.
  rewrite load_word_step
    by (done || rewrite length_app; cbn [length replicate]; lia).
  cbn [mbind option_bind foldl fst snd].
  rewrite insert_app_r.
  assert (<[0%nat:=x]> (replicate (length (x :: rest)) 0%nat)
          = x :: replicate (length rest) 0%nat) as -> by done.
  replace (pre ++ x :: replicate (length rest) 0%nat)
    with ((pre ++ [x]) ++ replicate (length rest) 0%nat)
    by (by rewrite <-app_assoc).
  assert (imap ((λ i x0, (length pre + i, x0)%nat) ∘ S) rest
          = imap (λ i x0, (length (pre ++ [x]) + i, x0)%nat) rest) as ->.
  { apply imap_ext. intros i y _. simpl. rewrite length_app. simpl.
    f_equal. lia. }
  rewrite IH by (by rewrite length_alter).
  by rewrite <-app_assoc.
Qed.

Lemma fmap_alter_same {B : Type} (f : Node → B) (g : Node → Node) i nodes :
  (∀ n, f (g n) = f n) → f <$> alter g i nodes = f <$> nodes.
Proof.
  intros Hfg. apply list_eq. intros j.
  rewrite !list_lookup_fmap, list_lookup_alter.
  case_decide; [subst|done]. destruct (nodes !! j); simpl; [|done].
  by rewrite Hfg.
Qed.

Lemma set_word_ids_records ws nodes :
  record_of W <$> set_word_ids W ws nodes = record_of W <$> nodes.
Proof.
  unfold set_word_ids. generalize (imap pair ws). intros l. revert nodes.
  induction l as [|wi l IH]; intros nodes; [done|].
  cbn [foldl]. rewrite IH. by apply fmap_alter_same.
Qed.

Lemma length_set_word_ids ws nodes :
  length (set_word_ids W ws nodes) = length nodes.
Proof.
  unfold set_word_ids. generalize (imap pair ws). intros l. revert nodes.
  induction l as [|wi l IH]; intros nodes; [done|].
  cbn [foldl]. by rewrite IH, length_alter.
Qed.

(** Loading what was saved gives the vocabulary back, when the word ids
    were assigned to the node array of a tree. *)
Lemma load_save k L weighting scoring nodes ws :
  tree nodes → Forall (λ j, j < length nodes)%nat ws →
  load W zero
    (save W (mkVocabulary W k L weighting scoring
               (set_word_ids W ws nodes) ws))
  = Some (mkVocabulary W k L weighting scoring
            (set_word_ids W ws nodes) ws).
Proof.
  intros Ht Hws.
  assert (0 < length nodes)%nat as Hlen.
  { destruct Ht as [[cs Hroot] _ _ _ _]. by eapply lookup_lt_Some. }
  unfold load, save.
  cbn [r_nodes r_words r_k r_L weighting_id scoring_id
       TemplatedVocabulary.nodes TemplatedVocabulary.words
       TemplatedVocabulary.k TemplatedVocabulary.L
       TemplatedVocabulary.weighting TemplatedVocabulary.scoring].
  rewrite fmap_drop, set_word_ids_records, <-fmap_drop.
  rewrite length_fmap, length_drop.
  replace (S (length nodes - 1)) with (length nodes) by lia.
  rewrite <-loaded_prefix_0 by done.
  rewrite <-(take_ge (drop 1 nodes) (length nodes - 1))
    by (rewrite length_drop; lia).
  rewrite (load_records nodes (length nodes - 1) 0) by (done || lia).
  cbn [mbind option_bind]. simpl Nat.add.
  rewrite loaded_prefix_all by done.
  rewrite length_imap.
  pose proof (load_words ws [] nodes Hws) as Hwords.
  cbn [app length] in Hwords.
  change (imap (λ i x, ((0 + i)%nat, x)) ws) with (imap pair ws) in Hwords.
  rewrite Hwords. done.
Qed.

Lemma root_tree : tree [new_node W zero 0 0 unset].
Proof.
  split.
  - by exists [].
  - by intros [|i] n; [intros [= <-]|].
  - intros [|i] n; [lia | done].
  - by intros [|i] n; [intros [= <-]|].
  - by intros [|i] n; [intros [= <-]|].
Qed.

(** What [create] builds is read back by [load] from what [save] writes. *)
Lemma create_load_save k L weighting scoring training_features V :
  (1 ≤ L)%nat →
  create W zero kmeans leaf_weight k L weighting scoring training_features
  = Some V →
  load W zero (save W V) = Some V.
Proof.
  intros HL. unfold create.
  destruct (concat training_features) as [|d pool]; [done|].
  intros [= <-].
  destruct (cluster_tree k L 0 (d :: pool) [new_node W zero 0 0 unset])
    as [Ht Hlen]; [apply root_tree | simpl; lia | lia |].
  apply load_save.
  - apply set_weights_tree; [done | apply leaves_below_root].
  - rewrite length_set_weights. apply leaves_in_range.
Qed.

(** In the node array of a tree the children of a node come after it. *)
Lemma tree_children_after nodes : tree nodes → children_after W nodes.
Proof.
  intros [_ _ Hparent Hchildren _] i n c Hn Hc.
  rewrite (Hchildren i n Hn) in Hc. unfold TemplatedVocabulary.kids in Hc.
  apply list_elem_of_filter in Hc as [Hp Hc]. apply elem_of_seq in Hc.
  destruct (nodes !! c) as [m|] eqn:Hm; [|done]. injection Hp as Hp.
  specialize (Hparent c m Hm). lia.
Qed.

Lemma set_word_ids_children_after ws nodes :
  children_after W nodes → children_after W (set_word_ids W ws nodes).
Proof.
  intros Hafter i n c Hn Hc. rewrite length_set_word_ids.
  assert (children W <$> set_word_ids W ws nodes = children W <$> nodes)
    as Heq.
  { unfold set_word_ids. generalize (imap pair ws). intros l.
    clear. revert nodes. induction l as [|wi l IH]; intros nodes; [done|].
    cbn [foldl]. rewrite IH. by apply fmap_alter_same. }
  assert ((children W <$> set_word_ids W ws nodes) !! i
          = Some (children W n)) as Hi
    by (by rewrite list_lookup_fmap, Hn).
  rewrite Heq, list_lookup_fmap in Hi.
  destruct (nodes !! i) as [m|] eqn:Hm; [|done]. injection Hi as Hi.
  apply (Hafter i m c Hm). by rewrite Hi.
Qed.

(** The nearest of the children is one of them. *)
Lemma nearest_child nodes (desc : D) (cs : list nat) best :
  (∀ c, c ∈ cs → is_Some (nodes !! c)) →
  (cs ≠ [] ∨ is_Some best) →
  ∃ b, foldl (nearer W nodes desc) best cs = Some b
       ∧ (b.1 ∈ cs ∨ best = Some b).
Proof.
  revert best. induction cs as [|c cs IH]; intros best Hcs Hne.
  { destruct Hne as [?|[b ->]]; [done|]. exists b. by split; [|right]. }
  cbn [foldl].
  destruct (Hcs c) as [n Hn]; [by left|].
  destruct (IH (nearer W nodes desc best c)) as (b & -> & Hb).
  - intros ??. apply Hcs. by right.
  - right. unfold nearer. rewrite Hn.
    destruct best as [[??]|]; [case_match|]; by eexists.
  - exists b. split; [done|]. destruct Hb as [Hb|Hb].
    + left. by right.
    + unfold nearer in Hb. rewrite Hn in Hb.
      destruct best as [[b0 bd]|].
      * case_match; [injection Hb as <-; left; by left | by right].
      * injection Hb as <-. left. by left.
Qed.

(** The descent reaches a leaf. *)
Lemma descend_total nodes (desc : D) fuel i :
  children_after W nodes → (i < length nodes)%nat →
  (length nodes ≤ fuel + i + 1)%nat →
  is_Some (descend W fuel nodes desc i).
Proof.
  intros Hafter. revert i. induction fuel as [|fuel IH]; intros i Hi Hfuel.
  - destruct (lookup_lt_is_Some_2 nodes i Hi) as [n Hn].
    cbn [descend]. rewrite Hn. cbn [mbind option_bind].
    destruct (children W n) as [|c cs] eqn:Hcs; [by eexists|].
    specialize (Hafter i n c Hn). rewrite Hcs in Hafter.
    specialize (Hafter ltac:(by left)). lia.
  - destruct (lookup_lt_is_Some_2 nodes i Hi) as [n Hn].
    cbn [descend]. rewrite Hn. cbn [mbind option_bind].
    destruct (children W n) as [|c cs] eqn:Hcs; [by eexists|].
    destruct (nearest_child nodes desc (c :: cs) None)
      as (b & -> & [Hb|Hb]); [| by left | | done].
    + intros c' Hc'. apply lookup_lt_is_Some_2.
      apply (Hafter i n c' Hn). by rewrite Hcs.
    + cbn [mbind option_bind].
      assert (i < b.1 < length nodes)%nat
        by (apply (Hafter i n b.1 Hn); by rewrite Hcs).
      apply IH; lia.
Qed.

(** [transform_one] gives a word on every vocabulary that [create] builds. *)
Lemma create_transform_one k L weighting scoring training_features V d :
  (1 ≤ L)%nat →
  create W zero kmeans leaf_weight k L weighting scoring training_features
  = Some V →
  is_Some (transform_one W V d).
Proof.
  intros HL. unfold create.
  destruct (concat training_features) as [|d0 pool]; [done|].
  intros [= <-]. unfold transform_one. cbn [TemplatedVocabulary.nodes].
  destruct (cluster_tree k L 0 (d0 :: pool) [new_node W zero 0 0 unset])
    as [Ht Hlen]; [apply root_tree | simpl; lia | lia |].
  simpl in Hlen.
  apply descend_total.
  - apply set_word_ids_children_after, tree_children_after.
    apply set_weights_tree; [done | apply leaves_below_root].
  - rewrite length_set_word_ids, length_set_weights. lia.
  - lia.
Qed.

End VocabularyFacts.

(** C7. For every vocabulary [V] built by [create], loading what [save]
    writes of [V] gives a vocabulary [V'] that quantizes every descriptor as
    [V] does: [transform_one] gives the same word, with the same weight, on
    both.  ([L] is in the range of the configuration, at least 1.) *)
Theorem save_load_transform {D R : Type}
    `{!TemplatedVocabulary.Descriptor D R} (W : Type) (zero : W)
    (kmeans : list D → list (D * list D)) (leaf_weight : nat → W)
    (k L : nat) (weighting : TemplatedVocabulary.WeightingType)
    (scoring : TemplatedVocabulary.ScoringType)
    (training_features : list (list D))
    (V : TemplatedVocabulary.Vocabulary W) :
  (1 ≤ L)%nat →
  TemplatedVocabulary.create W zero kmeans leaf_weight k L weighting scoring
    training_features = Some V →
  ∃ V',
    TemplatedVocabulary.load W zero (TemplatedVocabulary.save W V) = Some V'
    ∧ ∀ d, ∃ word,
        TemplatedVocabulary.transform_one W V d = Some word
        ∧ TemplatedVocabulary.transform_one W V' d = Some word.
Proof.
  intros HL Hcreate. exists V. split.
  - by eapply create_load_save.
  - intros d.
    destruct (create_transform_one W zero kmeans leaf_weight k L weighting
                scoring training_features V d HL Hcreate) as [word Hword].
    by exists word.
Qed.

Lemma save_load_transform_witness :
  (1 ≤ 2)%nat
  ∧ TemplatedVocabulary.create Z 0 split_first_bit Z.of_nat 2 2
      TemplatedVocabulary.TF_IDF TemplatedVocabulary.L1 two_images
    = Some two_images_vocabulary
  ∧ ∃ V',
      TemplatedVocabulary.load Z 0
        (TemplatedVocabulary.save Z two_images_vocabulary) = Some V'
      ∧ ∀ d, ∃ word,
          TemplatedVocabulary.transform_one Z two_images_vocabulary d
          = Some word
          ∧ TemplatedVocabulary.transform_one Z V' d = Some word.
Proof.
  assert (1 ≤ 2)%nat as HL by lia.
  assert (TemplatedVocabulary.create Z 0 split_first_bit Z.of_nat 2 2
            TemplatedVocabulary.TF_IDF TemplatedVocabulary.L1 two_images
          = Some two_images_vocabulary) as Hcreate
    by (vm_compute; reflexivity).
  split_and!; [exact HL | exact Hcreate |].
  exact (save_load_transform Z 0 split_first_bit Z.of_nat 2 2
           TemplatedVocabulary.TF_IDF TemplatedVocabulary.L1 two_images
           two_images_vocabulary HL Hcreate).
Defined.

(** * Further properties of the descriptor functions *)

(** Two bytes with the same eight bits are equal. *)
Lemma byte_eq_bits x y :
  is_byte x → is_byte y →
  (∀ b, (b < 8)%nat → Z.testbit x (Z.of_nat b) = Z.testbit y (Z.of_nat b)) →
  x = y.
Proof.
  intros Hx Hy Hbits. apply Z.bits_inj'. intros n Hn.
  destruct (decide (n < 8)) as [Hlt|Hge].
  - specialize (Hbits (Z.to_nat n)). rewrite Z2Nat.id in Hbits by done.
    apply Hbits. lia.
  - unfold is_byte in *.
    rewrite !(Z.bits_above_log2) ; try done; try lia.
    + destruct (decide (y = 0)) as [->|?]; [simpl; lia|].
      assert (Z.log2 y < 8) by (apply Z.log2_lt_pow2; lia). lia.
    + destruct (decide (x = 0)) as [->|?]; [simpl; lia|].
      assert (Z.log2 x < 8) by (apply Z.log2_lt_pow2; lia). lia.
Qed.

Lemma bytes_eq_bits (L : nat) (l1 l2 : list Z) :
  length l1 = L → length l2 = L →
  (∀ i b, (i < L)%nat → (b < 8)%nat →
     ∃ x y, l1 !! i = Some x ∧ l2 !! i = Some y ∧ is_byte x ∧ is_byte y
            ∧ (Z.testbit x (Z.of_nat b) = true
               ↔ Z.testbit y (Z.of_nat b) = true)) →
  l1 = l2.
Proof.
  intros H1 H2 Hbits. apply list_eq. intros i.
  destruct (decide (i < L)%nat) as [Hi|Hi].
  - destruct (Hbits i 0%nat Hi ltac:(lia)) as (x & y & Hx & Hy & Hbx & Hby & _).
    rewrite Hx, Hy. f_equal. apply byte_eq_bits; [done | done |].
    intros b Hb. destruct (Hbits i b Hi Hb) as (x' & y' & Hx' & Hy' & _ & _ & Hb').
    rewrite Hx in Hx'. rewrite Hy in Hy'.
    injection Hx' as <-. injection Hy' as <-.
    destruct (Z.testbit x (Z.of_nat b)), (Z.testbit y (Z.of_nat b));
      try done; [symmetry; by apply Hb' | by apply Hb'].
  - rewrite !lookup_ge_None_2; [done | lia | lia].
Qed.

Lemma land_byte x y : is_byte x → is_byte y → is_byte (Z.land x y).
Proof.
  unfold is_byte. intros Hx Hy.
  assert (0 ≤ Z.land x y) as H0 by (apply Z.land_nonneg; lia).
  split; [done|].
  destruct (decide (Z.land x y = 0)) as [->|Hne]; [lia|].
  apply (Z.log2_lt_pow2 _ 8); [lia|].
  pose proof (Z.log2_land x y ltac:(lia) ltac:(lia)) as Hlog.
  destruct (decide (x = 0)) as [->|?]; [by rewrite Z.land_0_l in Hne|].
  assert (Z.log2 x < 8) by (apply Z.log2_lt_pow2; lia). lia.
Qed.

(** The bits of the result of [meanValue], for the properties below. *)
Lemma meanValue_bits (L : nat) (ds : list (list Z)) (mean0 : list Z) :
  Forall (λ d, length d = L) ds →
  Z.of_nat (length ds) < 2 ^ 64 →
  ∃ mean,
    FBRISK.meanValue L ds mean0 = Some mean
    ∧ length mean = L
    ∧ ∀ i b, (i < L)%nat → (b < 8)%nat →
        ∃ m, mean !! i = Some m ∧ is_byte m
          ∧ (Z.testbit m (Z.of_nat b) = true
             ↔ (length ds < 2 * votes ds i b)%nat).
Proof.
  intros Hds Hn.
  assert (Forall (λ d, (L ≤ length d)%nat) ds) as Hds'.
  { eapply list.Forall_impl; [exact Hds|]. intros d Hd. simpl in Hd. lia. }
  destruct (meanValue_runs L ds mean0 Hds')
    as (sum & mean & Hsum & Hlen & Hrun & Hl & Hmean).
  destruct (sum_all L ds (replicate (L * 8) 0) (λ _, 0%nat) Hds')
    as (sum' & Hsum' & _ & Hvotes).
  { apply length_replicate. }
  { intros k Hk. by apply lookup_replicate_2. }
  { intros k Hk. simpl. lia. }
  rewrite Hsum in Hsum'. injection Hsum' as <-.
  exists mean. split_and!; [done | done |].
  intros i b Hi Hb. eexists. split_and!; [by apply Hmean | |].
  { apply set_bits_byte. unfold is_byte. lia. }
  rewrite set_bits_testbit
    by (done || intros b' Hb'; apply elem_of_seq in Hb'; lia).
  rewrite Z.bits_0, orb_false_l.
  rewrite bool_decide_eq_true_2 by (apply elem_of_seq; lia).
  rewrite andb_true_l. unfold over. rewrite Hvotes by lia.
  replace ((i * 8 + b) `div` 8)%nat with i
    by (rewrite Nat.add_comm, Nat.div_add, Nat.div_small by lia; done).
  replace ((i * 8 + b) `mod` 8)%nat with b
    by (rewrite Nat.add_comm, Nat.Div0.mod_add, Nat.mod_small by lia; done).
  simpl Nat.add. unfold uint64_t.
  rewrite Z.mod_small by (split; [apply Z.div_pos; lia |
    apply Z.div_lt_upper_bound; lia]).
  rewrite Z.ltb_lt.
  pose proof (Z.div_mod (Z.of_nat (length ds)) 2).
  pose proof (Z.mod_pos_bound (Z.of_nat (length ds)) 2).
  lia.
Qed.

Lemma votes_replicate n d i b :
  votes (replicate n d) i b = if bit_of d i b then n else 0%nat.
Proof.
  induction n as [|n IH]; [by destruct (bit_of d i b)|].
  cbn [replicate]. rewrite votes_cons, IH. by destruct (bit_of d i b).
Qed.

Lemma votes_Permutation ds ds' i b :
  ds ≡ₚ ds' → votes ds i b = votes ds' i b.
Proof. intros Hp. unfold votes. by rewrite Hp. Qed.

(** X1. The mean of one or more copies of a descriptor is that descriptor;
    in particular the mean of a single descriptor is the descriptor. *)
Theorem meanValue_replicate (L n : nat) (d mean0 : list Z) :
  (0 < n)%nat → Z.of_nat n < 2 ^ 64 →
  length d = L → Forall is_byte d →
  FBRISK.meanValue L (replicate n d) mean0 = Some d.
Proof.
  intros Hn Hn64 Hd Hbytes.
  destruct (meanValue_bits L (replicate n d) mean0)
    as (mean & -> & Hlen & Hbits).
  { by apply Forall_replicate. }
  { by rewrite length_replicate. }
  f_equal. apply (bytes_eq_bits L); [done | done |].
  intros i b Hi Hb.
  destruct (Hbits i b Hi Hb) as (m & Hm & Hmb & Hiff).
  destruct (lookup_lt_is_Some_2 d i) as [x Hx]; [lia|].
  exists m, x. split_and!; [done | done | done | |].
  { rewrite list.Forall_forall in Hbytes. apply Hbytes.
    by eapply list_elem_of_lookup_2. }
  rewrite Hiff, length_replicate, votes_replicate.
  unfold bit_of. rewrite Hx.
  destruct (Z.testbit x (Z.of_nat b)); split; (done || lia).
Qed.

Lemma meanValue_replicate_witness :
  (0 < 3)%nat ∧ Z.of_nat 3 < 2 ^ 64
  ∧ length brisk_a = 48%nat ∧ Forall is_byte brisk_a
  ∧ FBRISK.meanValue 48 (replicate 3 brisk_a) [] = Some brisk_a.
Proof.
  assert (0 < 3)%nat as Hn by lia.
  assert (Z.of_nat 3 < 2 ^ 64) as Hn64 by (simpl; lia).
  assert (length brisk_a = 48%nat) as Hd by reflexivity.
  assert (Forall is_byte brisk_a) as Hb.
  { apply Forall_forall. intros x Hx.
    repeat (destruct Hx as [<-|Hx]; [unfold is_byte; lia|]).
    destruct Hx. }
  split_and!; [exact Hn | exact Hn64 | exact Hd | exact Hb |].
  exact (meanValue_replicate 48 3 brisk_a [] Hn Hn64 Hd Hb).
Defined.

(** X2. The mean of two descriptors is their bytes combined with [&]: with
    two votes a bit needs both, since a tie leaves it 0. *)
Theorem meanValue_pair (L : nat) (a b mean0 : list Z) :
  length a = L → length b = L → Forall is_byte a → Forall is_byte b →
  FBRISK.meanValue L [a; b] mean0 = Some (and_bytes a b).
Proof.
  intros Ha Hb Hba Hbb.
  destruct (meanValue_bits L [a; b] mean0) as (mean & -> & Hlen & Hbits).
  { by repeat constructor. }
  { simpl. lia. }
  f_equal. apply (bytes_eq_bits L); [done | |].
  { unfold and_bytes. rewrite length_zip_with. lia. }
  intros i bit Hi Hbit.
  destruct (Hbits i bit Hi Hbit) as (m & Hm & Hmb & Hiff).
  destruct (lookup_lt_is_Some_2 a i) as [x Hx]; [lia|].
  destruct (lookup_lt_is_Some_2 b i) as [y Hy]; [lia|].
  assert (is_byte x) as Hxb.
  { rewrite list.Forall_forall in Hba. apply Hba.
    by eapply list_elem_of_lookup_2. }
  exists m, (Z.land x y). split_and!; [done | | done | |].
  - unfold and_bytes. by rewrite lookup_zip_with, Hx, Hy.
  - apply land_byte; [done|].
    rewrite list.Forall_forall in Hbb. apply Hbb.
    by eapply list_elem_of_lookup_2.
  - rewrite Hiff, Z.land_spec. rewrite !votes_cons.
    unfold votes, bit_of. rewrite Hx, Hy. cbn.
    destruct (Z.testbit x (Z.of_nat bit)), (Z.testbit y (Z.of_nat bit));
      split; (done || lia).
Qed.

Lemma meanValue_pair_witness :
  length brisk_a = 48%nat ∧ length brisk_b = 48%nat
  ∧ Forall is_byte brisk_a ∧ Forall is_byte brisk_b
  ∧ FBRISK.meanValue 48 [brisk_a; brisk_b] [] = Some (and_bytes brisk_a brisk_b).
Proof.
  assert (length brisk_a = 48%nat) as Ha by reflexivity.
  assert (length brisk_b = 48%nat) as Hb by reflexivity.
  assert (Forall is_byte brisk_a) as Hba.
  { apply Forall_forall. intros x Hx.
    repeat (destruct Hx as [<-|Hx]; [unfold is_byte; lia|]).
    destruct Hx. }
  assert (Forall is_byte brisk_b) as Hbb.
  { apply Forall_forall. intros x Hx.
    repeat (destruct Hx as [<-|Hx]; [unfold is_byte; lia|]).
    destruct Hx. }
  split_and!; [exact Ha | exact Hb | exact Hba | exact Hbb |].
  exact (meanValue_pair 48 brisk_a brisk_b [] Ha Hb Hba Hbb).
Defined.

(** X3. The mean does not depend on the order of the descriptors. *)
Theorem meanValue_Permutation (L : nat) (ds ds' : list (list Z))
    (mean0 mean0' : list Z) :
  ds ≡ₚ ds' → Forall (λ d, length d = L) ds →
  Z.of_nat (length ds) < 2 ^ 64 →
  FBRISK.meanValue L ds mean0 = FBRISK.meanValue L ds' mean0'
  ∧ is_Some (FBRISK.meanValue L ds mean0).
Proof.
  intros Hp Hds Hn.
  destruct (meanValue_bits L ds mean0 Hds Hn) as (m1 & H1 & Hl1 & Hb1).
  destruct (meanValue_bits L ds' mean0') as (m2 & H2 & Hl2 & Hb2).
  { by rewrite <-Hp. }
  { by rewrite <-Hp. }
  rewrite H1, H2. split; [|by eexists]. f_equal.
  apply (bytes_eq_bits L); [done | done |].
  intros i b Hi Hb.
  destruct (Hb1 i b Hi Hb) as (x & Hx & Hxb & Hxi).
  destruct (Hb2 i b Hi Hb) as (y & Hy & Hyb & Hyi).
  exists x, y. split_and!; [done | done | done | done |].
  rewrite Hxi, Hyi, (votes_Permutation ds ds' i b Hp).
  by rewrite (Permutation_length Hp).
Qed.

Lemma meanValue_Permutation_witness :
  three_descriptors ≡ₚ reverse three_descriptors
  ∧ Forall (λ d, length d = 2%nat) three_descriptors
  ∧ Z.of_nat (length three_descriptors) < 2 ^ 64
  ∧ FBRISK.meanValue 2 three_descriptors [7]
    = FBRISK.meanValue 2 (reverse three_descriptors) []
  ∧ is_Some (FBRISK.meanValue 2 three_descriptors [7]).
Proof.
  assert (three_descriptors ≡ₚ reverse three_descriptors) as Hp
    by (symmetry; apply reverse_Permutation).
  assert (Forall (λ d, length d = 2%nat) three_descriptors) as Hds
    by (repeat constructor).
  assert (Z.of_nat (length three_descriptors) < 2 ^ 64) as Hn
    by (simpl; lia).
  split_and!; [exact Hp | exact Hds | exact Hn | |];
    apply (meanValue_Permutation 2 three_descriptors
             (reverse three_descriptors) [7] [] Hp Hds Hn).
Defined.

Lemma filter_length_or {A : Type} (P Q T : A → Prop)
    `{!∀ x, Decision (P x), !∀ x, Decision (Q x), !∀ x, Decision (T x)}
    (l : list A) :
  (∀ x, P x → Q x ∨ T x) →
  (length (filter P l) ≤ length (filter Q l) + length (filter T l))%nat.
Proof.
  intros HPQ. induction l as [|x l IH]; [done|].
  rewrite !filter_cons.
  destruct (decide (P x)) as [HP|HP], (decide (Q x)) as [HQ|HQ],
    (decide (T x)) as [HT|HT]; simpl; try lia.
  destruct (HPQ x HP); done.
Qed.

Lemma byte_diff_triangle a b c i :
  (byte_diff a c i ≤ byte_diff a b i + byte_diff b c i)%nat.
Proof.
  unfold byte_diff. apply filter_length_or. intros bit Hac.
  destruct (decide (bit_of a i bit = bit_of b i bit)) as [Heq|Hne];
    [right; congruence | by left].
Qed.

Lemma hamming_triangle n a b c :
  (hamming n a c ≤ hamming n a b + hamming n b c)%nat.
Proof.
  unfold hamming. induction (seq 0 n) as [|i l IH]; [done|].
  rewrite !fmap_cons. cbn [sum_list sum_list_with id].
  pose proof (byte_diff_triangle a b c i). lia.
Qed.

(** X4. [FBRISK::distance] satisfies the triangle inequality. *)
Theorem distance_triangle (L : nat) (a b c : list Z) :
  (0 < L)%nat → length a = L → length b = L → length c = L →
  ∃ dab dbc dac,
    FBRISK.distance L a b = Some dab
    ∧ FBRISK.distance L b c = Some dbc
    ∧ FBRISK.distance L a c = Some dac
    ∧ dac ≤ dab + dbc.
Proof.
  intros HL Ha Hb Hc.
  assert (16 * (L `div` 16) ≤ L)%nat as HL16
    by (pose proof (Nat.div_mod_eq L 16); lia).
  unfold FBRISK.distance.
  destruct a as [|x a]; [simpl in Ha; lia|].
  destruct b as [|y b]; [simpl in Hb; lia|].
  destruct c as [|z c]; [simpl in Hc; lia|].
  cbn [head mbind option_bind].
  rewrite !PopcntofXORed_spec by lia.
  eexists _, _, _. split_and!; [done | done | done |].
  pose proof (hamming_triangle (16 * (L `div` 16)) (x :: a) (y :: b) (z :: c)).
  lia.
Qed.

Lemma distance_triangle_witness :
  (0 < 48)%nat ∧ length brisk_a = 48%nat ∧ length brisk_b = 48%nat
  ∧ length brisk_c = 48%nat
  ∧ ∃ dab dbc dac,
      FBRISK.distance 48 brisk_a brisk_b = Some dab
      ∧ FBRISK.distance 48 brisk_b brisk_c = Some dbc
      ∧ FBRISK.distance 48 brisk_a brisk_c = Some dac
      ∧ dac ≤ dab + dbc.
Proof.
  assert (0 < 48)%nat as HL by lia.
  assert (length brisk_a = 48%nat) as Ha by reflexivity.
  assert (length brisk_b = 48%nat) as Hb by reflexivity.
  assert (length brisk_c = 48%nat) as Hc by reflexivity.
  split_and!; [exact HL | exact Ha | exact Hb | exact Hc |].
  exact (distance_triangle 48 brisk_a brisk_b brisk_c HL Ha Hb Hc).
Defined.

Lemma sum_list_fmap_zero (f : nat → nat) (l : list nat) :
  sum_list (f <$> l) = 0%nat → ∀ i, i ∈ l → f i = 0%nat.
Proof.
  induction l as [|x l IH]; intros Hsum i Hi; [by apply elem_of_nil in Hi|].
  rewrite fmap_cons in Hsum. cbn [sum_list sum_list_with id] in Hsum.
  apply elem_of_cons in Hi as [->|Hi]; [lia|]. apply IH; [lia | done].
Qed.

Lemma byte_diff_zero a b i bit :
  byte_diff a b i = 0%nat → (bit < 8)%nat → bit_of a i bit = bit_of b i bit.
Proof.
  unfold byte_diff. intros Hz Hbit.
  destruct (decide (bit_of a i bit = bit_of b i bit)) as [|Hne]; [done|].
  assert (bit ∈ filter (λ bit, bit_of a i bit ≠ bit_of b i bit) (seq 0 8))
    as Hin.
  { apply list_elem_of_filter. split; [done|]. apply elem_of_seq. lia. }
  apply length_zero_iff_nil in Hz. rewrite Hz in Hin.
  by apply elem_of_nil in Hin.
Qed.

(** X5. For descriptors of [L] bytes, [L] a positive multiple of 16, the
    distance is 0 only between equal descriptors. *)
Theorem distance_zero (L : nat) (a b : list Z) :
  (0 < L)%nat → (L `mod` 16 = 0)%nat →
  length a = L → length b = L → Forall is_byte a → Forall is_byte b →
  FBRISK.distance L a b = Some 0 ↔ a = b.
Proof.
  intros HL H16 Ha Hb Hba Hbb.
  assert (16 * (L `div` 16) = L)%nat as HL16
    by (pose proof (Nat.div_mod_eq L 16); lia).
  assert (FBRISK.distance L a b = Some (Z.of_nat (hamming L a b))) as ->.
  { unfold FBRISK.distance.
    destruct a as [|x a]; [simpl in Ha; lia|].
    destruct b as [|y b]; [simpl in Hb; lia|].
    cbn [head mbind option_bind].
    rewrite PopcntofXORed_spec by lia. by rewrite HL16. }
  split.
  - intros [= Hz]. assert (hamming L a b = 0%nat) as Hham by lia.
    apply (bytes_eq_bits L); [done | done |].
    intros i bit Hi Hbit.
    destruct (lookup_lt_is_Some_2 a i) as [x Hx]; [lia|].
    destruct (lookup_lt_is_Some_2 b i) as [y Hy]; [lia|].
    exists x, y. split_and!; [done | done | | |].
    { rewrite list.Forall_forall in Hba. apply Hba.
      by eapply list_elem_of_lookup_2. }
    { rewrite list.Forall_forall in Hbb. apply Hbb.
      by eapply list_elem_of_lookup_2. }
    pose proof (sum_list_fmap_zero (byte_diff a b) (seq 0 L) Hham i) as Hd.
    specialize (Hd ltac:(apply elem_of_seq; lia)).
    pose proof (byte_diff_zero a b i bit Hd Hbit) as Heq.
    unfold bit_of in Heq. rewrite Hx, Hy in Heq. by rewrite Heq.
  - intros <-. by rewrite hamming_refl.
Qed.

Lemma distance_zero_witness :
  (0 < 48)%nat ∧ (48 `mod` 16 = 0)%nat
  ∧ length brisk_a = 48%nat ∧ length brisk_b = 48%nat
  ∧ Forall is_byte brisk_a ∧ Forall is_byte brisk_b
  ∧ (FBRISK.distance 48 brisk_a brisk_b = Some 0 ↔ brisk_a = brisk_b).
Proof.
  assert (0 < 48)%nat as HL by lia.
  assert (48 `mod` 16 = 0)%nat as H16 by reflexivity.
  assert (length brisk_a = 48%nat) as Ha by reflexivity.
  assert (length brisk_b = 48%nat) as Hb by reflexivity.
  assert (Forall is_byte brisk_a) as Hba.
  { apply Forall_forall. intros x Hx.
    repeat (destruct Hx as [<-|Hx]; [unfold is_byte; lia|]).
    destruct Hx. }
  assert (Forall is_byte brisk_b) as Hbb.
  { apply Forall_forall. intros x Hx.
    repeat (destruct Hx as [<-|Hx]; [unfold is_byte; lia|]).
    destruct Hx. }
  split_and!; [exact HL | exact H16 | exact Ha | exact Hb | exact Hba
               | exact Hbb |].
  exact (distance_zero 48 brisk_a brisk_b HL H16 Ha Hb Hba Hbb).
Defined.

Lemma hamming_prefix n a a' b b' :
  take n a = take n a' → take n b = take n b' →
  hamming n a b = hamming n a' b'.
Proof.
  intros Ha Hb. unfold hamming. f_equal.
  apply list_fmap_ext. intros k i Hi.
  apply lookup_seq in Hi as [Hk Hi]. simpl in Hk. subst i.
  unfold byte_diff. f_equal. apply list_filter_iff. intros bit.
  unfold bit_of.
  rewrite <-(lookup_take_lt a n k), <-(lookup_take_lt b n k) by done.
  rewrite Ha, Hb. by rewrite !lookup_take_lt by done.
Qed.

(** X6. [FBRISK::distance] compares [L / 16] words of 16 bytes: it depends
    on the first [16 * (L / 16)] bytes of the descriptors only, so that the
    last [L mod 16] bytes do not count. *)
Theorem distance_whole_words (L : nat) (a a' b b' : list Z) :
  (0 < L)%nat →
  length a = L → length a' = L → length b = L → length b' = L →
  take (16 * (L `div` 16)) a = take (16 * (L `div` 16)) a' →
  take (16 * (L `div` 16)) b = take (16 * (L `div` 16)) b' →
  FBRISK.distance L a b = FBRISK.distance L a' b'
  ∧ is_Some (FBRISK.distance L a b).
Proof.
  intros HL Ha Ha' Hb Hb' Hta Htb.
  assert (16 * (L `div` 16) ≤ L)%nat as HL16
    by (pose proof (Nat.div_mod_eq L 16); lia).
  assert (∀ u v, length u = L → length v = L →
            FBRISK.distance L u v
            = Some (Z.of_nat (hamming (16 * (L `div` 16)) u v))) as Hdist.
  { intros u v Hu Hv. unfold FBRISK.distance.
    destruct u as [|x u]; [simpl in Hu; lia|].
    destruct v as [|y v]; [simpl in Hv; lia|].
    cbn [head mbind option_bind]. by rewrite PopcntofXORed_spec by lia. }
  rewrite !Hdist by done. split; [|by eexists].
  by rewrite (hamming_prefix _ a a' b b').
Qed.

Lemma distance_whole_words_witness :
  (0 < 20)%nat
  ∧ length twenty_a = 20%nat ∧ length twenty_b = 20%nat
  ∧ length twenty_a = 20%nat ∧ length twenty_a = 20%nat
  ∧ take (16 * (20 `div` 16)) twenty_a = take (16 * (20 `div` 16)) twenty_b
  ∧ take (16 * (20 `div` 16)) twenty_a = take (16 * (20 `div` 16)) twenty_a
  ∧ FBRISK.distance 20 twenty_a twenty_a = FBRISK.distance 20 twenty_b twenty_a
  ∧ is_Some (FBRISK.distance 20 twenty_a twenty_a).
Proof.
  assert (0 < 20)%nat as HL by lia.
  assert (length twenty_a = 20%nat) as Ha by reflexivity.
  assert (length twenty_b = 20%nat) as Hb by reflexivity.
  assert (take (16 * (20 `div` 16)) twenty_a
          = take (16 * (20 `div` 16)) twenty_b) as Hab by reflexivity.
  assert (take (16 * (20 `div` 16)) twenty_a
          = take (16 * (20 `div` 16)) twenty_a) as Haa by reflexivity.
  split_and!; [exact HL | exact Ha | exact Hb | exact Ha | exact Ha
               | exact Hab | exact Haa | |];
    apply (distance_whole_words 20 twenty_a twenty_b twenty_a twenty_a
             HL Ha Hb Ha Ha Hab Haa).
Defined.

(** * Further properties of the string form *)

(** X7. [FBRISK::toString] reads [a[0]] to [a[L-1]]: it is defined when [a]
    has [L] elements or more, and then prints the first [L] of them. *)
Theorem toString_defined (L : nat) (a : list Z) :
  FBRISK.toString L a
  = if decide (L ≤ length a)%nat then Some (decimal_bytes (take L a))
    else None.
Proof.
  unfold FBRISK.toString. destruct (decide (L ≤ length a)%nat) as [Hle|Hgt].
  - rewrite toString_run by lia. by cbn [String.append drop].
  - apply (foldM_fails _ _ _ (length a)).
    + apply elem_of_seq. lia.
    + intros ss. by rewrite (lookup_ge_None_2 a) by lia.
Qed.

Lemma fromString_decimal_bytes (L : nat) (a a0 : list Z) :
  length a = L → Forall is_byte a →
  FBRISK.fromString L a0 (decimal_bytes a) = Some a.
Proof.
  intros Ha Hbytes. unfold FBRISK.fromString.
  destruct (fromString_run a 0 (resize L 0 a0) (decimal_bytes a))
    as [ss Hrun]; [by left | done | rewrite length_resize; lia |].
  rewrite <-Ha at 2. rewrite Hrun. cbn [mbind option_bind fst take app].
  rewrite drop_ge by (rewrite length_resize; simpl; lia).
  by rewrite app_nil_r.
Qed.

(** X8. Descriptors of [L] bytes with the same string form are equal. *)
Theorem toString_inj (L : nat) (a b : list Z) :
  length a = L → length b = L → Forall is_byte a → Forall is_byte b →
  FBRISK.toString L a = FBRISK.toString L b → a = b.
Proof.
  intros Ha Hb Hba Hbb. rewrite !toString_spec by done. intros [= Heq].
  pose proof (fromString_decimal_bytes L a [] Ha Hba) as Hra.
  pose proof (fromString_decimal_bytes L b [] Hb Hbb) as Hrb.
  rewrite Heq in Hra. congruence.
Qed.

Lemma toString_inj_witness :
  length brisk_a = 48%nat ∧ length brisk_b = 48%nat
  ∧ Forall is_byte brisk_a ∧ Forall is_byte brisk_b
  ∧ (FBRISK.toString 48 brisk_a = FBRISK.toString 48 brisk_b →
     brisk_a = brisk_b).
Proof.
  assert (length brisk_a = 48%nat) as Ha by reflexivity.
  assert (length brisk_b = 48%nat) as Hb by reflexivity.
  assert (Forall is_byte brisk_a) as Hba.
  { apply Forall_forall. intros x Hx.
    repeat (destruct Hx as [<-|Hx]; [unfold is_byte; lia|]).
    destruct Hx. }
  assert (Forall is_byte brisk_b) as Hbb.
  { apply Forall_forall. intros x Hx.
    repeat (destruct Hx as [<-|Hx]; [unfold is_byte; lia|]).
    destruct Hx. }
  split_and!; [exact Ha | exact Hb | exact Hba | exact Hbb |].
  exact (toString_inj 48 brisk_a brisk_b Ha Hb Hba Hbb).
Defined.

(** Extracting an [int] from a stream that starts with the decimal form of
    any [int] and a space. *)
Lemma extract_int_put_any x rest :
  is_int x →
  FBRISK.extract_int
    (FBRISK.Istream (String.append (FBRISK.put_int x) (String " " rest))
                    false false)
  = (FBRISK.Istream (String " " rest) false false, Some x).
Proof.
  intros Hx. destruct (Z.ltb_spec x 0) as [Hneg|Hpos].
  2: { apply extract_int_put_int. unfold is_int in Hx. lia. }
  unfold FBRISK.put_int. destruct (Z.ltb_spec x 0) as [_|?]; [|lia].
  cbn [String.append]. rewrite put_digits_append. cbn [String.append].
  destruct (get_digits_put_digits 9 (- x) (String " " rest)) as [p Hp].
  { unfold is_int, INT_MIN in Hx.
    change (10 ^ Z.of_nat 10) with 10000000000. lia. }
  specialize (Hp None). cbn [default] in Hp.
  rewrite Z.mul_0_r, Z.add_0_l in Hp.
  unfold FBRISK.extract_int. cbn [FBRISK.buf FBRISK.eofbit FBRISK.failbit orb].
  cbn [FBRISK.skipws]. change (FBRISK.is_space "-") with false. cbv iota.
  change (Ascii.eqb "-" "-") with true. cbv iota beta.
  rewrite Hp. cbn [FBRISK.get_digits].
  change (FBRISK.is_digit " ") with false. cbv iota beta.
  rewrite Z.opp_involutive.
  destruct (Z.ltb_spec INT_MAX x) as [?|_]; [unfold INT_MAX in *; lia|].
  destruct (Z.ltb_spec x INT_MIN) as [?|_]; [unfold is_int in *; lia|].
  done.
Qed.

(** The loop of [fromString] over the numbers of a string, with the stream
    it leaves. *)
Lemma fromString_run_ints (xs : list Z) (j : nat) (arr : list Z)
    (buf rest : string) :
  buf = String.append (decimal_bytes xs) rest
  ∨ buf = String " " (String.append (decimal_bytes xs) rest) →
  Forall is_int xs →
  (j + length xs ≤ length arr)%nat →
  foldM FBRISK.fromString_step (arr, FBRISK.Istream buf false false)
        (seq j (length xs))
  = Some (take j arr ++ (uint8_t <$> xs) ++ drop (j + length xs) arr,
          FBRISK.Istream (if xs is [] then buf else String " " rest)
                         false false).
Proof.
  revert j arr buf.
  induction xs as [|x xs IH]; intros j arr buf Hbuf Hxs Hj.
  { simpl. rewrite Nat.add_0_r. by rewrite take_drop. }
  apply list.Forall_cons in Hxs as [Hx Hxs].
  cbn [length seq]. rewrite foldM_cons.
  assert (FBRISK.extract_int (FBRISK.Istream buf false false)
          = (FBRISK.Istream
               (String " " (String.append (decimal_bytes xs) rest))
               false false,
             Some x)) as Hext.
  { cbn [decimal_bytes foldr] in Hbuf. rewrite append_assoc in Hbuf.
    cbn [String.append] in Hbuf.
    destruct Hbuf as [->| ->]; [|rewrite extract_int_space];
      by apply extract_int_put_any. }
  rewrite (fromString_step_ok _ _ _ _ _ Hext) by (simpl in Hj; lia).
  cbn [mbind option_bind].
  rewrite (IH (S j) (<[j := uint8_t x]> arr)
             (String " " (String.append (decimal_bytes xs) rest)));
    [| by right | done | rewrite length_insert; simpl in Hj; lia].
  f_equal. f_equal.
  - assert (j < length arr)%nat as Hlt by (simpl in Hj; lia).
    rewrite (take_S_r _ _ (uint8_t x)) by (by apply list_lookup_insert_eq).
    rewrite take_insert_ge, drop_insert_lt by lia.
    rewrite <-app_assoc. cbn [app length fmap list_fmap].
    by replace (S j + length xs)%nat with (j + S (length xs))%nat by lia.
  - by destruct xs.
Qed.

Lemma decimal_bytes_app xs ys :
  decimal_bytes (xs ++ ys)
  = String.append (decimal_bytes xs) (decimal_bytes ys).
Proof.
  induction xs as [|x xs IH]; [done|].
  cbn [app decimal_bytes foldr]. fold (decimal_bytes (xs ++ ys)).
  fold (decimal_bytes xs). rewrite IH, append_assoc. done.
Qed.

(** X9. [FBRISK::fromString] reads the first [L] numbers of a string of
    [int]s, each followed by a space, and stores each one converted to
    [uint8_t], that is modulo 256; further numbers are not read. *)
Theorem fromString_ints (L : nat) (xs a0 : list Z) :
  (L ≤ length xs)%nat → Forall is_int xs →
  FBRISK.fromString L a0 (decimal_bytes xs) = Some (uint8_t <$> take L xs).
Proof.
  intros HL Hxs. unfold FBRISK.fromString.
  rewrite <-(take_drop L xs) at 1. rewrite decimal_bytes_app.
  assert (length (take L xs) = L) as Hlen by (rewrite length_take; lia).
  assert (Forall is_int (take L xs)) as Hys by (by apply Forall_take).
  revert Hlen Hys. generalize (take L xs), (drop L xs). intros ys zs Hlen Hys.
  rewrite <-Hlen at 2.
  rewrite (fromString_run_ints ys 0 (resize L 0 a0) _ (decimal_bytes zs));
    [| by left | done | rewrite length_resize; lia].
  cbn [mbind option_bind fst take app].
  rewrite drop_ge by (rewrite length_resize; simpl; lia).
  by rewrite app_nil_r.
Qed.

Lemma fromString_ints_witness :
  (2 ≤ length three_ints)%nat ∧ Forall is_int three_ints
  ∧ FBRISK.fromString 2 [7] (decimal_bytes three_ints)
    = Some (uint8_t <$> take 2 three_ints).
Proof.
  assert (2 ≤ length three_ints)%nat as HL by (simpl; lia).
  assert (Forall is_int three_ints) as Hxs.
  { apply Forall_forall. intros x Hx.
    repeat (destruct Hx as [<-|Hx];
            [unfold is_int, INT_MIN, INT_MAX; lia|]).
    destruct Hx. }
  split_and!; [exact HL | exact Hxs |].
  exact (fromString_ints 2 three_ints [7] HL Hxs).
Defined.

(** X10. On a string that ends before the [L]-th number, that is on fewer
    than [L] [int]s, each followed by a space, with nothing but white space
    after them, [FBRISK::fromString] stores an [int] that no extraction has
    written: the sentry of the extraction fails at the end of the string,
    and [tmp] keeps its indeterminate value. *)
Theorem fromString_too_short (L : nat) (xs a0 : list Z) (ws : string) :
  (length xs < L)%nat → Forall is_int xs →
  FBRISK.skipws ws = EmptyString →
  FBRISK.fromString L a0 (String.append (decimal_bytes xs) ws) = None.
Proof.
  intros HL Hxs Hws. unfold FBRISK.fromString.
  replace L with (length xs + (L - length xs))%nat at 2 by lia.
  rewrite seq_app, foldM_app.
  rewrite (fromString_run_ints xs 0 (resize L 0 a0) _ ws);
    [| by left | done | rewrite length_resize; lia].
  cbn [mbind option_bind].
  destruct (L - length xs)%nat as [|n] eqn:Hn; [lia|].
  cbn [seq]. rewrite foldM_cons.
  assert (∀ arr i,
            FBRISK.fromString_step
              (arr, FBRISK.Istream
                      (if xs is [] then String.append (decimal_bytes xs) ws
                       else String " " ws) false false) i
            = None) as ->; [|done].
  intros arr i. unfold FBRISK.fromString_step, FBRISK.extract_int.
  cbn [FBRISK.buf FBRISK.eofbit FBRISK.failbit orb].
  assert (FBRISK.skipws
            (if xs is [] then String.append (decimal_bytes xs) ws
             else String " " ws) = EmptyString) as ->; [|done].
  by destruct xs.
Qed.

Lemma fromString_too_short_witness :
  (length three_ints < 4)%nat ∧ Forall is_int three_ints
  ∧ FBRISK.skipws " " = EmptyString
  ∧ FBRISK.fromString 4 [7] (String.append (decimal_bytes three_ints) " ")
    = None.
Proof.
  assert (length three_ints < 4)%nat as HL by (simpl; lia).
  assert (Forall is_int three_ints) as Hxs.
  { apply Forall_forall. intros x Hx.
    repeat (destruct Hx as [<-|Hx];
            [unfold is_int, INT_MIN, INT_MAX; lia|]).
    destruct Hx. }
  assert (FBRISK.skipws " " = EmptyString) as Hws by reflexivity.
  split_and!; [exact HL | exact Hxs | exact Hws |].
  exact (fromString_too_short 4 three_ints [7] " " HL Hxs Hws).
Defined.

(** The elements that the loop of [fromString] has still to write do not
    matter. *)
Lemma fromString_steps_agree (n j : nat) (arr arr' : list Z) ss :
  length arr = length arr' → take j arr = take j arr' →
  (j + n = length arr)%nat →
  foldM FBRISK.fromString_step (arr, ss) (seq j n)
  = foldM FBRISK.fromString_step (arr', ss) (seq j n).
Proof.
  revert j arr arr' ss.
  induction n as [|n IH]; intros j arr arr' ss Hlen Htake Hj.
  { assert (arr = arr') as ->; [|done].
    rewrite <-(take_ge arr j), <-(take_ge arr' j) by lia. done. }
  cbn [seq]. rewrite !foldM_cons. unfold FBRISK.fromString_step.
  destruct (FBRISK.extract_int ss) as [ss' [v|]]; [|done].
  cbn [mbind option_bind]. unfold vset.
  rewrite !decide_True by lia. cbn [mbind option_bind].
  apply IH; [by rewrite !length_insert | | rewrite length_insert; lia].
  rewrite (take_S_r _ _ (uint8_t v))
    by (apply list_lookup_insert_eq; lia).
  rewrite (take_S_r (<[j:=uint8_t v]> arr') _ (uint8_t v))
    by (apply list_lookup_insert_eq; lia).
  rewrite !take_insert_ge by lia. by rewrite Htake.
Qed.

(** X11. What [FBRISK::fromString] leaves in [a] does not depend on what
    [a] held before, for any string. *)
Theorem fromString_overwrites (L : nat) (a0 a0' : list Z) (s : string) :
  FBRISK.fromString L a0 s = FBRISK.fromString L a0' s.
Proof.
  unfold FBRISK.fromString.
  by rewrite (fromString_steps_agree L 0 (resize L 0 a0) (resize L 0 a0'))
    by (rewrite ?length_resize; done).
Qed.

Lemma fromString_steps_bytes (n j : nat) (arr : list Z) ss st :
  Forall is_byte (take j arr) → (j + n ≤ length arr)%nat →
  foldM FBRISK.fromString_step (arr, ss) (seq j n) = Some st →
  length st.1 = length arr ∧ Forall is_byte (take (j + n) st.1).
Proof.
  revert j arr ss.
  induction n as [|n IH]; intros j arr ss Hbytes Hj.
  { simpl. intros [= <-]. by rewrite Nat.add_0_r. }
  cbn [seq]. rewrite foldM_cons.
  destruct (FBRISK.fromString_step (arr, ss) j) as [[arr1 ss1]|] eqn:Hstep;
    [|done].
  unfold FBRISK.fromString_step in Hstep.
  destruct (FBRISK.extract_int ss) as [ss' [v|]]; [|done].
  cbn [mbind option_bind] in Hstep. unfold vset in Hstep.
  rewrite decide_True in Hstep by lia. cbn [mbind option_bind] in Hstep.
  injection Hstep as <- <-.
  cbn [mbind option_bind]. intros Hrun.
  apply IH in Hrun.
  - rewrite length_insert in Hrun.
    by replace (j + S n)%nat with (S j + n)%nat by lia.
  - rewrite (take_S_r _ _ (uint8_t v))
      by (apply list_lookup_insert_eq; lia).
    rewrite take_insert_ge by lia. apply Forall_app. split; [done|].
    apply Forall_singleton. unfold is_byte, uint8_t.
    apply Z.mod_pos_bound. lia.
  - rewrite length_insert. lia.
Qed.

(** X12. Whatever the string, a descriptor that [FBRISK::fromString] has
    read has [L] elements, all of them bytes. *)
Theorem fromString_descriptor (L : nat) (a0 a : list Z) (s : string) :
  FBRISK.fromString L a0 s = Some a →
  length a = L ∧ Forall is_byte a.
Proof.
  unfold FBRISK.fromString. intros Hrun.
  destruct (foldM _ _ _) as [st|] eqn:Hfold; [|done].
  cbn [mbind option_bind] in Hrun. injection Hrun as <-.
  apply fromString_steps_bytes in Hfold as [Hlen Hbytes];
    [| by apply Forall_nil | rewrite length_resize; lia].
  rewrite length_resize in Hlen. split; [done|].
  by rewrite take_ge in Hbytes by lia.
Qed.

Lemma fromString_descriptor_witness :
  FBRISK.fromString 3 [7] (decimal_bytes three_ints)
  = Some [255; 0; 44]
  ∧ length [255; 0; 44] = 3%nat ∧ Forall is_byte [255; 0; 44].
Proof.
  assert (FBRISK.fromString 3 [7] (decimal_bytes three_ints)
          = Some [255; 0; 44]) as Hrun by reflexivity.
  split; [exact Hrun|].
  exact (fromString_descriptor 3 [7] [255; 0; 44]
           (decimal_bytes three_ints) Hrun).
Defined.

(** * Further properties of [FBRISK::toMat32F] *)

Lemma concat_singletons {A B : Type} (f : A → B) (l : list A) :
  concat ((λ x, [f x]) <$> l) = f <$> l.
Proof.
  induction l as [|x l IH]; [done|].
  rewrite !fmap_cons. cbn [concat app]. by rewrite IH.
Qed.

Lemma length_concat_blocks {A : Type} (blk : nat → list A) (w : nat)
    (l : list nat) :
  (∀ i, i ∈ l → length (blk i) = w) →
  length (concat (blk <$> l)) = (length l * w)%nat.
Proof.
  induction l as [|i l IH]; intros Hblk; [done|].
  rewrite fmap_cons. cbn [concat]. rewrite length_app, Hblk by left.
  rewrite IH; [simpl; lia|]. intros ??. apply Hblk. by right.
Qed.

(** A loop whose round [idx] writes the block [blk idx] of [w] values at
    [base + idx * w] fills the buffer with the blocks in order. *)
Lemma fill_blocks (r c s : nat) (body : cv.Mat → nat → option cv.Mat)
    (w base n : nat) (blk : nat → list Z) :
  (∀ idx, (idx < n)%nat → length (blk idx) = w) →
  (∀ d idx, (idx < n)%nat → (base + idx * w + w ≤ length d)%nat →
     body (cv.mkMat r c s d) idx
     = Some (cv.mkMat r c s
               (take (base + idx * w) d ++ blk idx
                ++ drop (base + idx * w + w) d))) →
  ∀ d, (base + n * w ≤ length d)%nat →
    foldM body (cv.mkMat r c s d) (seq 0 n)
    = Some (cv.mkMat r c s
              (take base d ++ concat (blk <$> seq 0 n)
               ++ drop (base + n * w) d)).
Proof.
  induction n as [|n IH]; intros Hblk Hbody d Hd.
  { simpl. by rewrite Nat.add_0_r, take_drop. }
  rewrite (seq_S n 0), foldM_app.
  rewrite IH; [| intros; apply Hblk; lia | intros; apply Hbody; lia | lia].
  cbn [mbind option_bind]. simpl Nat.add. rewrite foldM_cons.
  assert (length (concat (blk <$> seq 0 n)) = (n * w)%nat) as HC.
  { rewrite (length_concat_blocks blk w), length_seq; [done|].
    intros i Hi. apply elem_of_seq in Hi. apply Hblk. lia. }
  assert (length (take base d) = base) as HP by (rewrite length_take; lia).
  rewrite Hbody; [| lia |].
  2: { rewrite !length_app, HC, HP, length_drop. lia. }
  cbn [mbind option_bind foldM]. do 2 f_equal.
  rewrite fmap_app, concat_app. cbn [fmap list_fmap concat].
  rewrite app_nil_r.
  rewrite (app_assoc (take base d)).
  rewrite take_app_length' by (rewrite length_app, HC, HP; lia).
  replace (base + n * w + w)%nat with ((base + n * w) + w)%nat by lia.
  rewrite drop_app_add' by (rewrite length_app, HC, HP; lia).
  rewrite drop_drop, <-!app_assoc.
  by replace (base + (w + n * w))%nat with (base + n * w + w)%nat by lia.
Qed.

Section ToMat32F.
Variable L : nat.

(** The loop over the bits, for the element [x] found at [desc[j]]. *)
Lemma toMat32F_byte (r c s : nat) (desc : list Z) (i k : nat) (x : Z)
    (d : list Z) :
  desc !! (k * 8)%nat = Some x →
  (i * s + k * 8 + 8 ≤ length d)%nat →
  foldM (FBRISK.toMat32F_step desc i (k * 8)) (cv.mkMat r c s d) (seq 0 8)
  = Some (cv.mkMat r c s
            (take (i * s + k * 8) d ++ byte_bits x
             ++ drop (i * s + k * 8 + 8) d)).
Proof.
  intros Hx Hd.
  rewrite (fill_blocks r c s _ 1 (i * s + k * 8) 8 (λ b, [bit_and x b]));
    [| done | | lia].
  - by rewrite (concat_singletons (bit_and x)).
  - intros d' b Hb Hd'. unfold FBRISK.toMat32F_step. rewrite Hx.
    cbn [mbind option_bind]. unfold cv.write, vset.
    cbn [cv.data cv.step cv.rows cv.cols].
    rewrite decide_True by lia. cbn [mbind option_bind].
    do 2 f_equal. rewrite insert_take_drop by lia.
    replace (i * s + (k * 8 + b))%nat with (i * s + k * 8 + b * 1)%nat by lia.
    cbn [app]. do 3 f_equal. lia.
Qed.

(** The loop over the columns of a row. *)
Lemma toMat32F_row (r c s : nat) (desc : list Z) (i : nat) (d : list Z) :
  (8 * L ≤ length desc + 7)%nat →
  (i * s + L * 8 ≤ length d)%nat →
  foldM (λ mat j, foldM (FBRISK.toMat32F_step desc i j) mat (seq 0 8))
        (cv.mkMat r c s d) ((λ k, k * 8)%nat <$> seq 0 L)
  = Some (cv.mkMat r c s
            (take (i * s) d ++ bits_row L desc ++ drop (i * s + L * 8) d)).
Proof.
  intros Hdesc Hd. rewrite foldM_fmap.
  rewrite (fill_blocks r c s _ 8 (i * s) L
             (λ k, byte_bits (default 0 (desc !! (k * 8)%nat))));
    [done | intros; by unfold byte_bits; rewrite length_fmap, length_seq
     | | done].
  intros d' k Hk Hd'.
  destruct (lookup_lt_is_Some_2 desc (k * 8)) as [x Hx]; [lia|].
  rewrite Hx. cbn [default]. by apply toMat32F_byte.
Qed.

Lemma length_bits_row (desc : list Z) : length (bits_row L desc) = (L * 8)%nat.
Proof.
  unfold bits_row. rewrite (length_concat_blocks _ 8), length_seq; [done|].
  intros. by unfold byte_bits; rewrite length_fmap, length_seq.
Qed.

Lemma fmap_lookup_seq {A B : Type} (f : A → B) (x0 : A) (l : list A) :
  (λ i, f (default x0 (l !! i))) <$> seq 0 (length l) = f <$> l.
Proof.
  apply list_eq. intros i. rewrite !list_lookup_fmap.
  destruct (decide (i < length l)%nat) as [Hi|Hi].
  - rewrite lookup_seq_lt by done. simpl.
    destruct (lookup_lt_is_Some_2 l i Hi) as [x ->]. done.
  - rewrite lookup_seq_ge by lia. by rewrite lookup_ge_None_2 by lia.
Qed.

End ToMat32F.

(** X13. When every descriptor has an element at each of the indices
    [0, 8, ..., 8 * (L - 1)] that the column loop uses, [FBRISK::toMat32F]
    gives the matrix of [N] rows and [8 * L] columns whose row [i] holds,
    for each of these elements of descriptor [i], its eight masks
    [x & (1 << b)]. *)
Theorem toMat32F_bits (L : nat) (descriptors : list (list Z))
    (mat : cv.Mat) :
  descriptors ≠ [] →
  Forall (λ desc, (8 * L ≤ length desc + 7)%nat) descriptors →
  FBRISK.toMat32F L descriptors mat
  = Some (cv.mkMat (length descriptors) (L * 8) (L * 8)
            (concat (bits_row L <$> descriptors))).
Proof.
  intros Hne Hds. unfold FBRISK.toMat32F.
  destruct descriptors as [|d0 ds] eqn:Heq; [done|]. rewrite <-Heq in *.
  clear Heq Hne d0 ds. unfold cv.create.
  rewrite (fill_blocks _ _ _ _ (L * 8) 0 (length descriptors)
             (λ i, bits_row L (default [] (descriptors !! i))));
    [| intros; apply length_bits_row | | rewrite length_replicate; lia].
  - cbn [take app Nat.add].
    rewrite drop_ge by (rewrite length_replicate; lia).
    rewrite app_nil_r, take_0. cbn [app]. do 3 f_equal.
    apply (fmap_lookup_seq (bits_row L)).
  - intros d i Hi Hd.
    destruct (lookup_lt_is_Some_2 descriptors i Hi) as [desc Hdesc].
    rewrite Hdesc. cbn [mbind option_bind default].
    rewrite toMat32F_row.
    + by rewrite !Nat.add_0_l.
    + rewrite list.Forall_forall in Hds. apply Hds.
      by eapply list_elem_of_lookup_2.
    + lia.
Qed.

Lemma toMat32F_bits_witness :
  [nine_bytes] ≠ []
  ∧ Forall (λ desc, (8 * 2 ≤ length desc + 7)%nat) [nine_bytes]
  ∧ FBRISK.toMat32F 2 [nine_bytes] cv.release
    = Some (cv.mkMat (length [nine_bytes]) (2 * 8) (2 * 8)
              (concat (bits_row 2 <$> [nine_bytes]))).
Proof.
  assert ([nine_bytes] ≠ []) as Hne by discriminate.
  assert (Forall (λ desc, (8 * 2 ≤ length desc + 7)%nat) [nine_bytes])
    as Hds.
  { apply Forall_forall. intros x Hx.
    destruct Hx as [<-|Hx]; [simpl; lia | destruct Hx]. }
  split_and!; [exact Hne | exact Hds |].
  exact (toMat32F_bits 2 [nine_bytes] cv.release Hne Hds).
Defined.

(** * Further properties of [changeStructure] *)

Section ChangeStructureRows.
Variable mat : cv.Mat.
Variable L : nat.
Hypothesis Halloc : cv.allocated mat.
Hypothesis Hstep : (L ≤ cv.step mat)%nat.

Lemma row_prefix_length i :
  (i < cv.rows mat)%nat → length (row_prefix mat L i) = L.
Proof.
  intros Hi. unfold row_prefix. unfold cv.allocated in Halloc.
  rewrite length_take, length_drop, Halloc. nia.
Qed.

Lemma row_prefix_lookup i j :
  (j < L)%nat →
  row_prefix mat L i !! j = cv.data mat !! (i * cv.step mat + j)%nat.
Proof.
  intros Hj. unfold row_prefix. by rewrite lookup_take_lt, lookup_drop by done.
Qed.

Lemma changeStructureBRISK_row_prefix (i : nat) (out_i : list Z) :
  (i < cv.rows mat)%nat → length out_i = L →
  foldM (λ out_i j,
           x ← cv.data mat !! (i * cv.step mat + j)%nat;
           vset out_i j x)
        out_i (seq 0 L)
  = Some (row_prefix mat L i).
Proof.
  intros Hi Hlen.
  assert (∀ j, (j < L)%nat →
            is_Some (cv.data mat !! (i * cv.step mat + j)%nat)) as Hdata.
  { intros j Hj. apply lookup_lt_is_Some_2.
    unfold cv.allocated in Halloc. rewrite Halloc. nia. }
  destruct (foldM_pointwise
              (λ j _, default 0 (cv.data mat !! (i * cv.step mat + j)%nat))
              (λ out_i j,
                 x ← cv.data mat !! (i * cv.step mat + j)%nat; vset out_i j x)
              (seq 0 L) out_i) as (row & -> & Hl & Hin & _).
  - intros j s c Hj Hc. apply elem_of_seq in Hj.
    destruct (Hdata j) as [x Hx]; [lia|].
    rewrite Hx. cbn [mbind option_bind default]. unfold vset.
    by rewrite decide_True by (by eapply lookup_lt_Some).
  - apply NoDup_seq.
  - intros j Hj. apply elem_of_seq in Hj. lia.
  - f_equal. apply list_eq. intros j.
    destruct (decide (j < L)%nat) as [Hj|Hj].
    + destruct (lookup_lt_is_Some_2 out_i j) as [c Hc]; [lia|].
      rewrite (Hin j c) by (done || apply elem_of_seq; lia).
      rewrite row_prefix_lookup by done.
      destruct (Hdata j) as [x Hx]; [lia|]. by rewrite Hx.
    + rewrite !lookup_ge_None_2; [done | rewrite row_prefix_length; lia | lia].
Qed.

End ChangeStructureRows.

(** X14. [changeStructureBRISK] reads each row through [plain.ptr(i)]: on
    any matrix whose rows hold [L] elements or more, continuous or not, it
    gives the first [L] elements of each row. *)
Theorem changeStructureBRISK_rows (mat : cv.Mat) (L : nat)
    (out0 : list (list Z)) :
  cv.allocated mat → (L ≤ cv.step mat)%nat →
  trainBRISK.changeStructureBRISK L mat out0
  = Some (row_prefix mat L <$> seq 0 (cv.rows mat)).
Proof.
  intros Halloc Hstep. unfold trainBRISK.changeStructureBRISK.
  destruct (foldM_pointwise
              (λ i _, row_prefix mat L i)
              (λ out i,
                 out_i ← out !! i;
                 out_i ← foldM (λ out_i j,
                            x ← cv.data mat !! (i * cv.step mat + j)%nat;
                            vset out_i j x)
                         (resize L 0 out_i) (seq 0 L);
                 vset out i out_i)
              (seq 0 (cv.rows mat)) (resize (cv.rows mat) [] out0))
    as (out & -> & Hl & Hin & _).
  - intros i s c Hi Hc. apply elem_of_seq in Hi. rewrite Hc.
    cbn [mbind option_bind].
    rewrite changeStructureBRISK_row_prefix
      by (rewrite ?length_resize; done || lia).
    cbn [mbind option_bind]. unfold vset.
    by rewrite decide_True by (by eapply lookup_lt_Some).
  - apply NoDup_seq.
  - intros i Hi. apply elem_of_seq in Hi. rewrite length_resize. lia.
  - f_equal. rewrite length_resize in Hl. apply list_eq. intros i.
    destruct (decide (i < cv.rows mat)%nat) as [Hi|Hi].
    + destruct (lookup_lt_is_Some_2 (resize (cv.rows mat) [] out0) i)
        as [c Hc]; [rewrite length_resize; lia|].
      rewrite (Hin i c) by (done || apply elem_of_seq; lia).
      rewrite list_lookup_fmap, lookup_seq_lt by done. done.
    + rewrite !lookup_ge_None_2;
        [done | rewrite length_fmap, length_seq; lia | lia].
Qed.

Lemma changeStructureBRISK_rows_witness :
  cv.allocated mat_2x3_step4 ∧ (3 ≤ cv.step mat_2x3_step4)%nat
  ∧ trainBRISK.changeStructureBRISK 3 mat_2x3_step4 [[9]]
    = Some (row_prefix mat_2x3_step4 3 <$> seq 0 (cv.rows mat_2x3_step4)).
Proof.
  assert (cv.allocated mat_2x3_step4) as Halloc by reflexivity.
  assert (3 ≤ cv.step mat_2x3_step4)%nat as Hstep by (simpl; lia).
  split_and!; [exact Halloc | exact Hstep |].
  exact (changeStructureBRISK_rows mat_2x3_step4 3 [[9]] Halloc Hstep).
Defined.

Section ChangeStructureBuffer.
Variable mat : cv.Mat.
Variable L : nat.
Hypothesis HL : (0 < L)%nat.
Hypothesis Hcols : cv.cols mat = L.
Hypothesis Hdata : (cv.rows mat * L ≤ length (cv.data mat))%nat.
Hypothesis Hint : Z.of_nat (cv.rows mat * cv.cols mat) ≤ INT_MAX.

Lemma total_int_buffer :
  int (Z.of_nat (cv.rows mat) * Z.of_nat (cv.cols mat))
  = Some (Z.of_nat (cv.rows mat * L)).
Proof.
  unfold int. rewrite decide_True by (unfold INT_MIN, INT_MAX in *; nia).
  f_equal. nia.
Qed.

(** The loop of [changeStructure] walks over the buffer, whatever the step
    of the matrix. *)
Lemma changeStructure_loop_buffer (n j fuel : nat) (out : list (list Z)) :
  (j + n = cv.rows mat)%nat → (n < fuel)%nat → length out = cv.rows mat →
  trainBRISK.changeStructure_loop fuel mat (Z.of_nat L)
    (Z.of_nat (j * L)) j out
  = Some (take j out ++ (chunk (cv.data mat) L <$> seq j n)).
Proof.
  revert j fuel out. induction n as [|n IH]; intros j fuel out Hj Hfuel Hout.
  - destruct fuel as [|fuel]; [lia|].
    cbn [trainBRISK.changeStructure_loop]. rewrite total_int_buffer.
    cbn [mbind option_bind].
    destruct (Z.ltb_spec (Z.of_nat (j * L)) (Z.of_nat (cv.rows mat * L)));
      [nia|].
    cbn [seq fmap list_fmap]. rewrite app_nil_r, take_ge by lia. done.
  - destruct fuel as [|fuel]; [lia|].
    cbn [trainBRISK.changeStructure_loop]. rewrite total_int_buffer.
    cbn [mbind option_bind].
    destruct (Z.ltb_spec (Z.of_nat (j * L)) (Z.of_nat (cv.rows mat * L)));
      [|nia].
    destruct (lookup_lt_is_Some_2 out j) as [out_j Hout_j]; [lia|].
    rewrite Hout_j. cbn [mbind option_bind].
    assert (trainBRISK.size_t (Z.of_nat L) = L) as ->.
    { unfold trainBRISK.size_t. rewrite Z.mod_small; [lia|].
      unfold INT_MAX in Hint. nia. }
    unfold trainBRISK.copy. rewrite length_resize.
    rewrite decide_True by nia.
    cbn [mbind option_bind].
    replace (Z.to_nat (Z.of_nat (j * L) + Z.of_nat L - Z.of_nat (j * L)))
      with L by lia.
    rewrite Nat2Z.id.
    rewrite (drop_ge (resize L 0 out_j)) by (rewrite length_resize; lia).
    rewrite app_nil_r. fold (chunk (cv.data mat) L j).
    unfold vset. rewrite decide_True by lia. cbn [mbind option_bind].
    unfold int.
    rewrite decide_True by (unfold INT_MIN, INT_MAX in *; nia).
    cbn [mbind option_bind].
    replace (Z.of_nat (j * L) + Z.of_nat L) with (Z.of_nat (S j * L)) by lia.
    rewrite IH by (rewrite ?length_insert; lia).
    f_equal. cbn [seq fmap list_fmap].
    rewrite (take_S_r _ _ (chunk (cv.data mat) L j))
      by (apply list_lookup_insert_eq; lia).
    rewrite take_insert_ge by lia. by rewrite <-app_assoc.
Qed.

End ChangeStructureBuffer.

(** X15. [changeStructure] reads [mat.data] as one run of elements and does
    not use the step of the matrix: on a matrix of [L] columns whose buffer
    holds [rows * L] elements or more, descriptor [j] is the [j]-th run of
    [L] elements of the buffer, also where the rows are padded. *)
Theorem changeStructure_buffer (mat : cv.Mat) (L : nat)
    (out0 : list (list Z)) :
  (0 < L)%nat → cv.cols mat = L →
  (cv.rows mat * L ≤ length (cv.data mat))%nat →
  Z.of_nat (cv.rows mat * cv.cols mat) ≤ INT_MAX →
  trainBRISK.changeStructure mat out0 (Z.of_nat L)
  = Some (chunk (cv.data mat) L <$> seq 0 (cv.rows mat)).
Proof.
  intros HL Hcols Hdata Hint. unfold trainBRISK.changeStructure.
  change 0 with (Z.of_nat (0 * L)).
  rewrite (changeStructure_loop_buffer mat L HL Hcols Hdata Hint
             (cv.rows mat))
    by (rewrite ?length_resize; lia).
  done.
Qed.

Lemma changeStructure_buffer_witness :
  (0 < 3)%nat ∧ cv.cols mat_2x3_step4 = 3%nat
  ∧ (cv.rows mat_2x3_step4 * 3 ≤ length (cv.data mat_2x3_step4))%nat
  ∧ Z.of_nat (cv.rows mat_2x3_step4 * cv.cols mat_2x3_step4) ≤ INT_MAX
  ∧ trainBRISK.changeStructure mat_2x3_step4 [[9]] (Z.of_nat 3)
    = Some (chunk (cv.data mat_2x3_step4) 3
              <$> seq 0 (cv.rows mat_2x3_step4)).
Proof.
  assert (0 < 3)%nat as HL by lia.
  assert (cv.cols mat_2x3_step4 = 3%nat) as Hcols by reflexivity.
  assert (cv.rows mat_2x3_step4 * 3 ≤ length (cv.data mat_2x3_step4))%nat
    as Hdata by (simpl; lia).
  assert (Z.of_nat (cv.rows mat_2x3_step4 * cv.cols mat_2x3_step4) ≤ INT_MAX)
    as Hint by (vm_compute; discriminate).
  split_and!; [exact HL | exact Hcols | exact Hdata | exact Hint |].
  exact (changeStructure_buffer mat_2x3_step4 3 [[9]] HL Hcols Hdata Hint).
Defined.

(** The loop of [changeStructure] on a matrix of more than [L] columns:
    the counter [i] is still below [rows * cols] when [j] has reached the
    end of [out]. *)
Lemma changeStructure_loop_wide (mat : cv.Mat) (L : Z) (fuel j : nat)
    (out : list (list Z)) :
  0 < L < Z.of_nat (cv.cols mat) → (0 < cv.rows mat)%nat →
  length out = cv.rows mat → (j ≤ cv.rows mat)%nat →
  trainBRISK.changeStructure_loop fuel mat L (Z.of_nat j * L) j out = None.
Proof.
  intros HL Hrows. revert j out.
  induction fuel as [|fuel IH]; intros j out Hout Hj;
    cbn [trainBRISK.changeStructure_loop];
    destruct (int (Z.of_nat (cv.rows mat) * Z.of_nat (cv.cols mat)))
      as [total|] eqn:Htotal; try done;
    cbn [mbind option_bind];
    unfold int in Htotal; destruct (decide _) in Htotal; [|done| |done];
    injection Htotal as <-;
    (destruct (Z.ltb_spec (Z.of_nat j * L)
                 (Z.of_nat (cv.rows mat) * Z.of_nat (cv.cols mat)));
     [|nia]); [done|].
  destruct (out !! j) as [out_j|] eqn:Hout_j; [|done].
  apply lookup_lt_Some in Hout_j. cbn [mbind option_bind].
  destruct (trainBRISK.copy _ _ _ _) as [out_j'|]; [|done].
  cbn [mbind option_bind].
  destruct (vset out j out_j') as [out'|] eqn:Hvset; [|done].
  cbn [mbind option_bind].
  destruct (int (Z.of_nat j * L + L)) as [i'|] eqn:Hi'; [|done].
  cbn [mbind option_bind].
  unfold int in Hi'. destruct (decide _) in Hi'; [|done]. injection Hi' as <-.
  unfold vset in Hvset. destruct (decide _) in Hvset; [|done].
  injection Hvset as <-.
  replace (Z.of_nat j * L + L) with (Z.of_nat (S j) * L) by lia.
  apply IH; [by rewrite length_insert | lia].
Qed.

(** X16. On a matrix with rows and with more than [L] columns,
    [changeStructure] is undefined: [out] has one element a row, and the
    loop passes its end. *)
Theorem changeStructure_more_columns (mat : cv.Mat) (L : Z) (out0 : list (list Z)) :
  0 < L < Z.of_nat (cv.cols mat) → (0 < cv.rows mat)%nat →
  trainBRISK.changeStructure mat out0 L = None.
Proof.
  intros HL Hrows. unfold trainBRISK.changeStructure.
  change 0 with (Z.of_nat 0 * L).
  apply changeStructure_loop_wide; [done | done | | lia].
  by rewrite length_resize.
Qed.

Lemma changeStructure_more_columns_witness :
  0 < 3 < Z.of_nat (cv.cols mat_2x4) ∧ (0 < cv.rows mat_2x4)%nat
  ∧ trainBRISK.changeStructure mat_2x4 [] 3 = None.
Proof.
  assert (0 < 3 < Z.of_nat (cv.cols mat_2x4)) as HL by (simpl; lia).
  assert (0 < cv.rows mat_2x4)%nat as Hrows by (simpl; lia).
  split; [exact HL|]. split; [exact Hrows|].
  exact (changeStructure_more_columns mat_2x4 3 [] HL Hrows).
Defined.

(** * Further properties of the fast vocabulary loader *)

Section LoaderArray.
Import FastVocabularyLoader.
Variable WordValue : Type.
Variable zero : WordValue.

Local Abbreviation NodeRecord := (NodeRecord WordValue).
Local Abbreviation NodeData := (NodeData WordValue).

Lemma store_length (nd : list NodeData) (r : NodeRecord) :
  length (store zero nd r)
  = (length nd `max` S (Z.to_nat (nodeId _ r)))%nat.
Proof.
  unfold store. rewrite length_insert.
  case_decide; [rewrite length_resize|]; lia.
Qed.

Lemma foldl_store_length (rs : list NodeRecord) (nd : list NodeData) :
  (0 < length nd)%nat →
  length (foldl (store zero) nd rs)
  = (length nd `max` S (max_node_id rs))%nat.
Proof.
  revert nd. induction rs as [|r rs IH]; intros nd Hnd.
  { unfold max_node_id. cbn [foldl fmap list_fmap max_list]. lia. }
  cbn [foldl]. rewrite IH by (rewrite store_length; lia).
  rewrite store_length. unfold max_node_id.
  rewrite fmap_cons. cbn [max_list]. unfold Datatypes.id. lia.
Qed.

(** An index that no record names holds the entry it was filled with. *)
Lemma foldl_store_blank (rs : list NodeRecord) (nd : list NodeData) n :
  (∀ r, r ∈ rs → Z.to_nat (nodeId _ r) ≠ n) →
  (∀ x, nd !! n = Some x → x = blank_entry zero) →
  ∀ x, foldl (store zero) nd rs !! n = Some x → x = blank_entry zero.
Proof.
  revert nd. induction rs as [|r rs IH]; intros nd Hrs Hnd; [done|].
  cbn [foldl]. apply IH; [intros ??; apply Hrs; by right|].
  intros x. unfold store.
  rewrite list_lookup_insert_ne by (apply Hrs; by left).
  case_decide; [|apply Hnd].
  intros Hx. apply lookup_lt_Some in Hx as Hn. rewrite length_resize in Hn.
  destruct (decide (n < length nd)%nat) as [Hlt|Hge].
  - rewrite lookup_resize in Hx by lia. by apply Hnd.
  - rewrite lookup_resize_new in Hx by lia. by injection Hx as <-.
Qed.

(** Records whose ids count up from the size of the array are appended. *)
Lemma foldl_store_ordered (rs : list NodeRecord) (nd : list NodeData) :
  (∀ i r, rs !! i = Some r → nodeId _ r = Z.of_nat (length nd + i)) →
  foldl (store zero) nd rs = nd ++ (entry_of <$> rs).
Proof.
  revert nd. induction rs as [|r rs IH]; intros nd Hids.
  { by rewrite app_nil_r. }
  cbn [foldl]. pose proof (Hids 0%nat r eq_refl) as Hr.
  assert (store zero nd r = nd ++ [entry_of r]) as ->.
  { unfold store. rewrite Hr, Nat.add_0_r, Nat2Z.id.
    rewrite decide_True by lia.
    rewrite resize_ge by lia.
    replace (S (length nd) - length nd)%nat with 1%nat by lia.
    cbn [replicate].
    rewrite insert_app_r_alt by lia. by rewrite Nat.sub_diag. }
  rewrite IH.
  - rewrite fmap_cons, <-app_assoc. done.
  - intros i r' Hr'. rewrite (Hids (S i) r' Hr'), length_app. simpl. lia.
Qed.

End LoaderArray.

(** X17. The node array that [FastVocabularyLoader::load] builds has one
    entry for each id from 0 to the largest id of the file, and the entries
    that no record of the file names, the root among them, hold id 0,
    parent 0, the zero weight and the empty descriptor string.  (In a run
    where the allocator refuses nothing.) *)
Theorem load_node_array (WordValue : Type) (zero : WordValue)
    (allocates : FastVocabularyLoader.request → bool)
    (disk : string → option (FastVocabularyLoader.FileStorage WordValue))
    (filename : string) fs fvoc :
  disk filename = Some fs →
  FastVocabularyLoader.vocabulary _ fs = Some fvoc →
  Forall (λ r, 0 ≤ FastVocabularyLoader.nodeId _ r ≤ INT_MAX)
         (FastVocabularyLoader.nodes _ fvoc) →
  (∀ q, allocates q = true) →
  ∃ log ld,
    FastVocabularyLoader.load WordValue zero allocates disk filename []
    = (log, FastVocabularyLoader.Ok ld)
    ∧ length (FastVocabularyLoader.node_data _ ld)
      = S (max_node_id (FastVocabularyLoader.nodes _ fvoc))
    ∧ ∀ n,
        (n ≤ max_node_id (FastVocabularyLoader.nodes _ fvoc))%nat →
        (∀ r, r ∈ FastVocabularyLoader.nodes _ fvoc →
              FastVocabularyLoader.nodeId _ r ≠ Z.of_nat n) →
        FastVocabularyLoader.node_data _ ld !! n = Some (blank_entry zero).
Proof.
  intros Hfs Hvoc Hids Hmem. eexists _, _.
  split; [exact (load_runs WordValue zero allocates disk filename fs fvoc
                   Hfs Hvoc Hids Hmem)|].
  cbn [FastVocabularyLoader.node_data].
  assert (length (foldl (store zero) [blank_entry zero]
                    (FastVocabularyLoader.nodes _ fvoc))
          = S (max_node_id (FastVocabularyLoader.nodes _ fvoc))) as Hlen.
  { rewrite foldl_store_length by (simpl; lia). simpl. lia. }
  split; [done|]. intros n Hn Hfree.
  destruct (lookup_lt_is_Some_2
              (foldl (store zero) [blank_entry zero]
                 (FastVocabularyLoader.nodes _ fvoc)) n) as [x Hx]; [lia|].
  rewrite Hx. f_equal. revert x Hx. apply foldl_store_blank.
  - intros r Hr Heq. apply (Hfree r Hr).
    rewrite list.Forall_forall in Hids. specialize (Hids r Hr). lia.
  - intros x Hx. destruct n as [|n]; [by injection Hx as <-|done].
Qed.

Lemma load_node_array_witness :
  disk_of sparse_nodes "voc.yml"
  = Some (FastVocabularyLoader.mkFileStorage Z
            (Some (FastVocabularyLoader.mkVocabularyNode Z 2 1 0 0
                     sparse_nodes [])))
  ∧ FastVocabularyLoader.vocabulary _
      (FastVocabularyLoader.mkFileStorage Z
         (Some (FastVocabularyLoader.mkVocabularyNode Z 2 1 0 0
                  sparse_nodes [])))
    = Some (FastVocabularyLoader.mkVocabularyNode Z 2 1 0 0 sparse_nodes [])
  ∧ Forall (λ r, 0 ≤ FastVocabularyLoader.nodeId _ r ≤ INT_MAX) sparse_nodes
  ∧ (∀ q, plenty q = true)
  ∧ ∃ log ld,
      FastVocabularyLoader.load Z 0 plenty (disk_of sparse_nodes) "voc.yml" []
      = (log, FastVocabularyLoader.Ok ld)
      ∧ length (FastVocabularyLoader.node_data _ ld)
        = S (max_node_id sparse_nodes)
      ∧ ∀ n,
          (n ≤ max_node_id sparse_nodes)%nat →
          (∀ r, r ∈ sparse_nodes →
                FastVocabularyLoader.nodeId _ r ≠ Z.of_nat n) →
          FastVocabularyLoader.node_data _ ld !! n = Some (blank_entry 0).
Proof.
  assert (disk_of sparse_nodes "voc.yml"
          = Some (FastVocabularyLoader.mkFileStorage Z
                    (Some (FastVocabularyLoader.mkVocabularyNode Z 2 1 0 0
                             sparse_nodes [])))) as Hfs by reflexivity.
  assert (FastVocabularyLoader.vocabulary _
            (FastVocabularyLoader.mkFileStorage Z
               (Some (FastVocabularyLoader.mkVocabularyNode Z 2 1 0 0
                        sparse_nodes [])))
          = Some (FastVocabularyLoader.mkVocabularyNode Z 2 1 0 0
                    sparse_nodes [])) as Hvoc by reflexivity.
  assert (Forall (λ r, 0 ≤ FastVocabularyLoader.nodeId _ r ≤ INT_MAX)
                 sparse_nodes) as Hids.
  { apply Forall_forall. intros r Hr.
    repeat (destruct Hr as [<-|Hr]; [unfold INT_MAX; simpl; lia|]).
    destruct Hr. }
  assert (∀ q, plenty q = true) as Hmem by reflexivity.
  split_and!; [exact Hfs | exact Hvoc | exact Hids | exact Hmem |].
  exact (load_node_array Z 0 plenty (disk_of sparse_nodes) "voc.yml" _ _
           Hfs Hvoc Hids Hmem).
Defined.

(** X18. When the records of the file carry the ids 1, 2, 3, ... in this
    order, the node array is the root entry followed by the entries of the
    records in file order.  (In a run where the allocator refuses
    nothing.) *)
Theorem load_ordered (WordValue : Type) (zero : WordValue)
    (allocates : FastVocabularyLoader.request → bool)
    (disk : string → option (FastVocabularyLoader.FileStorage WordValue))
    (filename : string) fs fvoc :
  disk filename = Some fs →
  FastVocabularyLoader.vocabulary _ fs = Some fvoc →
  Forall (λ r, 0 ≤ FastVocabularyLoader.nodeId _ r ≤ INT_MAX)
         (FastVocabularyLoader.nodes _ fvoc) →
  (∀ i r, FastVocabularyLoader.nodes _ fvoc !! i = Some r →
          FastVocabularyLoader.nodeId _ r = Z.of_nat (S i)) →
  (∀ q, allocates q = true) →
  ∃ log ld,
    FastVocabularyLoader.load WordValue zero allocates disk filename []
    = (log, FastVocabularyLoader.Ok ld)
    ∧ FastVocabularyLoader.node_data _ ld
      = blank_entry zero :: (entry_of <$> FastVocabularyLoader.nodes _ fvoc).
Proof.
  intros Hfs Hvoc Hids Hord Hmem. eexists _, _.
  split; [exact (load_runs WordValue zero allocates disk filename fs fvoc
                   Hfs Hvoc Hids Hmem)|].
  cbn [FastVocabularyLoader.node_data].
  by rewrite foldl_store_ordered by (intros i r Hr; by apply Hord).
Qed.

Lemma load_ordered_witness :
  disk_of ordered_nodes "voc.yml"
  = Some (FastVocabularyLoader.mkFileStorage Z
            (Some (FastVocabularyLoader.mkVocabularyNode Z 2 1 0 0
                     ordered_nodes [])))
  ∧ FastVocabularyLoader.vocabulary _
      (FastVocabularyLoader.mkFileStorage Z
         (Some (FastVocabularyLoader.mkVocabularyNode Z 2 1 0 0
                  ordered_nodes [])))
    = Some (FastVocabularyLoader.mkVocabularyNode Z 2 1 0 0 ordered_nodes [])
  ∧ Forall (λ r, 0 ≤ FastVocabularyLoader.nodeId _ r ≤ INT_MAX) ordered_nodes
  ∧ (∀ i r, ordered_nodes !! i = Some r →
            FastVocabularyLoader.nodeId _ r = Z.of_nat (S i))
  ∧ (∀ q, plenty q = true)
  ∧ ∃ log ld,
      FastVocabularyLoader.load Z 0 plenty (disk_of ordered_nodes) "voc.yml" []
      = (log, FastVocabularyLoader.Ok ld)
      ∧ FastVocabularyLoader.node_data _ ld
        = blank_entry 0 :: (entry_of <$> ordered_nodes).
Proof.
  assert (disk_of ordered_nodes "voc.yml"
          = Some (FastVocabularyLoader.mkFileStorage Z
                    (Some (FastVocabularyLoader.mkVocabularyNode Z 2 1 0 0
                             ordered_nodes [])))) as Hfs by reflexivity.
  assert (FastVocabularyLoader.vocabulary _
            (FastVocabularyLoader.mkFileStorage Z
               (Some (FastVocabularyLoader.mkVocabularyNode Z 2 1 0 0
                        ordered_nodes [])))
          = Some (FastVocabularyLoader.mkVocabularyNode Z 2 1 0 0
                    ordered_nodes [])) as Hvoc by reflexivity.
  assert (Forall (λ r, 0 ≤ FastVocabularyLoader.nodeId _ r ≤ INT_MAX)
                 ordered_nodes) as Hids.
  { apply Forall_forall. intros r Hr.
    repeat (destruct Hr as [<-|Hr]; [unfold INT_MAX; simpl; lia|]).
    destruct Hr. }
  assert (∀ i r, ordered_nodes !! i = Some r →
                 FastVocabularyLoader.nodeId _ r = Z.of_nat (S i)) as Hord.
  { intros [|[|i]] r Hr; simpl in Hr; [by injection Hr as <-..|done]. }
  assert (∀ q, plenty q = true) as Hmem by reflexivity.
  split_and!; [exact Hfs | exact Hvoc | exact Hids | exact Hord | exact Hmem |].
  exact (load_ordered Z 0 plenty (disk_of ordered_nodes) "voc.yml" _ _
           Hfs Hvoc Hids Hord Hmem).
Defined.



(** * [testVocCreation] *)

(** X20. [testVocCreation] matches the first [TESTIMAGES] = 5 images
    against the first [NIMAGES] = 4: it is defined when there are five
    images or more, and then prints the twenty scores in this order; with
    fewer images it reads past the end of [features]. *)
Theorem testVocCreation_lines (Vocabulary BowVector Score : Type)
    (create : Z → Z → list (list (list Z)) → Vocabulary)
    (transform : Vocabulary → list (list Z) → BowVector)
    (score : Vocabulary → BowVector → BowVector → Score)
    (features : list (list (list Z))) :
  trainBRISK.testVocCreation Vocabulary BowVector Score create transform
    score features
  = if decide (trainBRISK.TESTIMAGES ≤ length features)%nat
    then Some (score_lines create transform score features)
    else None.
Proof.
  destruct features as [|f0 [|f1 [|f2 [|f3 [|f4 rest]]]]];
    try (rewrite decide_False
           by (unfold trainBRISK.TESTIMAGES; simpl; lia);
         reflexivity).
  rewrite decide_True by (unfold trainBRISK.TESTIMAGES; simpl; lia).
  reflexivity.
Qed.
